(** * content-factory: the transcript chunker, the summarisation engine and
      the schedule slot allocator of [podcast-to-social]

    The development embeds three pieces of the Python sources:

    - [src/post_generator.py]: [_chunk_transcript] and [summarize_episode];
    - [src/scheduler.py]: [get_schedule_slots].

    Python strings are sequences of Unicode code points, Python integers are
    unbounded: strings are lists of code points and integers are [Z]. *)

From Stdlib Require Import Ascii String DecimalString.
From Stdlib Require Import ZArith List Bool Lia Sorted.
Import ListNotations.

Local Open Scope Z_scope.

(** ** Python strings *)

Module PyStr.

(** A character is a Unicode code point. *)
Definition char : Type := N.
Definition str : Type := list char.

Definition SPACE : char := 32%N.

(** [len(s)] *)
Definition len (s : str) : Z := Z.of_nat (length s).

(** Truth value of a string: [if s:] holds of the non-empty strings. *)
Definition truthy (s : str) : bool :=
  match s with
  | [] => false
  | _ :: _ => true
  end.

(** [c.isspace()] for one character: the code points CPython lists in
    [_PyUnicode_IsWhitespace]. *)
Definition isspace (c : char) : bool :=
  ((9 <=? c) && (c <=? 13) || (28 <=? c) && (c <=? 32)
   || (c =? 133) || (c =? 160) || (c =? 5760)
   || (8192 <=? c) && (c <=? 8202)
   || (c =? 8232) || (c =? 8233) || (c =? 8239) || (c =? 8287)
   || (c =? 12288))%N.

(** [s.lstrip()]: drop the leading whitespace. *)
Fixpoint lstrip (s : str) : str :=
  match s with
  | [] => []
  | c :: s' => if isspace c then lstrip s' else s
  end.

(** Index normalisation of slices and of the [start]/[end] arguments of the
    search methods: a negative index counts from the end, and the result is
    clipped to [0 .. n]. *)
Definition adjust_index (i n : Z) : Z :=
  if i <? 0 then Z.max (i + n) 0 else Z.min i n.

(** [s[:k]] and [s[k:]] *)
Definition slice_to (s : str) (k : Z) : str :=
  firstn (Z.to_nat (adjust_index k (len s))) s.

Definition slice_from (s : str) (k : Z) : str :=
  skipn (Z.to_nat (adjust_index k (len s))) s.

(** [s.rfind(c, start, end)] for a one-character needle: the highest index
    [i] with [start <= i < end] and [s[i] = c], or [-1].  The scan runs over
    the string with its index [i], remembering the last match in [found]. *)
Fixpoint rfind_scan (s : str) (c : char) (i lo hi found : Z) : Z :=
  match s with
  | [] => found
  | x :: s' =>
      rfind_scan s' c (i + 1) lo hi
        (if (lo <=? i) && (i <? hi) && (x =? c)%N then i else found)
  end.

Definition rfind (s : str) (c : char) (start stop : Z) : Z :=
  rfind_scan s c 0 (adjust_index start (len s)) (adjust_index stop (len s)) (-1).

(** [sep.join(parts)] for the separator [" "]. *)
Fixpoint join_space (parts : list str) : str :=
  match parts with
  | [] => []
  | [p] => p
  | p :: ps => p ++ SPACE :: join_space ps
  end.

(** [s.split()]: the maximal runs of non-whitespace characters, in order.
    A non-whitespace character either ends its word (the rest is empty or
    starts with whitespace) or is put in front of the first word of the
    rest. *)
Definition at_boundary (s : str) : bool :=
  match s with
  | [] => true
  | c :: _ => isspace c
  end.

Fixpoint split (s : str) : list str :=
  match s with
  | [] => []
  | c :: s' =>
      if isspace c then split s'
      else if at_boundary s' then [c] :: split s'
      else match split s' with
           | w :: ws => (c :: w) :: ws
           | [] => [[c]]
           end
  end.

(** A literal of ASCII characters. *)
Definition lit (s : string) : str :=
  map N_of_ascii (list_ascii_of_string s).

(** [s == t] *)
Fixpoint eqb (s t : str) : bool :=
  match s, t with
  | [], [] => true
  | c :: s', d :: t' => (c =? d)%N && eqb s' t'
  | _, _ => false
  end.

(** [str(i)] for an int [i]. *)
Definition str_of_int (i : Z) : str :=
  lit (NilZero.string_of_int (Z.to_int i)).

End PyStr.

(** ** The chunker of [post_generator.py] *)

Module Chunker.
Import PyStr.

Definition CHUNK_SIZE : Z := 40000.

(** Lines 153-156: the split point of one iteration, the last space within
    300 characters of the boundary, or the boundary itself. *)
Definition split_point (remaining : str) : Z :=
  let boundary := CHUNK_SIZE in
  let split_at := rfind remaining SPACE (boundary - 300) (boundary + 300) in
  if split_at =? -1 then boundary else split_at.

(** Line 158: the text left after one iteration. *)
Definition next_remaining (remaining : str) : str :=
  lstrip (slice_from remaining (split_point remaining)).

(** Lines 151-158: the [while] loop, on the state [(chunks, remaining)].
    The loop is bounded by [fuel] iterations; [None] is a loop that is still
    running when the fuel is spent. *)
Fixpoint chunk_loop (fuel : nat) (chunks : list str) (remaining : str)
  : option (list str * str) :=
  if CHUNK_SIZE <? len remaining then
    match fuel with
    | O => None
    | S fuel' =>
        chunk_loop fuel'
          (chunks ++ [slice_to remaining (split_point remaining)])
          (next_remaining remaining)
    end
  else Some (chunks, remaining).

(** [_chunk_transcript(transcript)].  The loop is given one unit of fuel per
    character of the transcript. *)
Definition _chunk_transcript (transcript : str) : option (list str) :=
  if len transcript <=? CHUNK_SIZE then Some [transcript]
  else
    match chunk_loop (length transcript) [] transcript with
    | None => None
    | Some (chunks, remaining) =>
        Some (if truthy remaining then chunks ++ [remaining] else chunks)
    end.

(** The runs of the loop: from [remaining], the loop appends [chunks] and
    exits with [final]. *)
Inductive loop_run : str -> list str -> str -> Prop :=
| loop_exit (remaining : str) :
    len remaining <= CHUNK_SIZE ->
    loop_run remaining [] remaining
| loop_iter (remaining : str) (chunks : list str) (final : str) :
    CHUNK_SIZE < len remaining ->
    loop_run (next_remaining remaining) chunks final ->
    loop_run remaining
      (slice_to remaining (split_point remaining) :: chunks) final.

(** Whether every iteration of the loop finds its split point with [rfind],
    that is, never falls back to the boundary itself. *)
Fixpoint splits_at_spaces (fuel : nat) (remaining : str) : bool :=
  if CHUNK_SIZE <? len remaining then
    match fuel with
    | O => false
    | S fuel' =>
        negb (rfind remaining SPACE (CHUNK_SIZE - 300) (CHUNK_SIZE + 300) =? -1)
        && splits_at_spaces fuel' (next_remaining remaining)
    end
  else true.

(** Whether a string has no run of more than [cur] characters other than the
    space at its start, and none of more than [limit] afterwards. *)
Fixpoint runs_within (limit cur : nat) (s : str) : bool :=
  match s with
  | [] => true
  | c :: s' =>
      if (c =? SPACE)%N then runs_within limit limit s'
      else match cur with
           | O => false
           | S cur' => runs_within limit cur' s'
           end
  end.

(** A text with a space in every 301 consecutive characters: every search
    window of the loop then holds a space. *)
Definition spaced (s : str) : Prop :=
  exists cur, (cur <= 300)%nat /\ runs_within 300 cur s = true.

End Chunker.

(** ** The summarisation engine of [post_generator.py] *)

Module Summarizer.
Import PyStr Chunker.

(** The two model tiers: [_chunk_model()] and [_synthesis_model()]. *)
Inductive model : Type := ChunkModel | SynthesisModel.

Definition model_eqb (a b : model) : bool :=
  match a, b with
  | ChunkModel, ChunkModel | SynthesisModel, SynthesisModel => true
  | _, _ => false
  end.

(** A prompt is one of the three templates with the fields [str.format]
    fills in. *)
Inductive prompt : Type :=
| SinglePassPrompt (channel_name episode_title transcript : str)
| ChunkPrompt (chunk_num total_chunks : Z)
    (channel_name episode_title previous_context chunk : str)
| SynthesisPrompt (channel_name episode_title all_summaries : str).

(** The arguments of one [_call]. *)
Record call : Type :=
  { call_prompt : prompt; call_model : model; call_max_tokens : Z }.

(** How a call ends whose exceptions no [try] of its own catches. *)
Inductive outcome (A : Type) : Type :=
| Returns (a : A)
| Raises.

Arguments Returns {A} a.
Arguments Raises {A}.

Definition NEWLINE : char := 10%N.
Definition QUOTE : char := 34%N.
Definition BULLET : char := 8226%N.

Definition SECTION_SUMMARY : str := lit "section_summary".
Definition KEY_POINTS : str := lit "key_points".
Definition NOTABLE_QUOTES : str := lit "notable_quotes".

Section Engine.

(** Python's numbers, ints and floats alike: the engine looks at a number
    only to test whether it is zero. *)
Variable number : Type.
Variable is_zero : number -> bool.

(** A parsed JSON value, as [json.loads] returns it: [None], a bool, a
    number, a string, a list, or a dict with its keys in their order, each
    once. *)
Unset Elimination Schemes.

Inductive json : Type :=
| JNone
| JBool (b : bool)
| JNumber (n : number)
| JStr (s : str)
| JList (l : list json)
| JDict (items : list (str * json)).

Set Elimination Schemes.

(** The OpenAI service: a request moves the service to a new state and
    returns the text of the response, or raises ([None]).  Parsing
    ([_extract_json]) returns the value of the text or raises ([None]).
    [repr] is [str(v)] for a value [v] that is not a string. *)
Variable Service : Type.
Variable create : Service -> call -> Service * option str.
Variable _extract_json : str -> option json.
Variable repr : json -> str.

(** Truth value of a parsed value. *)
Definition truthy_value (v : json) : bool :=
  match v with
  | JNone => false
  | JBool b => b
  | JNumber n => negb (is_zero n)
  | JStr s => truthy s
  | JList [] => false
  | JList (_ :: _) => true
  | JDict [] => false
  | JDict (_ :: _) => true
  end.

(** [d.get(key)] on the items of a dict: [None] for a key it does not
    hold. *)
Fixpoint get (items : list (str * json)) (key : str) : json :=
  match items with
  | [] => JNone
  | (k, v) :: rest => if eqb k key then v else get rest key
  end.

(** [for x in v]: the characters of a string, the elements of a list, the
    keys of a dict; another value is not iterable and raises ([None]). *)
Definition iterate (v : json) : option (list json) :=
  match v with
  | JStr s => Some (map (fun c => JStr [c]) s)
  | JList l => Some l
  | JDict items => Some (map (fun kv => JStr (fst kv)) items)
  | JNone | JBool _ | JNumber _ => None
  end.

(** [f"{v}"] *)
Definition format_value (v : json) : str :=
  match v with
  | JStr s => s
  | _ => repr v
  end.

(** The lines of a loop [for x in v: lines.append(line(x))], none when [v]
    is false, and a raise ([None]) when it is true and not iterable. *)
Definition lines_over (v : json) (line : json -> str) : option (list json) :=
  if truthy_value v
  then option_map (map (fun x => JStr (line x))) (iterate v)
  else Some [].

(** Lines 178-187: the lines of the section [i], with summary [s]; a value
    without [get], one that is not a dict, raises ([None]).  The value of
    ["section_summary"] becomes a line as it is. *)
Definition section_lines (i : Z) (s : json) : option (list json) :=
  match s with
  | JDict items =>
      let title :=
        JStr (NEWLINE :: lit "--- Section " ++ str_of_int i ++ lit " ---") in
      let section_summary := get items SECTION_SUMMARY in
      let key_points := get items KEY_POINTS in
      let notable_quotes := get items NOTABLE_QUOTES in
      match lines_over key_points
              (fun kp => lit "  " ++ BULLET :: SPACE :: format_value kp) with
      | None => None
      | Some points =>
          match lines_over notable_quotes
                  (fun q => lit "  " ++ QUOTE :: format_value q ++ [QUOTE]) with
          | None => None
          | Some quotes =>
              Some ([title]
                    ++ (if truthy_value section_summary
                        then [section_summary] else [])
                    ++ (if truthy_value key_points
                        then JStr (lit "Key points:") :: points else [])
                    ++ quotes)
          end
      end
  | _ => None
  end.

(** Lines 177-187: the loop over [enumerate(partial_summaries, 1)], from
    the index [i]. *)
Fixpoint sections_lines (i : Z) (partial_summaries : list json)
  : option (list json) :=
  match partial_summaries with
  | [] => Some []
  | s :: rest =>
      match section_lines i s, sections_lines (i + 1) rest with
      | Some lines, Some more => Some (lines ++ more)
      | _, _ => None
      end
  end.

(** ["\n".join(lines)]: an item that is not a string raises ([None]). *)
Fixpoint join_lines (lines : list json) : option str :=
  match lines with
  | [] => Some []
  | JStr s :: rest =>
      match rest with
      | [] => Some s
      | _ :: _ => option_map (fun r => s ++ NEWLINE :: r) (join_lines rest)
      end
  | _ :: _ => None
  end.

(** [_format_previous_context(partial_summaries)]; [None] when it
    raises. *)
Definition _format_previous_context (partial_summaries : list json)
  : option str :=
  match partial_summaries with
  | [] => Some []
  | _ :: _ =>
      match sections_lines 1 partial_summaries with
      | None => None
      | Some lines =>
          join_lines
            ([JStr (lit "SUMMARIES FROM PREVIOUS SECTIONS:")] ++ lines
             ++ [JStr []])
      end
  end.

(** One entry of the log: a request and what its [try] block yielded
    ([None] when the request or the parsing raised). *)
Record event : Type := { ev_call : call; ev_result : option json }.

Record state : Type := { service : Service; log : list event }.

(** Computations on the state. *)
Definition M (A : Type) : Type := state -> A * state.

Definition ret {A} (a : A) : M A := fun st => (a, st).

Definition bind {A B} (m : M A) (k : A -> M B) : M B :=
  fun st => let (a, st') := m st in k a st'.

Notation "x <- m ;; k" := (bind m (fun x => k))
  (at level 61, m at next level, right associativity).

(** [_call(prompt, model, max_tokens)] *)
Definition _call (p : prompt) (m : model) (max_tokens : Z)
  : Service -> Service * option str :=
  fun s =>
    create s {| call_prompt := p; call_model := m;
                call_max_tokens := max_tokens |}.

(** [try: response = _call(...); ... _extract_json(response)
     except Exception: ...]: the request, then the parsing of its text. *)
Definition attempt (p : prompt) (m : model) (max_tokens : Z)
  : M (option json) :=
  fun st =>
    let (s', response) := _call p m max_tokens (service st) in
    let r := match response with
             | Some text => _extract_json text
             | None => None
             end in
    (r, {| service := s';
           log := log st ++
                  [{| ev_call := {| call_prompt := p; call_model := m;
                                    call_max_tokens := max_tokens |};
                      ev_result := r |}] |}).

(** Lines 269-286: the loop over [enumerate(chunks)], from index [i], with
    the summaries accumulated so far.  The rendering of line 271 stands
    outside the [try]: when it raises, the loop ends there. *)
Fixpoint rolling_chunks (channel_name episode_title : str) (n i : Z)
  (chunks : list str) (partial_summaries : list json)
  : M (outcome (list json)) :=
  match chunks with
  | [] => ret (Returns partial_summaries)
  | chunk :: rest =>
      match _format_previous_context partial_summaries with
      | None => ret Raises
      | Some previous_context =>
          r <- attempt (ChunkPrompt (i + 1) n channel_name episode_title
                          previous_context chunk) ChunkModel 1000 ;;
          rolling_chunks channel_name episode_title n (i + 1) rest
            (match r with
             | Some summary => partial_summaries ++ [summary]
             | None => partial_summaries
             end)
      end
  end.

(** What a [try] block that returns the parsed value returns: the value, or
    [None] from its [except] clause. *)
Definition value_or_none (r : option json) : json :=
  match r with
  | Some v => v
  | None => JNone
  end.

(** [summarize_episode(channel_name, episode_title, transcript)].  The
    outer [option] is [None] only for a chunker that does not return; the
    rendering of line 294 stands outside the [try] too. *)
Definition summarize_episode (channel_name episode_title transcript : str)
  : option (M (outcome json)) :=
  match _chunk_transcript transcript with
  | None => None
  | Some chunks =>
      let n := Z.of_nat (length chunks) in
      Some
        (if n =? 1 then
           r <- attempt (SinglePassPrompt channel_name episode_title
                           transcript) SynthesisModel 1500 ;;
           ret (Returns (value_or_none r))
         else
           looped <- rolling_chunks channel_name episode_title n 0 chunks [] ;;
           match looped with
           | Raises => ret Raises
           | Returns [] => ret (Returns JNone)
           | Returns ((_ :: _) as partial_summaries) =>
               match _format_previous_context partial_summaries with
               | None => ret Raises
               | Some all_summaries =>
                   r <- attempt (SynthesisPrompt channel_name episode_title
                                   all_summaries) SynthesisModel 2000 ;;
                   ret (Returns (value_or_none r))
               end
           end)
  end.

(** What the log says: the requests of one tier, the summaries the
    requests yielded, and the chunk a request is about.  An entry is
    answered by the service when its result is the parsing of the response
    of the service, in some state, to its request. *)
Definition parsed (response : option str) : option json :=
  match response with
  | Some text => _extract_json text
  | None => None
  end.

Definition answered (e : event) : Prop :=
  exists s, ev_result e = parsed (snd (create s (ev_call e))).

Definition tier_calls (m : model) (evs : list event) : list event :=
  filter (fun e => model_eqb (call_model (ev_call e)) m) evs.

Definition successes (evs : list event) : list json :=
  flat_map (fun e => match ev_result e with
                     | Some d => [d]
                     | None => []
                     end) evs.

Definition chunk_of (e : event) : option (Z * str) :=
  match call_prompt (ev_call e) with
  | ChunkPrompt chunk_num _ _ _ _ chunk => Some (chunk_num, chunk)
  | _ => None
  end.

(** The positions [first + 1, first + 2, ...] paired with the chunks. *)
Fixpoint numbered (first : Z) (chunks : list str) : list (option (Z * str)) :=
  match chunks with
  | [] => []
  | chunk :: rest => Some (first + 1, chunk) :: numbered (first + 1) rest
  end.

End Engine.

Arguments JNone {number}.
Arguments JBool {number} b.
Arguments JNumber {number} n.
Arguments JStr {number} s.
Arguments JList {number} l.
Arguments JDict {number} items.
Arguments ev_call {number} _.
Arguments ev_result {number} _.
Arguments service {number Service} _.
Arguments log {number Service} _.
Arguments value_or_none {number} _.
Arguments tier_calls {number} _ _.
Arguments successes {number} _.
Arguments chunk_of {number} _.

End Summarizer.

(** ** The slot allocator of [scheduler.py] *)

Module Scheduler.
Import PyStr.

(** A datetime is a count of microseconds on the proleptic Gregorian
    calendar: for a datetime of the configured zone, its wall-clock reading.
    Two datetimes of the same zone compare by their wall-clock readings, and
    adding a [timedelta] adds to the wall-clock reading. *)
Definition MINUTE : Z := 60 * 1000000.
Definition HOUR : Z := 60 * MINUTE.
Definition DAY : Z := 24 * HOUR.

(** [dt.date()], as a day number. *)
Definition date (dt : Z) : Z := dt / DAY.

(** [datetime(d.year, d.month, d.day, hour, minute, tzinfo=tz)]; a
    [ValueError] for an hour or a minute out of range is [None]. *)
Definition datetime (day hour minute : Z) : option Z :=
  if (0 <=? hour) && (hour <? 24) && (0 <=? minute) && (minute <? 60)
  then Some (day * DAY + hour * HOUR + minute * MINUTE)
  else None.

(** [timedelta(minutes=m)] *)
Definition timedelta_minutes (m : Z) : Z := m * MINUTE.

(** A posting window ["HH:MM"], as the pair [map(int, w.split(":"))]. *)
Definition window : Type := (Z * Z)%type.

(** The configuration, with the keys [get_schedule_slots] reads; a key that
    is absent is [None]. *)
Record schedule_config : Type :=
  { timezone : option str; posting_windows : option (list window) }.

Definition default_windows : list window := [(9, 0); (12, 0); (17, 0); (19, 0)].

(** Line 24: [schedule_config.get("timezone", "America/New_York")]. *)
Definition configured_timezone (cfg : schedule_config) : str :=
  match timezone cfg with
  | Some tz_name => tz_name
  | None => lit "America/New_York"
  end.

(** Line 25: [schedule_config.get("posting_windows", [...])]. *)
Definition configured_windows (cfg : schedule_config) : list window :=
  match posting_windows cfg with
  | Some ws => ws
  | None => default_windows
  end.

Definition UTC : str := lit "UTC".

(** A zone, as [ZoneInfo] loads it: the UTC offset in force at a wall-clock
    reading of the zone, and the reading of the clock in the zone at the
    time of the call, [datetime.now(tz)]. *)
Record zone : Type := { utcoffset : Z -> Z; clock : Z }.

(** A window [datetime] accepts, and the minute of the day it names. *)
Definition valid_window (w : window) : Prop :=
  0 <= fst w < 24 /\ 0 <= snd w < 60.

Definition minute_of_day (w : window) : Z := fst w * 60 + snd w.

(** Windows in chronological order, and in chronological order without
    repeats. *)
Definition chronological (windows : list window) : Prop :=
  StronglySorted (fun a b => minute_of_day a <= minute_of_day b) windows.

Definition strictly_chronological (windows : list window) : Prop :=
  StronglySorted (fun a b => minute_of_day a < minute_of_day b) windows.

(** [range(count)] *)
Definition range (count : Z) : list Z := map Z.of_nat (seq 0 (Z.to_nat count)).

Section Zone.

(** The offsets of the zone [tz] and the reading [now_local] of its
    clock. *)
Variable utcoffset : Z -> Z.
Variable now_local : Z.

(** [dt.astimezone(utc)], the instant in UTC; [strftime] then prints it to
    the second. *)
Definition astimezone_utc (dt : Z) : Z := dt - utcoffset dt.

(** Lines 32-37: today's windows that are still to come. *)
Fixpoint future_windows (today : Z) (windows : list window)
  : option (list Z) :=
  match windows with
  | [] => Some []
  | (hour, minute) :: rest =>
      match datetime today hour minute with
      | None => None
      | Some dt =>
          match future_windows today rest with
          | None => None
          | Some window_dts =>
              Some (if now_local <? dt then dt :: window_dts else window_dts)
          end
      end
  end.

(** Lines 40-45: tomorrow's first window when none is left today;
    [windows[0]] of an empty list raises ([None]). *)
Definition working_set (today : Z) (windows : list window)
  (window_dts : list Z) : option (list Z) :=
  match window_dts with
  | _ :: _ => Some window_dts
  | [] =>
      let tomorrow := today + 1 in
      match windows with
      | [] => None
      | (hour, minute) :: _ =>
          match datetime tomorrow hour minute with
          | None => None
          | Some dt => Some [dt]
          end
      end
  end.

(** Lines 51-55: the wall-clock reading of the slot of index [i]. *)
Definition slot_window (window_dts : list Z) (i : Z) : Z :=
  let n := Z.of_nat (length window_dts) in
  let window := nth (Z.to_nat (i mod n)) window_dts 0 in
  let overflow := i / n in
  if 0 <? overflow then window + timedelta_minutes (overflow * 5)
  else window.

(** Lines 51-56: the slot of index [i]. *)
Definition slot (window_dts : list Z) (i : Z) : Z :=
  astimezone_utc (slot_window window_dts i).

(** Lines 31-45: the working set of window instants. *)
Definition window_instants (today : Z) (windows : list window)
  : option (list Z) :=
  match future_windows today windows with
  | None => None
  | Some window_dts => working_set today windows window_dts
  end.

End Zone.

Section Database.

(** [ZoneInfo(key)], over the time zone database of the system; a key the
    database does not hold raises ([None]). *)
Variable ZoneInfo : str -> option zone.

(** [get_schedule_slots(count, schedule_config)]; [None] when it raises. *)
Definition get_schedule_slots (count : Z) (cfg : schedule_config)
  : option (list Z) :=
  let tz_name := configured_timezone cfg in
  let windows := configured_windows cfg in
  match ZoneInfo tz_name with
  | None => None
  | Some tz =>
      let now_local := clock tz in
      let today := date now_local in
      match window_instants now_local today windows with
      | None => None
      | Some window_dts =>
          match ZoneInfo UTC with
          | None => None
          | Some utc =>
              Some (map (slot (utcoffset tz) window_dts) (range count))
          end
      end
  end.

End Database.

(** The wall-clock readings of the slots. *)
Definition slot_windows (window_dts : list Z) (count : Z) : list Z :=
  map (slot_window window_dts) (range count).

(** The UTC conversion keeps the order of the readings of a list: of two of
    them, the later reading is the later instant.  It is so when no change
    of the clock lies between the readings. *)
Definition keeps_order (utcoffset : Z -> Z) (readings : list Z) : Prop :=
  forall a b,
    In a readings -> In b readings -> a < b ->
    astimezone_utc utcoffset a < astimezone_utc utcoffset b.

(** The offsets of a zone whose clock skips from 02:00 to 03:00 of day 0,
    from five to four hours behind UTC, as that of [America/New_York] does in
    spring; a reading in the skipped hour takes the offset before the
    change. *)
Definition spring_forward (dt : Z) : Z :=
  if dt <? 3 * HOUR then -5 * HOUR else -4 * HOUR.

End Scheduler.

(** ** Sample inputs and equality tests *)

Module Samples.
Import PyStr.

(** The transcript of [n] letters [a], and the transcript of [n] words
    [ab], each followed by a space. *)
Definition letters (n : Z) : str := repeat 97%N (Z.to_nat n).

Definition words_ab (n : Z) : str :=
  concat (repeat [97%N; 98%N; SPACE] (Z.to_nat n)).

(** Equality tests on lists, strings and lists of strings. *)
Fixpoint list_eqb {A : Type} (eqb : A -> A -> bool) (l l' : list A) : bool :=
  match l, l' with
  | [], [] => true
  | x :: r, x' :: r' => eqb x x' && list_eqb eqb r r'
  | _, _ => false
  end.

Definition str_eqb : str -> str -> bool := list_eqb N.eqb.

Definition strs_eqb : list str -> list str -> bool := list_eqb str_eqb.

(** Whether an optional result is the value [v]. *)
Definition returns {A : Type} (eqb : A -> A -> bool) (o : option A) (v : A)
  : bool :=
  match o with
  | Some r => eqb r v
  | None => false
  end.

(** Services for the engine, with the count of requests as their state: one
    that raises on every second request, one that raises on every request,
    and one whose every response is the object with the number 5 under
    ["key_points"].  The numbers of the samples are integers. *)
Definition EMPTY_OBJECT : str := lit "{}".

Definition KEY_POINTS_5 : str :=
  lit "{" ++ Summarizer.QUOTE :: lit "key_points" ++ Summarizer.QUOTE
  :: lit ": 5}".

Definition flaky (s : nat) (c : Summarizer.call) : nat * option str :=
  (S s, if Nat.even s then Some EMPTY_OBJECT else None).

Definition down (s : nat) (c : Summarizer.call) : nat * option str :=
  (S s, None).

Definition misshapen (s : nat) (c : Summarizer.call) : nat * option str :=
  (S s, Some KEY_POINTS_5).

(** [_extract_json] on the texts the sample services answer with, and
    [str] on the numbers. *)
Definition parse_sample (text : str) : option (Summarizer.json Z) :=
  if eqb text EMPTY_OBJECT then Some (Summarizer.JDict [])
  else if eqb text KEY_POINTS_5
       then Some (Summarizer.JDict
                    [(Summarizer.KEY_POINTS, Summarizer.JNumber 5)])
       else None.

Definition repr_sample (v : Summarizer.json Z) : str :=
  match v with
  | Summarizer.JNumber n => str_of_int n
  | _ => []
  end.

Definition fresh : Summarizer.state Z nat :=
  {| Summarizer.service := O; Summarizer.log := [] |}.

(** [summarize_episode] over a sample service. *)
Definition summarize_sample (create : nat -> Summarizer.call -> nat * option str)
  (transcript : str)
  : option (Summarizer.M Z nat (Summarizer.outcome (Summarizer.json Z))) :=
  Summarizer.summarize_episode Z (Z.eqb 0) nat create parse_sample
    repr_sample [] [] transcript.

(** The outline of a run: the models requested, in order, with whether a
    summary came back, and whether the run returned a value other than
    [None], returned [None] or raised. *)
Definition outline {number Service : Type}
  (run : option (Summarizer.M number Service
                   (Summarizer.outcome (Summarizer.json number))))
  (st : Summarizer.state number Service)
  : option (list (Summarizer.model * bool) * Summarizer.outcome bool) :=
  match run with
  | None => None
  | Some m =>
      let (result, st') := m st in
      Some (map (fun e => (Summarizer.call_model (Summarizer.ev_call e),
                           match Summarizer.ev_result e with
                           | Some _ => true
                           | None => false
                           end)) (Summarizer.log st'),
            match result with
            | Summarizer.Returns Summarizer.JNone => Summarizer.Returns false
            | Summarizer.Returns _ => Summarizer.Returns true
            | Summarizer.Raises => Summarizer.Raises
            end)
  end.

(** A time zone database for the allocator at the instant [instant] of
    UTC: it holds [UTC] and [America/New_York], the latter on the day its
    clock skips from 02:00 to 03:00, which is 07:00 in UTC. *)
Definition utc_zone (dt : Z) : Z := 0.

Definition utc_at (instant : Z) : Scheduler.zone :=
  {| Scheduler.utcoffset := utc_zone; Scheduler.clock := instant |}.

Definition new_york_at (instant : Z) : Scheduler.zone :=
  {| Scheduler.utcoffset := Scheduler.spring_forward;
     Scheduler.clock :=
       if instant <? 7 * Scheduler.HOUR
       then instant - 5 * Scheduler.HOUR
       else instant - 4 * Scheduler.HOUR |}.

Definition tzdata (instant : Z) (key : str) : option Scheduler.zone :=
  if eqb key Scheduler.UTC then Some (utc_at instant)
  else if eqb key (lit "America/New_York") then Some (new_york_at instant)
       else None.

(** Configurations: the empty one, the default windows in UTC, the windows
    [ws] in UTC and in the default zone, and a zone the database does not
    hold. *)
Definition default_config : Scheduler.schedule_config :=
  {| Scheduler.timezone := None; Scheduler.posting_windows := None |}.

Definition utc_config : Scheduler.schedule_config :=
  {| Scheduler.timezone := Some Scheduler.UTC;
     Scheduler.posting_windows := None |}.

Definition config_of (ws : list Scheduler.window) : Scheduler.schedule_config :=
  {| Scheduler.timezone := Some Scheduler.UTC;
     Scheduler.posting_windows := Some ws |}.

Definition new_york_config (ws : list Scheduler.window)
  : Scheduler.schedule_config :=
  {| Scheduler.timezone := None; Scheduler.posting_windows := Some ws |}.

Definition unknown_zone_config : Scheduler.schedule_config :=
  {| Scheduler.timezone := Some (lit "Mars/Olympus");
     Scheduler.posting_windows := None |}.

End Samples.

(** ** More of Python's strings *)

Module PyText.
Import PyStr.

(** [s.startswith(prefix)] *)
Fixpoint startswith (s prefix : str) : bool :=
  match prefix, s with
  | [], _ => true
  | d :: prefix', c :: s' => (c =? d)%N && startswith s' prefix'
  | _ :: _, [] => false
  end.

(** [s.lstrip(chars)]: drop the leading characters that occur in [chars]. *)
Fixpoint lstrip_chars (chars s : str) : str :=
  match s with
  | [] => []
  | c :: s' => if existsb (N.eqb c) chars then lstrip_chars chars s' else s
  end.

(** [s in keys], for the keys of a dict or the elements of a list or set. *)
Definition mem (s : str) (keys : list str) : bool := existsb (eqb s) keys.

(** [sub in s]: whether [sub] occurs in [s]. *)
Fixpoint contains (s sub : str) : bool :=
  startswith s sub ||
  match s with
  | [] => false
  | _ :: s' => contains s' sub
  end.

(** [s.replace(old, new)] for a non-empty [old]: the occurrences of [old],
    found from the left and not overlapping, become [new].  [skip] counts the
    characters of an occurrence still to be dropped. *)
Fixpoint replace_from (skip : nat) (s old new : str) : str :=
  match s with
  | [] => []
  | c :: s' =>
      match skip with
      | S k => replace_from k s' old new
      | O =>
          if startswith s old
          then new ++ replace_from (length old - 1) s' old new
          else c :: replace_from O s' old new
      end
  end.

Definition replace (s old new : str) : str := replace_from O s old new.

(** [s < t]: the order of strings, by code points. *)
Fixpoint ltb (s t : str) : bool :=
  match s, t with
  | _, [] => false
  | [], _ :: _ => true
  | c :: s', d :: t' => (c <? d)%N || ((c =? d)%N && ltb s' t')
  end.

(** [sep.join(parts)] *)
Fixpoint join (sep : str) (parts : list str) : str :=
  match parts with
  | [] => []
  | [p] => p
  | p :: ps => p ++ sep ++ join sep ps
  end.

(** Truth value of an optional string: [None] and [""] are false. *)
Definition truthy_opt (s : option str) : bool :=
  match s with
  | Some (_ :: _) => true
  | _ => false
  end.

(** [d.get(key, "")] for a key that holds a string when it is present. *)
Definition get_or_empty (v : option str) : str :=
  match v with
  | Some s => s
  | None => []
  end.

End PyText.

(** ** The subreddit filter and the poster of [reddit_poster.py] *)

Module RedditPoster.
Import PyStr PyText.

(** An entry of the allow-list of [subreddits.yaml]: its ["name"], when the
    key is present, and the truth value of its ["promo_allowed"], when the key
    is present. *)
Record subreddit : Type :=
  { name : option str; promo_allowed : option bool }.

(** The configuration: under ["topic_tags"], when the key is present, the
    entries of each tag, in the order of the file. *)
Record subreddits_config : Type :=
  { topic_tags : option (list (str * list subreddit)) }.

Definition R_SLASH : str := lit "r/".

(** Line 42: the truth value of [sub.get("promo_allowed", True)]. *)
Definition promo (sub : subreddit) : bool :=
  match promo_allowed sub with
  | Some b => b
  | None => true
  end.

(** The entries of the configuration whose ["promo_allowed"] is absent or
    true, and the names of the entries of a list that have one. *)
Definition promoted (cfg : subreddits_config) : list subreddit :=
  filter promo
    (flat_map snd (match topic_tags cfg with Some t => t | None => [] end)).

Definition named (subs : list subreddit) : list str :=
  flat_map (fun sub => match name sub with
                       | Some n => [n]
                       | None => []
                       end) subs.

Section Lower.

(** [str.lower], of the Unicode tables of the interpreter. *)
Variable lower : str -> str.

(** [name.lower().lstrip("r/")] *)
Definition clean (name : str) : str := lstrip_chars R_SLASH (lower name).

(** Lines 41-44: the entries of one tag; a missing ["name"] raises
    ([None]).  [allowed] holds the keys of the dict. *)
Fixpoint allow_subs (tag_subs : list subreddit) (allowed : list str)
  : option (list str) :=
  match tag_subs with
  | [] => Some allowed
  | sub :: rest =>
      if promo sub then
        match name sub with
        | None => None
        | Some n => allow_subs rest (allowed ++ [clean n])
        end
      else allow_subs rest allowed
  end.

(** Lines 40-44: the loop over the values of ["topic_tags"]. *)
Fixpoint allow_tags (tags : list (str * list subreddit)) (allowed : list str)
  : option (list str) :=
  match tags with
  | [] => Some allowed
  | (_, tag_subs) :: rest =>
      match allow_subs tag_subs allowed with
      | None => None
      | Some allowed' => allow_tags rest allowed'
      end
  end.

(** Line 50: the name with its prefix. *)
Definition with_prefix (name : str) : str :=
  if startswith name R_SLASH then name else R_SLASH ++ name.

(** Lines 47-50: the loop over the suggested names. *)
Fixpoint select (allowed : list str) (cap : Z) (suggested result : list str)
  : list str :=
  match suggested with
  | [] => result
  | name :: rest =>
      select allowed cap rest
        (if mem (clean name) allowed && (Z.of_nat (length result) <? cap)
         then result ++ [with_prefix name]
         else result)
  end.

(** [_allowed_subreddits(suggested, subreddits_config, cap)] *)
Definition _allowed_subreddits (suggested : list str)
  (cfg : subreddits_config) (cap : Z) : option (list str) :=
  let tags := match topic_tags cfg with Some t => t | None => [] end in
  match allow_tags tags [] with
  | None => None
  | Some allowed => Some (select allowed cap suggested [])
  end.

(** The Reddit service: a submission moves it to a new state and returns the
    permalink of the post, or raises ([None]). *)
Variable Service : Type.
Variable submit : Service -> str -> str -> str -> Service * option str.

(** A submission, as [subreddit.submit] receives it. *)
Record submission : Type :=
  { to_subreddit : str; with_title : str; with_body : str }.

Record state : Type := { service : Service; submitted : list submission }.

Definition REDDIT_COM : str := lit "https://reddit.com".

(** Lines 73-86: the loop over the targets. *)
Fixpoint submit_all (title body : str) (targets urls : list str) (st : state)
  : list str * state :=
  match targets with
  | [] => (urls, st)
  | subreddit_name :: rest =>
      let clean := lstrip_chars R_SLASH subreddit_name in
      let (s', permalink) := submit (service st) clean title body in
      let st' := {| service := s';
                    submitted := submitted st ++
                                 [{| to_subreddit := clean; with_title := title;
                                     with_body := body |}] |} in
      submit_all title body rest
        (match permalink with
         | Some p => urls ++ [REDDIT_COM ++ p]
         | None => urls
         end) st'
  end.

(** [post_to_subreddits(title, body, suggested_subreddits,
    subreddits_config)]; [credentials] says whether the four variables
    [_get_reddit] reads are set, and the result is [None] when the function
    raises. *)
Definition post_to_subreddits (credentials : bool) (title body : str)
  (suggested_subreddits : list str) (cfg : subreddits_config) (st : state)
  : option (list str) * state :=
  if negb credentials then (None, st)
  else
    match _allowed_subreddits suggested_subreddits cfg 3 with
    | None => (None, st)
    | Some [] => (Some [], st)
    | Some targets =>
        let (urls, st') := submit_all title body targets [] st in
        (Some urls, st')
    end.

End Lower.

End RedditPoster.

(** ** The choice of a topic and an angle, [x-original-posts/src/generator.py] *)

Module Generator.
Import PyStr PyText.

(** An entry of [pillars.json] or of [angles.json]. *)
Record entry : Type := { id : str; label : str; description : str }.

(** A pair of identifiers, and membership in a set of pairs. *)
Definition combo : Type := (str * str)%type.

Definition combo_eqb (c d : combo) : bool :=
  eqb (fst c) (fst d) && eqb (snd c) (snd d).

Definition in_set (c : combo) (s : list combo) : bool :=
  existsb (combo_eqb c) s.

(** Lines 41-46 and 51-56: the pairs of a pillar and an angle whose
    identifiers are not in [avoid]. *)
Definition available_combos (pillars angles : list entry)
  (avoid : list combo) : list (entry * entry) :=
  flat_map (fun p =>
              map (pair p)
                (filter (fun a => negb (in_set (id p, id a) avoid)) angles))
    pillars.

Section Random.

(** The random generator: its draw below [n], for the one draw
    [random.choice] makes. *)
Variable randbelow : nat -> nat.

(** [random.choice(seq)]; an empty sequence raises ([None]). *)
Definition choice {A : Type} (seq : list A) : option A :=
  match seq with
  | [] => None
  | _ :: _ => nth_error seq (randbelow (length seq))
  end.

(** [pick_combo(recent_combos)], given the entries of the two files. *)
Definition pick_combo (pillars angles : list entry)
  (recent_combos : list combo) : option (entry * entry) :=
  let available := available_combos pillars angles recent_combos in
  let available :=
    match available with
    | [] => available_combos pillars angles (firstn 12 recent_combos)
    | _ :: _ => available
    end in
  choice available.

End Random.

End Generator.

(** ** The posters of [x_poster.py] and of [x-original-posts/src/poster.py] *)

Module Twitter.
Import PyStr PyText.

(** The arguments of one [create_tweet]. *)
Record tweet : Type :=
  { text : str;
    media_ids : option (list str);
    in_reply_to_tweet_id : option str }.

(** What a poster did, with what came back ([None] when the call raised, and
    for a download that gave no file): a tweet created and its identifier,
    the user name asked for, a file uploaded and its media identifier, a
    thumbnail downloaded and its path. *)
Inductive event : Type :=
| Created (t : tweet) (tweet_id : option str)
| AskedMe (username : option str)
| Uploaded (filename : str) (media_id : option str)
| Downloaded (video_id title : str) (path : option str).

Definition status_url (username tweet_id : str) : str :=
  lit "https://twitter.com/" ++ username ++ lit "/status/" ++ tweet_id.

Definition LINK : str := lit "[LINK]".

(** Line 62: the URL of the video, or the empty string without a
    [video_id]. *)
Definition youtube_url (video_id : option str) : str :=
  match video_id with
  | Some (c :: v) => lit "https://youtu.be/" ++ c :: v
  | _ => []
  end.

Section Client.

(** The world the posters act on: the X service and the file system. *)
Variable World : Type.
Variable create_tweet : World -> tweet -> World * option str.
Variable get_me : World -> World * option str.
Variable media_upload : World -> str -> World * option str.
Variable path_exists : World -> str -> bool.
Variable download_thumbnail : World -> str -> str -> World * option str.

Record state : Type := { world : World; events : list event }.

Definition do_create (t : tweet) (st : state) : option str * state :=
  let (w, r) := create_tweet (world st) t in
  (r, {| world := w; events := events st ++ [Created t r] |}).

Definition do_get_me (st : state) : option str * state :=
  let (w, r) := get_me (world st) in
  (r, {| world := w; events := events st ++ [AskedMe r] |}).

Definition do_upload (filename : str) (st : state) : option str * state :=
  let (w, r) := media_upload (world st) filename in
  (r, {| world := w; events := events st ++ [Uploaded filename r] |}).

Definition do_download (video_id title : str) (st : state)
  : option str * state :=
  let (w, r) := download_thumbnail (world st) video_id title in
  (r, {| world := w; events := events st ++ [Downloaded video_id title r] |}).

(** [post(tweet_text, reply_text)] of [x-original-posts]; [credentials] says
    whether the four variables [_get_client] reads are set, and the result is
    [None] when the function raises. *)
Definition post (credentials : bool) (tweet_text : str)
  (reply_text : option str) (st : state) : option str * state :=
  if negb credentials then (None, st)
  else
    match do_create {| text := tweet_text; media_ids := None;
                       in_reply_to_tweet_id := None |} st with
    | (None, st1) => (None, st1)
    | (Some tweet_id, st1) =>
        match do_get_me st1 with
        | (None, st2) => (None, st2)
        | (Some username, st2) =>
            let tweet_url := status_url username tweet_id in
            match reply_text with
            | Some (c :: r) =>
                match do_create {| text := c :: r; media_ids := None;
                                   in_reply_to_tweet_id := Some tweet_id |}
                        st2 with
                | (None, st3) => (None, st3)
                | (Some _, st3) => (Some tweet_url, st3)
                end
            | _ => (Some tweet_url, st2)
            end
        end
    end.

(** [_upload_media(image_path)]: no upload without a path or without the
    file; an upload that raises gives [None]. *)
Definition _upload_media (image_path : option str) (st : state)
  : option str * state :=
  match image_path with
  | Some (c :: p) =>
      if path_exists (world st) (c :: p) then do_upload (c :: p) st
      else (None, st)
  | _ => (None, st)
  end.

(** Lines 79-96 of [x_poster.py]: the loop over the tweets; [first] says
    whether the index is [0].  The result is [None] when a call raised. *)
Fixpoint thread_loop (first : bool) (media_id previous_tweet_id : option str)
  (first_tweet_url : option str) (tweets : list str) (st : state)
  : option (option str) * state :=
  match tweets with
  | [] => (Some first_tweet_url, st)
  | t :: rest =>
      let kwargs :=
        {| text := t;
           media_ids := if first && truthy_opt media_id
                        then option_map (fun m => [m]) media_id else None;
           in_reply_to_tweet_id := if truthy_opt previous_tweet_id
                                   then previous_tweet_id else None |} in
      match do_create kwargs st with
      | (None, st1) => (None, st1)
      | (Some tweet_id, st1) =>
          if first then
            match do_get_me st1 with
            | (None, st2) => (None, st2)
            | (Some username, st2) =>
                thread_loop false media_id (Some tweet_id)
                  (Some (status_url username tweet_id)) rest st2
            end
          else
            thread_loop false media_id (Some tweet_id) first_tweet_url rest st1
      end
  end.


(** Lines 67-71 of [x_poster.py]: the thumbnail is downloaded again when its
    file is missing. *)
Definition refresh_thumbnail (thumbnail_path video_id : option str)
  (st : state) : option str * state :=
  match thumbnail_path, video_id with
  | Some (c :: p), Some (d :: v) =>
      if negb (path_exists (world st) (c :: p)) then
        match do_download (d :: v) (d :: v) st with
        | (Some downloaded, st') => (Some downloaded, st')
        | (None, st') => (thumbnail_path, st')
        end
      else (thumbnail_path, st)
  | _, _ => (thumbnail_path, st)
  end.

(** [post_thread(tweets, thumbnail_path, video_id)] *)
Definition post_thread (credentials : bool) (tweets : list str)
  (thumbnail_path video_id : option str) (st : state)
  : option (option str) * state :=
  match tweets with
  | [] => (Some None, st)
  | _ :: _ =>
      let tweets :=
        map (fun t => replace t LINK (youtube_url video_id)) tweets in
      let (thumbnail_path, st) :=
        refresh_thumbnail thumbnail_path video_id st in
      if negb credentials then (None, st)
      else
        let (media_id, st) := _upload_media thumbnail_path st in
        thread_loop true media_id None None tweets st
  end.

End Client.

(** The tweets created, with their identifiers, among the events. *)
Definition created (evs : list event) : list (tweet * str) :=
  flat_map (fun e => match e with
                     | Created t (Some i) => [(t, i)]
                     | _ => []
                     end) evs.

(** A thread: the first tweet replies to [previous], when that is not empty,
    and every tweet after it to the tweet before it. *)
Fixpoint thread (previous : option str) (posted : list (tweet * str)) : Prop :=
  match posted with
  | [] => True
  | (t, i) :: rest =>
      in_reply_to_tweet_id t
      = (if truthy_opt previous then previous else None) /\
      thread (Some i) rest
  end.

End Twitter.

(** ** The playlist monitor of [youtube_monitor.py] *)

Module YoutubeMonitor.
Import PyStr PyText.

(** An exception, by its class: the [HttpError] of the API client, the
    [ValueError] of line 40, the [KeyError] of a response without a key the
    code indexes, the [TypeError] of a value of another type than the code
    takes it for, and an exception of any other class, as the transport
    failures of [execute()] are. *)
Inductive exn : Type :=
| HttpError
| KeyError
| ValueError
| TypeError
| OtherError.

Inductive result (A : Type) : Type :=
| Ok (a : A)
| Raise (e : exn).

Arguments Ok {A} a.
Arguments Raise {A} e.

(** What a response holds where the API documents a string: the string,
    nothing (the key is absent), or a value of another type ([null], a
    number, ...). *)
Inductive lookup : Type :=
| Found (s : str)
| Absent
| Mistyped.

(** The ["snippet"] of a playlist item.  [publishedAt] is the value of the
    key, which line 74 compares with a string; [videoId] is what is found
    at ["resourceId"]["videoId"], [Mistyped] when ["resourceId"] holds no
    object.  The title and the description are only stored: they are taken
    as the API documents them, strings, when the key is present.  An item
    holds its snippet, when it has the key. *)
Record snippet : Type :=
  { publishedAt : lookup;
    videoId : lookup;
    snippetTitle : option str;
    snippetDescription : option str }.

Definition item : Type := option snippet.

(** A page of [playlistItems().list]. *)
Record response : Type :=
  { items : option (list item); nextPageToken : option str }.

(** The dict the monitor builds for a video. *)
Record video : Type :=
  { video_id : str;
    channel_name : str;
    title : str;
    published_at : str;
    description : str }.

(** An entry of [channels.yaml]. *)
Record channel : Type :=
  { name : option str; playlist_id : option str; id : option str }.

(** The requests made, with what came back or the exception [execute()]
    raised: a page of a playlist, and the channels of an identifier, each
    with what is found at ["contentDetails"]["relatedPlaylists"]["uploads"]
    ([Mistyped] when a key on the way holds no object). *)
Inductive event : Type :=
| ListedItems (playlistId : str) (pageToken : option str)
    (page : result response)
| ListedChannels (channel_id : str) (found : result (list lookup)).

(** Lines 72-74: [snippet.get("publishedAt", "")], as the comparison of
    line 74 takes it; the comparison of a value that is no string with a
    string raises [TypeError]. *)
Definition published (sn : snippet) : result str :=
  match publishedAt sn with
  | Found s => Ok s
  | Absent => Ok []
  | Mistyped => Raise TypeError
  end.

(** Lines 72-74: whether the test of an item against the cutoff holds; an
    item without a snippet or with a date that is no string has no date to
    test. *)
Definition old (cutoff_iso : str) (it : item) : bool :=
  match it with
  | Some sn =>
      match published sn with
      | Ok published_at => ltb published_at cutoff_iso
      | Raise _ => false
      end
  | None => false
  end.

(** Lines 71-84: the dict of an item, or the exception of the first line
    that raises: line 71 for the snippet, line 74 for the date, line 77 for
    the video and line 81 for the title. *)
Definition video_of (channel_name : str) (it : item) : result video :=
  match it with
  | None => Raise KeyError
  | Some sn =>
      match published sn with
      | Raise e => Raise e
      | Ok published_at =>
          match videoId sn with
          | Absent => Raise KeyError
          | Mistyped => Raise TypeError
          | Found v =>
              match snippetTitle sn with
              | None => Raise KeyError
              | Some t =>
                  Ok {| video_id := v;
                        channel_name := channel_name;
                        title := t;
                        published_at := published_at;
                        description :=
                          get_or_empty (snippetDescription sn) |}
              end
          end
      end
  end.

(** How the loop over the items of a page ends: at the end of the page, at
    the [return] of line 75, or with an exception. *)
Inductive scan : Type :=
| Continue (videos : list video)
| Return (videos : list video)
| Raised (e : exn).

(** Lines 70-84: the loop over the items of a page. *)
Fixpoint scan_items (cutoff_iso channel_name : str) (page_items : list item)
  (videos : list video) : scan :=
  match page_items with
  | [] => Continue videos
  | it :: rest =>
      match it with
      | None => Raised KeyError
      | Some sn =>
          match published sn with
          | Raise e => Raised e
          | Ok published_at =>
              if ltb published_at cutoff_iso then Return videos
              else
                match video_of channel_name it with
                | Raise e => Raised e
                | Ok v =>
                    scan_items cutoff_iso channel_name rest (videos ++ [v])
                end
          end
      end
  end.

(** [response.get("items", [])] *)
Definition items_of (page : response) : list item :=
  match items page with
  | Some l => l
  | None => []
  end.

(** The items before the first one [p] holds of. *)
Fixpoint until {A : Type} (p : A -> bool) (l : list A) : list A :=
  match l with
  | [] => []
  | x :: l' => if p x then [] else x :: until p l'
  end.

Section Api.

(** The YouTube service: a request moves it to a new state, and returns
    the response or raises. *)
Variable Service : Type.
Variable playlistItems_list :
  Service -> str -> option str -> Service * result response.
Variable channels_list : Service -> str -> Service * result (list lookup).

Record state : Type := { service : Service; events : list event }.

Definition do_list_items (playlistId : str) (pageToken : option str)
  (st : state) : result response * state :=
  let (s, r) := playlistItems_list (service st) playlistId pageToken in
  (r, {| service := s;
         events := events st ++ [ListedItems playlistId pageToken r] |}).

Definition do_list_channels (channel_id : str) (st : state)
  : result (list lookup) * state :=
  let (s, r) := channels_list (service st) channel_id in
  (r, {| service := s; events := events st ++ [ListedChannels channel_id r] |}).

(** Lines 62-88: the [while True] loop, for at most [fuel] pages; without
    fuel left there is no result. *)
Fixpoint poll_loop (fuel : nat) (playlist_id channel_name cutoff_iso : str)
  (next_page_token : option str) (videos : list video) (st : state)
  : option (result (list video)) * state :=
  match fuel with
  | O => (None, st)
  | S fuel' =>
      match do_list_items playlist_id next_page_token st with
      | (Raise e, st1) => (Some (Raise e), st1)
      | (Ok page, st1) =>
          match scan_items cutoff_iso channel_name (items_of page) videos with
          | Raised e => (Some (Raise e), st1)
          | Return videos' => (Some (Ok videos'), st1)
          | Continue videos' =>
              if truthy_opt (nextPageToken page)
              then poll_loop fuel' playlist_id channel_name cutoff_iso
                     (nextPageToken page) videos' st1
              else (Some (Ok videos'), st1)
          end
      end
  end.

(** [_poll_playlist(youtube, playlist_id, channel_name, hours_back)];
    [cutoff_iso] is the text of the time [hours_back] hours before now. *)
Definition _poll_playlist (fuel : nat)
  (playlist_id channel_name cutoff_iso : str) (st : state)
  : option (result (list video)) * state :=
  poll_loop fuel playlist_id channel_name cutoff_iso None [] st.

(** [_get_uploads_playlist_id(youtube, channel_id)] *)
Definition _get_uploads_playlist_id (channel_id : str) (st : state)
  : result str * state :=
  match do_list_channels channel_id st with
  | (Raise e, st1) => (Raise e, st1)
  | (Ok [], st1) => (Raise ValueError, st1)
  | (Ok (Found uploads :: _), st1) => (Ok uploads, st1)
  | (Ok (Absent :: _), st1) => (Raise KeyError, st1)
  | (Ok (Mistyped :: _), st1) => (Raise TypeError, st1)
  end.

(** Lines 118-122: the [try] around [_poll_playlist]. *)
Definition poll_or_empty (fuel : nat) (playlist_id name cutoff_iso : str)
  (st : state) : option (result (list video)) * state :=
  match _poll_playlist fuel playlist_id name cutoff_iso st with
  | (Some (Raise HttpError), st1) => (Some (Ok []), st1)
  | r => r
  end.

(** [get_recent_videos(youtube, channel, hours_back)] *)
Definition get_recent_videos (fuel : nat) (ch : channel) (cutoff_iso : str)
  (st : state) : option (result (list video)) * state :=
  match name ch with
  | None => (Some (Raise KeyError), st)
  | Some name =>
      match playlist_id ch with
      | Some (c :: p) => poll_or_empty fuel (c :: p) name cutoff_iso st
      | _ =>
          match id ch with
          | Some (c :: channel_id) =>
              match _get_uploads_playlist_id (c :: channel_id) st with
              | (Ok playlist_id, st1) =>
                  poll_or_empty fuel playlist_id name cutoff_iso st1
              | (Raise ValueError, st1) | (Raise HttpError, st1) =>
                  (Some (Ok []), st1)
              | (Raise e, st1) => (Some (Raise e), st1)
              end
          | _ => (Some (Ok []), st)
          end
      end
  end.

End Api.

(** The page requests among the events. *)
Definition listed (evs : list event) : list (option str * result response) :=
  flat_map (fun e => match e with
                     | ListedItems _ token page => [(token, page)]
                     | ListedChannels _ _ => []
                     end) evs.

(** The event of a page request of [playlistId]. *)
Definition page_event (playlistId : str) (p : option str * result response)
  : event :=
  ListedItems playlistId (fst p) (snd p).

(** Whether a request came back, and whether an item gives a video. *)
Definition came_back {A : Type} (r : result A) : bool :=
  match r with
  | Ok _ => true
  | Raise _ => false
  end.

(** The last of the requests came back as [P] says. *)
Definition ends_with (pages : list (option str * result response))
  (P : result response -> Prop) : Prop :=
  exists front token page, pages = front ++ [(token, page)] /\ P page.

(** The items of the pages that came back. *)
Definition fetched (pages : list (option str * result response)) : list item :=
  flat_map (fun p => match snd p with
                     | Ok page => items_of page
                     | Raise _ => []
                     end) pages.

(** A page after which the loop goes on: it came back, none of its items is
    older than the cutoff, each has its keys, with a date that is a string,
    and it names a next page. *)
Definition goes_on (cutoff_iso channel_name : str) (page : result response)
  : Prop :=
  match page with
  | Ok p =>
      Forall (fun it => old cutoff_iso it = false /\
                        came_back (video_of channel_name it) = true)
        (items_of p) /\
      truthy_opt (nextPageToken p) = true
  | Raise _ => False
  end.

(** Requests that follow one another: the first asks for [token], and each
    later one for the token of the page before it, after which the loop goes
    on. *)
Fixpoint chained (cutoff_iso channel_name : str) (token : option str)
  (pages : list (option str * result response)) : Prop :=
  match pages with
  | [] => True
  | (t, page) :: rest =>
      t = token /\
      match rest with
      | [] => True
      | _ :: _ =>
          goes_on cutoff_iso channel_name page /\
          chained cutoff_iso channel_name
            (match page with Ok p => nextPageToken p | Raise _ => None end)
            rest
      end
  end.

End YoutubeMonitor.

(** ** The prompts of [post_generator.py] *)

Module Prompts.
Import PyStr PyText.

Definition OPEN : str := lit "{{".
Definition CLOSE : str := lit "}}".

(** [f"{{{{{key}}}}}"] *)
Definition placeholder (key : str) : str := OPEN ++ key ++ CLOSE.

(** [_fill(template, **kwargs)], with the keyword arguments in their order
    and their values as the strings [str(value)]. *)
Fixpoint _fill (template : str) (kwargs : list (str * str)) : str :=
  match kwargs with
  | [] => template
  | (key, value) :: rest => _fill (replace template (placeholder key) value) rest
  end.

(** The character [{]. *)
Definition BRACE : char := 123%N.

Definition brace_free (s : str) : bool :=
  forallb (fun c => negb (c =? BRACE)%N) s.

End Prompts.

(** ** The thumbnail download of [thumbnail_fetcher.py] *)

Module ThumbnailFetcher.
Import PyStr PyText.

Definition QUALITY_OPTIONS : list str :=
  [lit "maxresdefault"; lit "sddefault"; lit "hqdefault"; lit "mqdefault";
   lit "default"].

(** What [requests.get] returns: the status and the bytes of the body. *)
Record response : Type := { status_code : Z; content : list N }.

(** The requests made, with what came back ([None] for a
    [RequestException]), and the files written. *)
Inductive event : Type :=
| Got (url : str) (r : option response)
| Wrote (path : str) (bytes : list N).

(** Line 44 *)
Definition thumbnail_url (video_id quality : str) : str :=
  lit "https://img.youtube.com/vi/" ++ video_id ++ lit "/" ++ quality
  ++ lit ".jpg".

(** Line 49: a real thumbnail. *)
Definition acceptable (r : option response) : bool :=
  match r with
  | Some r => (status_code r =? 200) && (5000 <? Z.of_nat (length (content r)))
  | None => false
  end.

Section Download.

(** The world: the web and the file system.  [_sanitize] works by regular
    expressions over the Unicode tables, and [output_path] stands for the
    path [OUTPUT_DIR / f"{video_id}_{safe_name}.jpg"]; writing the file is
    taken to succeed. *)
Variable World : Type.
Variable _sanitize : str -> str.
Variable output_path : str -> str -> str.
Variable path_exists : World -> str -> bool.
Variable get : World -> str -> World * option response.
Variable write_bytes : World -> str -> list N -> World.

Record state : Type := { world : World; events : list event }.

Definition do_get (url : str) (st : state) : option response * state :=
  let (w, r) := get (world st) url in
  (r, {| world := w; events := events st ++ [Got url r] |}).

Definition do_write (path : str) (bytes : list N) (st : state) : state :=
  {| world := write_bytes (world st) path bytes;
     events := events st ++ [Wrote path bytes] |}.

(** Lines 43-54: the loop over the qualities. *)
Fixpoint try_qualities (video_id path : str) (qualities : list str)
  (st : state) : option str * state :=
  match qualities with
  | [] => (None, st)
  | quality :: rest =>
      match do_get (thumbnail_url video_id quality) st with
      | (Some r, st1) =>
          if acceptable (Some r)
          then (Some path, do_write path (content r) st1)
          else try_qualities video_id path rest st1
      | (None, st1) => try_qualities video_id path rest st1
      end
  end.

(** [download_thumbnail(video_id, title)] *)
Definition download_thumbnail (video_id title : str) (st : state)
  : option str * state :=
  let safe_name := _sanitize title in
  let path := output_path video_id safe_name in
  if path_exists (world st) path then (Some path, st)
  else try_qualities video_id path QUALITY_OPTIONS st.

End Download.

(** The event of a request with its answer. *)
Definition got_event (a : str * option response) : event :=
  Got (fst a) (snd a).

End ThumbnailFetcher.

(** ** The run of [x-original-posts/main.py] over its table *)

Module OriginalPosts.
Import PyStr PyText.

(** A row of [original_tweets]. *)
Record row : Type :=
  { id : Z;
    topic : str;
    angle : str;
    tweet_text : str;
    reply_text : option str;
    status : str;
    posted_at : option str;
    post_url : option str;
    error : option str;
    created_at : str }.

(** The table with the next value of the sequence of its [id]. *)
Record database : Type := { rows : list row; next_id : Z }.

(** What [generator.generate] returns. *)
Record generated : Type :=
  { g_topic : str; g_angle : str; g_tweet_text : str;
    g_reply_text : option str }.

Definition PENDING : str := lit "pending".
Definition POSTED : str := lit "posted".
Definition FAILED : str := lit "failed".

(** [save_tweet(topic, angle, tweet_text, reply_text)] at the time [now]:
    the new row takes the defaults of the table. *)
Definition save_tweet (g : generated) (now : str) (db : database)
  : Z * database :=
  (next_id db,
   {| rows := rows db ++
              [{| id := next_id db;
                  topic := g_topic g;
                  angle := g_angle g;
                  tweet_text := g_tweet_text g;
                  reply_text := g_reply_text g;
                  status := PENDING;
                  posted_at := None;
                  post_url := None;
                  error := None;
                  created_at := now |}];
      next_id := next_id db + 1 |}).

(** [update_status(tweet_id, status, post_url, error)] at the time [now]. *)
Definition update_status (tweet_id : Z) (new_status : str)
  (url err : option str) (now : str) (db : database) : database :=
  let at_ := if eqb new_status POSTED then Some now else None in
  {| rows := map (fun r =>
                    if id r =? tweet_id
                    then {| id := id r;
                            topic := topic r;
                            angle := angle r;
                            tweet_text := tweet_text r;
                            reply_text := reply_text r;
                            status := new_status;
                            posted_at := at_;
                            post_url := url;
                            error := err;
                            created_at := created_at r |}
                    else r) (rows db);
     next_id := next_id db |}.

(** How [run] ends: it returns, leaves through [sys.exit], or raises. *)
Inductive outcome : Type :=
| Returned
| Exited (code : Z)
| Raised.

Section Run.

(** The world: the X service, the model behind [generator.generate], the
    clock and the text of the exception last raised.  [get_recent_combos]
    reads the table in the order of the database. *)
Variable World : Type.
Variable create_tweet : World -> Twitter.tweet -> World * option str.
Variable get_me : World -> World * option str.
Variable generate : World -> list (str * str) -> World * option generated.
Variable get_recent_combos : list row -> Z -> list (str * str).
Variable utcnow : World -> str.
Variable error_text : World -> str.

Record state : Type := { x : Twitter.state World; db : database }.

Definition do_generate (recent_combos : list (str * str)) (st : state)
  : option generated * state :=
  let (w, r) := generate (Twitter.world World (x st)) recent_combos in
  (r, {| x := {| Twitter.world := w;
                 Twitter.events := Twitter.events World (x st) |};
         db := db st |}).

(** [run(dry_run)]; [credentials] says whether the variables of the X client
    are set. *)
Definition run (credentials dry_run : bool) (st : state) : outcome * state :=
  let recent_combos := get_recent_combos (rows (db st)) 30 in
  match do_generate recent_combos st with
  | (None, st1) => (Raised, st1)
  | (Some result, st1) =>
      if dry_run then (Returned, st1)
      else
        let (tweet_id, db1) :=
          save_tweet result (utcnow (Twitter.world World (x st1))) (db st1) in
        match Twitter.post World create_tweet get_me credentials
                (g_tweet_text result) (g_reply_text result) (x st1) with
        | (Some url, x2) =>
            (Returned,
             {| x := x2;
                db := update_status tweet_id POSTED (Some url) None
                        (utcnow (Twitter.world World x2)) db1 |})
        | (None, x2) =>
            (Exited 1,
             {| x := x2;
                db := update_status tweet_id FAILED None
                        (Some (error_text (Twitter.world World x2)))
                        (utcnow (Twitter.world World x2)) db1 |})
        end
  end.

End Run.

End OriginalPosts.

(** ** The posting run of [podcast-to-social/main.py] over its queue *)

Module PostQueue.
Import PyStr PyText.

(** The content of a post, parsed: the keys of the dict, each when it is
    present. *)
Record content : Type :=
  { tweets : option (list str);
    title : option str;
    body : option str;
    suggested_subreddits : option (list str) }.

(** A row of [posts], with its content parsed. *)
Record post : Type :=
  { id : Z;
    video_id : str;
    platform : str;
    parsed : content;
    thumbnail_path : option str;
    status : str;
    posted_at : option str;
    post_url : option str;
    error : option str }.

Definition X : str := lit "x".
Definition REDDIT : str := lit "reddit".
Definition APPROVED : str := lit "approved".
Definition POSTED : str := lit "posted".
Definition FAILED : str := lit "failed".
Definition COMMA : str := lit ",".

(** [update_post_status(post_id, status, post_url, error)] at the time
    [now], on the rows of the table. *)
Definition update_post_status (post_id : Z) (new_status : str)
  (url err : option str) (now : str) (table : list post) : list post :=
  let at_ := if eqb new_status POSTED then Some now else None in
  map (fun r =>
         if id r =? post_id
         then {| id := id r;
                 video_id := video_id r;
                 platform := platform r;
                 parsed := parsed r;
                 thumbnail_path := thumbnail_path r;
                 status := new_status;
                 posted_at := at_;
                 post_url := url;
                 error := err |}
         else r) table.

Section Posting.

(** The world: the X service with the file system and the clock, and the
    Reddit service; the requests to the database are taken to succeed. *)
Variable lower : str -> str.
Variable World : Type.
Variable create_tweet : World -> Twitter.tweet -> World * option str.
Variable get_me : World -> World * option str.
Variable media_upload : World -> str -> World * option str.
Variable path_exists : World -> str -> bool.
Variable download_thumbnail : World -> str -> str -> World * option str.
Variable utcnow : World -> str.
Variable Service : Type.
Variable submit : Service -> str -> str -> str -> Service * option str.

Record state : Type :=
  { x : Twitter.state World;
    reddit : RedditPoster.state Service;
    table : list post }.

(** The text of the exception last raised. *)
Variable error_text : state -> str.

Definition settle (post_id : Z) (new_status : str) (url err : option str)
  (st : state) : state :=
  {| x := x st;
     reddit := reddit st;
     table := update_post_status post_id new_status url err
                (utcnow (Twitter.world World (x st))) (table st) |}.

Definition fail (post_id : Z) (st : state) : state :=
  settle post_id FAILED None (Some (error_text st)) st.

(** Lines 206-238 of [main.py]: the body of the loop over the posts that are
    due.  [credentials] says whether the variables of the X client are set,
    [configured] what [reddit_poster.is_configured] returns. *)
Definition post_due (credentials configured : bool)
  (subreddits_cfg : RedditPoster.subreddits_config) (p : post) (st : state)
  : state :=
  if eqb (platform p) X then
    match tweets (parsed p) with
    | None => fail (id p) st
    | Some thread =>
        let (url, x') :=
          Twitter.post_thread World create_tweet get_me media_upload
            path_exists download_thumbnail credentials thread
            (thumbnail_path p) (Some (video_id p)) (x st) in
        let st' := {| x := x'; reddit := reddit st; table := table st |} in
        match url with
        | Some url => settle (id p) POSTED url None st'
        | None => fail (id p) st'
        end
    end
  else if eqb (platform p) REDDIT then
    if negb configured then st
    else
      match title (parsed p), body (parsed p) with
      | Some t, Some b =>
          let suggested :=
            match suggested_subreddits (parsed p) with
            | Some l => l
            | None => []
            end in
          let (urls, reddit') :=
            RedditPoster.post_to_subreddits lower Service submit true t b
              suggested subreddits_cfg (reddit st) in
          let st' := {| x := x st; reddit := reddit'; table := table st |} in
          match urls with
          | Some urls => settle (id p) POSTED (Some (join COMMA urls)) None st'
          | None => fail (id p) st'
          end
      | _, _ => fail (id p) st
      end
  else st.

(** [cmd_post()], given the rows [get_due_posts] returns. *)
Definition cmd_post (credentials configured : bool)
  (subreddits_cfg : RedditPoster.subreddits_config) (due : list post)
  (st : state) : state :=
  fold_left (fun st p => post_due credentials configured subreddits_cfg p st)
    due st.

End Posting.

(** A row that is no longer waiting: it is posted or failed. *)
Definition settled (r : post) : Prop := status r = POSTED \/ status r = FAILED.

End PostQueue.

(** ** Sample inputs for the modules above *)

Module Cases.
Import PyStr PyText.

(** [str.lower] on the strings of ASCII characters. *)
Definition lower_ascii (s : str) : str :=
  map (fun c => if (65 <=? c)%N && (c <=? 90)%N then (c + 32)%N else c) s.

(** An allow-list with one entry that may be promoted, one that may not and
    one without the key. *)
Definition allow_list : RedditPoster.subreddits_config :=
  {| RedditPoster.topic_tags :=
       Some [(lit "philosophy",
              [{| RedditPoster.name := Some (lit "r/Stoicism");
                  RedditPoster.promo_allowed := Some true |};
               {| RedditPoster.name := Some (lit "r/philosophy");
                  RedditPoster.promo_allowed := Some false |}]);
             (lit "habits",
              [{| RedditPoster.name := Some (lit "getdisciplined");
                  RedditPoster.promo_allowed := None |}])] |}.

(** A Reddit service that accepts every submission, and one that refuses
    every submission. *)
Definition accepting (s : nat) (subreddit title body : str)
  : nat * option str :=
  (S s, Some (lit "/r/" ++ subreddit)).

Definition refusing (s : nat) (subreddit title body : str)
  : nat * option str :=
  (S s, None).

(** Names a model suggested, and the state of a service before its first
    request. *)
Definition suggestions : list str :=
  [lit "Stoicism"; lit "r/philosophy"; lit "getdisciplined"; lit "r/books"].

Definition reddit_start : RedditPoster.state nat :=
  {| RedditPoster.service := O; RedditPoster.submitted := [] |}.

(** An allow-list with the one entry [r/rust]. *)
Definition rust_only : RedditPoster.subreddits_config :=
  {| RedditPoster.topic_tags :=
       Some [(lit "code",
              [{| RedditPoster.name := Some (lit "r/rust");
                  RedditPoster.promo_allowed := Some true |}])] |}.

(** Two pillars and two angles, the generator that always draws [0], one
    recent pair, and the four pairs in the order of their use, last first. *)
Definition entry_of (i : str) : Generator.entry :=
  {| Generator.id := i; Generator.label := i; Generator.description := [] |}.

Definition pillars : list Generator.entry :=
  [entry_of (lit "stoicism"); entry_of (lit "focus")].

Definition angles : list Generator.entry :=
  [entry_of (lit "story"); entry_of (lit "question")].

Definition draw_first (n : nat) : nat := O.

Definition one_recent : list Generator.combo :=
  [(lit "stoicism", lit "story")].

Definition all_recent : list Generator.combo :=
  [(lit "focus", lit "question"); (lit "focus", lit "story");
   (lit "stoicism", lit "question"); (lit "stoicism", lit "story")].

(** An X service, with the count of its tweets as its state: every tweet is
    created, under the identifier [t0], [t1], ...; the user is [host]; the
    files exist and are uploaded as [m1].  And a service that creates one
    tweet and refuses the next. *)
Definition tw_create (w : nat) (t : Twitter.tweet) : nat * option str :=
  (S w, Some (lit "t" ++ [(48 + N.of_nat w)%N])).

Definition tw_create_once (w : nat) (t : Twitter.tweet) : nat * option str :=
  (S w, match w with O => Some (lit "t0") | S _ => None end).

Definition tw_me (w : nat) : nat * option str := (w, Some (lit "host")).

Definition tw_upload (w : nat) (filename : str) : nat * option str :=
  (w, Some (lit "m1")).

Definition tw_exists (w : nat) (path : str) : bool := true.

Definition tw_download (w : nat) (video_id title : str) : nat * option str :=
  (w, None).

Definition tw_start : Twitter.state nat :=
  {| Twitter.world := O; Twitter.events := [] |}.

(** A playlist of two pages, newest first, whose second page holds an item
    older than the cutoff; a service that answers with these pages, one
    whose second page fails with an [HttpError], one whose connection
    fails, and one whose only item has [null] for its date. *)
Definition item_at (date video : string) : YoutubeMonitor.item :=
  Some {| YoutubeMonitor.publishedAt := YoutubeMonitor.Found (lit date);
          YoutubeMonitor.videoId := YoutubeMonitor.Found (lit video);
          YoutubeMonitor.snippetTitle := Some (lit video);
          YoutubeMonitor.snippetDescription := None |}.

Definition undated_item : YoutubeMonitor.item :=
  Some {| YoutubeMonitor.publishedAt := YoutubeMonitor.Mistyped;
          YoutubeMonitor.videoId := YoutubeMonitor.Found (lit "a");
          YoutubeMonitor.snippetTitle := Some (lit "a");
          YoutubeMonitor.snippetDescription := None |}.

Definition undated_page : YoutubeMonitor.response :=
  {| YoutubeMonitor.items := Some [undated_item];
     YoutubeMonitor.nextPageToken := None |}.

Definition first_page : YoutubeMonitor.response :=
  {| YoutubeMonitor.items :=
       Some [item_at "2024-05-03T10:00:00Z" "a";
             item_at "2024-05-02T18:30:00Z" "b"];
     YoutubeMonitor.nextPageToken := Some (lit "p2") |}.

Definition second_page : YoutubeMonitor.response :=
  {| YoutubeMonitor.items :=
       Some [item_at "2024-05-02T09:00:00Z" "c";
             item_at "2024-04-30T12:00:00Z" "d";
             item_at "2024-05-02T08:00:00Z" "e"];
     YoutubeMonitor.nextPageToken := Some (lit "p3") |}.

Definition cutoff : str := lit "2024-05-02T00:00:00Z".

Definition yt_pages (s : nat) (playlistId : str) (pageToken : option str)
  : nat * YoutubeMonitor.result YoutubeMonitor.response :=
  (S s, match pageToken with
        | None => YoutubeMonitor.Ok first_page
        | Some _ => YoutubeMonitor.Ok second_page
        end).

Definition yt_failing (s : nat) (playlistId : str) (pageToken : option str)
  : nat * YoutubeMonitor.result YoutubeMonitor.response :=
  (S s, match pageToken with
        | None => YoutubeMonitor.Ok first_page
        | Some _ => YoutubeMonitor.Raise YoutubeMonitor.HttpError
        end).

Definition yt_offline (s : nat) (playlistId : str) (pageToken : option str)
  : nat * YoutubeMonitor.result YoutubeMonitor.response :=
  (S s, YoutubeMonitor.Raise YoutubeMonitor.OtherError).

Definition yt_undated (s : nat) (playlistId : str) (pageToken : option str)
  : nat * YoutubeMonitor.result YoutubeMonitor.response :=
  (S s, YoutubeMonitor.Ok undated_page).

Definition yt_channels (s : nat) (channel_id : str)
  : nat * YoutubeMonitor.result (list YoutubeMonitor.lookup) :=
  (S s, YoutubeMonitor.Ok [YoutubeMonitor.Found (lit "UU1")]).

Definition yt_start : YoutubeMonitor.state nat :=
  {| YoutubeMonitor.service := O; YoutubeMonitor.events := [] |}.

(** Entries of [channels.yaml]: one with the identifier of a channel, one
    without a name. *)
Definition with_id : YoutubeMonitor.channel :=
  {| YoutubeMonitor.name := Some (lit "Show");
     YoutubeMonitor.playlist_id := None;
     YoutubeMonitor.id := Some (lit "UC1") |}.

Definition nameless : YoutubeMonitor.channel :=
  {| YoutubeMonitor.name := None;
     YoutubeMonitor.playlist_id := Some (lit "PL1");
     YoutubeMonitor.id := None |}.

(** A web, with the count of its requests as its state, that has no
    thumbnail of the first quality, fails at the second and serves one of
    5001 bytes from the third on; a web that serves a placeholder of 1000
    bytes for every quality; a file system without the file and one with it.
    The titles are of letters, which [_sanitize] keeps. *)
Definition body (size : Z) : list N := repeat 0%N (Z.to_nat size).

Definition th_get (w : nat) (url : str)
  : nat * option ThumbnailFetcher.response :=
  (S w, match w with
        | O => Some {| ThumbnailFetcher.status_code := 404;
                       ThumbnailFetcher.content := [] |}
        | S O => None
        | _ => Some {| ThumbnailFetcher.status_code := 200;
                       ThumbnailFetcher.content := body 5001 |}
        end).

Definition th_placeholder (w : nat) (url : str)
  : nat * option ThumbnailFetcher.response :=
  (S w, Some {| ThumbnailFetcher.status_code := 200;
                ThumbnailFetcher.content := body 1000 |}).

Definition th_sanitize (name : str) : str := name.

Definition th_path (video_id safe_name : str) : str :=
  lit "output/thumbnails/" ++ video_id ++ lit "_" ++ safe_name ++ lit ".jpg".

Definition th_missing (w : nat) (path : str) : bool := false.

Definition th_write (w : nat) (path : str) (bytes : list N) : nat := w.

Definition th_start : ThumbnailFetcher.state nat :=
  {| ThumbnailFetcher.world := O; ThumbnailFetcher.events := [] |}.

(** A table with one row, a model that writes a tweet and a reply, a clock
    and the text of an exception. *)
Definition one_row : OriginalPosts.database :=
  {| OriginalPosts.rows :=
       [{| OriginalPosts.id := 1;
           OriginalPosts.topic := lit "focus";
           OriginalPosts.angle := lit "story";
           OriginalPosts.tweet_text := lit "Earlier.";
           OriginalPosts.reply_text := None;
           OriginalPosts.status := OriginalPosts.POSTED;
           OriginalPosts.posted_at := Some (lit "2024-05-01T09:00:00");
           OriginalPosts.post_url := Some (lit "https://twitter.com/host/status/1");
           OriginalPosts.error := None;
           OriginalPosts.created_at := lit "2024-05-01T09:00:00" |}];
     OriginalPosts.next_id := 2 |}.

Definition op_result : OriginalPosts.generated :=
  {| OriginalPosts.g_topic := lit "stoicism";
     OriginalPosts.g_angle := lit "question";
     OriginalPosts.g_tweet_text := lit "What is in your power?";
     OriginalPosts.g_reply_text := Some (lit "Only your own acts.") |}.

Definition op_generate (w : nat) (recent_combos : list (str * str))
  : nat * option OriginalPosts.generated :=
  (w, Some op_result).

Definition op_recent (table : list OriginalPosts.row) (limit : Z)
  : list (str * str) :=
  map (fun r => (OriginalPosts.topic r, OriginalPosts.angle r)) table.

Definition op_utcnow (w : nat) : str := lit "2024-05-02T10:00:00".

Definition op_error_text (w : nat) : str := lit "403 Forbidden".

Definition op_start : OriginalPosts.state nat :=
  {| OriginalPosts.x := tw_start; OriginalPosts.db := one_row |}.

(** A queue of approved posts: a thread, a Reddit post, and a post for a
    platform the run does not know. *)
Definition queued (i : Z) (on : str) : PostQueue.post :=
  {| PostQueue.id := i;
     PostQueue.video_id := lit "abc";
     PostQueue.platform := on;
     PostQueue.parsed :=
       {| PostQueue.tweets := Some [lit "One."; lit "Two."];
          PostQueue.title := Some (lit "On habits");
          PostQueue.body := Some (lit "A summary.");
          PostQueue.suggested_subreddits := Some suggestions |};
     PostQueue.thumbnail_path := None;
     PostQueue.status := PostQueue.APPROVED;
     PostQueue.posted_at := None;
     PostQueue.post_url := None;
     PostQueue.error := None |}.

Definition queue : list PostQueue.post :=
  [queued 1 PostQueue.X; queued 2 PostQueue.REDDIT; queued 3 (lit "threads")].

Definition pq_start : PostQueue.state nat nat :=
  {| PostQueue.x := tw_start;
     PostQueue.reddit := reddit_start;
     PostQueue.table := queue |}.

Definition pq_error_text (st : PostQueue.state nat nat) : str :=
  lit "403 Forbidden".

End Cases.

(** * Properties *)

(** ** Strings *)

Section StringFacts.
Import PyStr.

Lemma len_nonneg (s : str) : 0 <= len s.
Proof. unfold len. lia. Qed.

Lemma len_app (s t : str) : len (s ++ t) = len s + len t.
Proof. unfold len. rewrite length_app. lia. Qed.

Lemma adjust_index_inside (k n : Z) : 0 <= k <= n -> adjust_index k n = k.
Proof.
  intros H. unfold adjust_index.
  destruct (k <? 0) eqn:E; [apply Z.ltb_lt in E; lia | lia].
Qed.

Lemma slice_split (s : str) (k : Z) : slice_to s k ++ slice_from s k = s.
Proof. unfold slice_to, slice_from. apply firstn_skipn. Qed.

Lemma len_slice_to (s : str) (k : Z) : 0 <= k <= len s -> len (slice_to s k) = k.
Proof.
  intros H. unfold slice_to. rewrite adjust_index_inside by assumption.
  unfold len in *. rewrite length_firstn. lia.
Qed.

Lemma len_slice_from (s : str) (k : Z) :
  0 <= k <= len s -> len (slice_from s k) = len s - k.
Proof.
  intros H. unfold slice_from. rewrite adjust_index_inside by assumption.
  unfold len in *. rewrite length_skipn. lia.
Qed.

Lemma len_lstrip (s : str) : len (lstrip s) <= len s.
Proof.
  unfold len. induction s as [|c s IH]; simpl; [lia|].
  destruct (isspace c); simpl; lia.
Qed.

Lemma isspace_SPACE : isspace SPACE = true.
Proof. reflexivity. Qed.

(** The scan returns the match it started with or an index it visited, in
    range, that holds the needle. *)
Lemma rfind_scan_sound (s : str) (c : char) :
  forall i lo hi found,
    let r := rfind_scan s c i lo hi found in
    r = found \/
    (lo <= r < hi /\ i <= r < i + len s /\ nth (Z.to_nat (r - i)) s 0%N = c).
Proof.
  induction s as [|x s IH]; intros i lo hi found; simpl; [now left|].
  specialize (IH (i + 1) lo hi
                (if (lo <=? i) && (i <? hi) && (x =? c)%N then i else found)).
  simpl in IH. unfold len in *. simpl length.
  destruct IH as [IH | (Hr & Hi & Hn)].
  - rewrite IH.
    destruct ((lo <=? i) && (i <? hi) && (x =? c)%N) eqn:E; [|now left].
    right. apply andb_prop in E as [E Ec]. apply andb_prop in E as [E1 E2].
    apply Z.leb_le in E1. apply Z.ltb_lt in E2. apply N.eqb_eq in Ec.
    repeat split; try lia. now rewrite Z.sub_diag.
  - right. repeat split; try lia.
    replace (Z.to_nat (rfind_scan s c (i + 1) lo hi
               (if (lo <=? i) && (i <? hi) && (x =? c)%N then i else found) - i))
      with (S (Z.to_nat (rfind_scan s c (i + 1) lo hi
               (if (lo <=? i) && (i <? hi) && (x =? c)%N then i else found)
               - (i + 1)))) by lia.
    exact Hn.
Qed.

(** The scan does not miss a match: its result is at or after every index
    in range that holds the needle. *)
Lemma rfind_scan_complete (s : str) (c : char) :
  forall i lo hi found j,
    i <= j < i + len s -> lo <= j < hi ->
    nth (Z.to_nat (j - i)) s 0%N = c ->
    j <= rfind_scan s c i lo hi found.
Proof.
  induction s as [|x s IH]; intros i lo hi found j Hj Hr Hn.
  - unfold len in Hj. simpl in Hj. lia.
  - simpl. unfold len in *. simpl length in Hj.
    destruct (Z.eq_dec j i) as [->|Hne].
    + rewrite Z.sub_diag in Hn. simpl in Hn. subst x.
      replace ((lo <=? i) && (i <? hi) && (c =? c)%N) with true.
      * pose proof (rfind_scan_sound s c (i + 1) lo hi i) as H.
        simpl in H. unfold len in H. lia.
      * symmetry. rewrite N.eqb_refl.
        destruct (Z.leb_spec lo i), (Z.ltb_spec i hi); simpl; try reflexivity; lia.
    + apply IH; try lia.
      replace (Z.to_nat (j - i)) with (S (Z.to_nat (j - (i + 1)))) in Hn by lia.
      exact Hn.
Qed.

(** Words. *)
Lemma split_lstrip (s : str) : split (lstrip s) = split s.
Proof.
  induction s as [|c s IH]; [reflexivity|].
  simpl lstrip. destruct (isspace c) eqn:E; [|reflexivity].
  rewrite IH. simpl. now rewrite E.
Qed.

Lemma split_nonempty (c : char) (s : str) :
  isspace c = false -> split (c :: s) <> [].
Proof.
  intros E. simpl. rewrite E.
  destruct (at_boundary s); [discriminate|].
  destruct (split s); discriminate.
Qed.

(** A string that is cut in front of a whitespace character (or at its
    end) has the words of its two parts. *)
Lemma split_app (s t : str) :
  at_boundary t = true -> split (s ++ t) = split s ++ split t.
Proof.
  intros Ht. induction s as [|c s IH]; [reflexivity|].
  change ((c :: s) ++ t) with (c :: (s ++ t)).
  simpl split. destruct (isspace c) eqn:E; [exact IH|].
  destruct s as [|d s].
  - simpl app. rewrite Ht. reflexivity.
  - change (at_boundary ((d :: s) ++ t)) with (at_boundary (d :: s)).
    destruct (at_boundary (d :: s)) eqn:B.
    + rewrite IH. reflexivity.
    + rewrite IH.
      destruct (split (d :: s)) as [|w ws] eqn:W.
      * exfalso. simpl in B. revert W. now apply split_nonempty.
      * reflexivity.
Qed.

Lemma split_join_space (parts : list str) :
  split (join_space parts) = concat (map split parts).
Proof.
  induction parts as [|p ps IH]; [reflexivity|].
  destruct ps as [|q ps].
  - simpl. now rewrite app_nil_r.
  - change (join_space (p :: q :: ps)) with (p ++ SPACE :: join_space (q :: ps)).
    rewrite split_app by reflexivity.
    change (split (SPACE :: join_space (q :: ps)))
      with (split (join_space (q :: ps))).
    rewrite IH. reflexivity.
Qed.

End StringFacts.

(** ** The chunker *)

Section ChunkerFacts.
Import PyStr Chunker.

Lemma chunk_loop_eq (fuel : nat) (chunks : list str) (remaining : str) :
  chunk_loop fuel chunks remaining =
  if CHUNK_SIZE <? len remaining then
    match fuel with
    | O => None
    | S fuel' =>
        chunk_loop fuel'
          (chunks ++ [slice_to remaining (split_point remaining)])
          (next_remaining remaining)
    end
  else Some (chunks, remaining).
Proof. destruct fuel; reflexivity. Qed.

(** The search window of one iteration, after index normalisation. *)
Lemma window_start (remaining : str) :
  CHUNK_SIZE < len remaining ->
  adjust_index (CHUNK_SIZE - 300) (len remaining) = CHUNK_SIZE - 300.
Proof. intros H. apply adjust_index_inside. unfold CHUNK_SIZE in *. lia. Qed.

Lemma window_stop (remaining : str) :
  adjust_index (CHUNK_SIZE + 300) (len remaining) =
  Z.min (CHUNK_SIZE + 300) (len remaining).
Proof.
  unfold adjust_index.
  destruct (Z.ltb_spec (CHUNK_SIZE + 300) 0) as [H|H]; [|reflexivity].
  unfold CHUNK_SIZE in H. lia.
Qed.

(** What [rfind] returns on the window of one iteration. *)
Lemma rfind_window (remaining : str) :
  CHUNK_SIZE < len remaining ->
  let r := rfind remaining SPACE (CHUNK_SIZE - 300) (CHUNK_SIZE + 300) in
  r = -1 \/
  (CHUNK_SIZE - 300 <= r < CHUNK_SIZE + 300 /\ r < len remaining /\
   nth (Z.to_nat r) remaining 0%N = SPACE).
Proof.
  intros Hlen r. subst r. unfold rfind.
  rewrite window_start by assumption. rewrite window_stop.
  pose proof (rfind_scan_sound remaining SPACE 0 (CHUNK_SIZE - 300)
                (Z.min (CHUNK_SIZE + 300) (len remaining)) (-1)) as H.
  cbv zeta in H. destruct H as [H | (Hr & Hi & Hn)]; [now left|].
  right. rewrite Z.sub_0_r in Hn. repeat split; lia.
Qed.

Lemma rfind_window_found (remaining : str) (j : Z) :
  CHUNK_SIZE < len remaining ->
  CHUNK_SIZE - 300 <= j < CHUNK_SIZE + 300 -> j < len remaining ->
  nth (Z.to_nat j) remaining 0%N = SPACE ->
  j <= rfind remaining SPACE (CHUNK_SIZE - 300) (CHUNK_SIZE + 300).
Proof.
  intros Hlen Hj Hjl Hn. unfold rfind.
  rewrite window_start by assumption. rewrite window_stop.
  apply rfind_scan_complete.
  - unfold CHUNK_SIZE in *. lia.
  - lia.
  - now rewrite Z.sub_0_r.
Qed.

Lemma split_point_bounds (remaining : str) :
  CHUNK_SIZE < len remaining ->
  CHUNK_SIZE - 300 <= split_point remaining < CHUNK_SIZE + 300 /\
  split_point remaining <= len remaining.
Proof.
  intros Hlen. unfold split_point.
  destruct (rfind_window remaining Hlen) as [H | (Hr & Hl & _)].
  - rewrite H. simpl. unfold CHUNK_SIZE in *. lia.
  - destruct (Z.eqb_spec (rfind remaining SPACE (CHUNK_SIZE - 300)
                            (CHUNK_SIZE + 300)) (-1)) as [E|E];
      unfold CHUNK_SIZE in *; lia.
Qed.

Lemma len_chunk (remaining : str) :
  CHUNK_SIZE < len remaining ->
  len (slice_to remaining (split_point remaining)) = split_point remaining.
Proof.
  intros Hlen. destruct (split_point_bounds remaining Hlen) as [Hb Hl].
  apply len_slice_to. unfold CHUNK_SIZE in *. lia.
Qed.

(** One iteration takes at least [CHUNK_SIZE - 300] characters off the
    remaining text. *)
Lemma next_remaining_shrinks (remaining : str) :
  CHUNK_SIZE < len remaining ->
  len (next_remaining remaining) + (CHUNK_SIZE - 300) <= len remaining.
Proof.
  intros Hlen. destruct (split_point_bounds remaining Hlen) as [Hb Hl].
  unfold next_remaining.
  pose proof (len_lstrip (slice_from remaining (split_point remaining))) as H.
  rewrite len_slice_from in H by (unfold CHUNK_SIZE in *; lia). lia.
Qed.

(** With enough fuel the loop exits, along a run of [loop_run]. *)
Lemma chunk_loop_run (fuel : nat) :
  forall chunks remaining,
    len remaining <= CHUNK_SIZE + Z.of_nat fuel * (CHUNK_SIZE - 300) ->
    exists new final,
      chunk_loop fuel chunks remaining = Some (chunks ++ new, final) /\
      loop_run remaining new final.
Proof.
  induction fuel as [|fuel IH]; intros chunks remaining Hb;
    rewrite chunk_loop_eq; destruct (Z.ltb_spec CHUNK_SIZE (len remaining)) as [Hlt|Hge].
  - simpl in Hb. lia.
  - exists [], remaining. rewrite app_nil_r. split; [reflexivity|now constructor].
  - pose proof (next_remaining_shrinks remaining Hlt) as Hs.
    destruct (IH (chunks ++ [slice_to remaining (split_point remaining)])
                (next_remaining remaining)) as (new & final & E & R).
    { unfold CHUNK_SIZE in *. lia. }
    exists (slice_to remaining (split_point remaining) :: new), final.
    split; [|now constructor].
    rewrite E. now rewrite <- app_assoc.
  - exists [], remaining. rewrite app_nil_r. split; [reflexivity|now constructor].
Qed.

Lemma fuel_of_length (s : str) :
  len s <= CHUNK_SIZE + Z.of_nat (length s) * (CHUNK_SIZE - 300).
Proof. unfold len, CHUNK_SIZE. lia. Qed.

(** The two cases of [_chunk_transcript]. *)
Lemma chunk_transcript_short (transcript : str) :
  len transcript <= CHUNK_SIZE -> _chunk_transcript transcript = Some [transcript].
Proof.
  intros H. unfold _chunk_transcript.
  destruct (Z.leb_spec (len transcript) CHUNK_SIZE); [reflexivity|lia].
Qed.

Lemma chunk_transcript_long (transcript : str) :
  CHUNK_SIZE < len transcript ->
  exists chunks final,
    loop_run transcript chunks final /\
    chunk_loop (length transcript) [] transcript = Some (chunks, final) /\
    _chunk_transcript transcript =
    Some (if truthy final then chunks ++ [final] else chunks).
Proof.
  intros H. unfold _chunk_transcript.
  destruct (Z.leb_spec (len transcript) CHUNK_SIZE); [lia|].
  destruct (chunk_loop_run (length transcript) [] transcript
              (fuel_of_length transcript)) as (new & final & E & R).
  simpl in E. rewrite E. now exists new, final.
Qed.

(** Facts by induction on the runs of the loop. *)
Lemma loop_run_final (remaining : str) (chunks : list str) (final : str) :
  loop_run remaining chunks final -> len final <= CHUNK_SIZE.
Proof. induction 1; assumption. Qed.

Lemma loop_run_chunks (remaining : str) (chunks : list str) (final : str) :
  loop_run remaining chunks final ->
  Forall (fun c => CHUNK_SIZE - 300 <= len c < CHUNK_SIZE + 300) chunks.
Proof.
  induction 1 as [|remaining chunks final Hlen R IH]; constructor; [|exact IH].
  rewrite len_chunk by assumption. now apply split_point_bounds.
Qed.

Lemma loop_run_consumed (remaining : str) (chunks : list str) (final : str) :
  loop_run remaining chunks final ->
  len final + Z.of_nat (length chunks) * (CHUNK_SIZE - 300) <= len remaining.
Proof.
  induction 1 as [|remaining chunks final Hlen R IH]; [simpl; lia|].
  pose proof (next_remaining_shrinks remaining Hlen).
  simpl length. unfold CHUNK_SIZE in *. lia.
Qed.

Lemma loop_run_deterministic (remaining : str) (chunks : list str) (final : str) :
  loop_run remaining chunks final ->
  forall chunks' final',
    loop_run remaining chunks' final' -> chunks' = chunks /\ final' = final.
Proof.
  induction 1 as [remaining Hle|remaining chunks final Hlen R IH];
    intros chunks' final' R'; inversion R'; subst; try lia.
  - now split.
  - destruct (IH _ _ H0) as [-> ->]. now split.
Qed.

Lemma splits_at_spaces_eq (fuel : nat) (remaining : str) :
  splits_at_spaces fuel remaining =
  if CHUNK_SIZE <? len remaining then
    match fuel with
    | O => false
    | S fuel' =>
        negb (rfind remaining SPACE (CHUNK_SIZE - 300) (CHUNK_SIZE + 300) =? -1)
        && splits_at_spaces fuel' (next_remaining remaining)
    end
  else true.
Proof. destruct fuel; reflexivity. Qed.

Lemma boundary_at_space (s : str) :
  forall n, (n < length s)%nat -> nth n s 0%N = SPACE ->
            at_boundary (skipn n s) = true.
Proof.
  induction s as [|c s IH]; intros n Hn Hc; simpl in Hn; [lia|].
  destruct n as [|n]; simpl in *.
  - subst c. reflexivity.
  - apply IH; [lia | exact Hc].
Qed.

(** A run whose splits all fall on spaces keeps the words of the text. *)
Lemma loop_run_words (remaining : str) (chunks : list str) (final : str) :
  loop_run remaining chunks final ->
  forall fuel,
    splits_at_spaces fuel remaining = true ->
    split remaining = concat (map split chunks) ++ split final.
Proof.
  induction 1 as [|remaining chunks final Hlen R IH]; intros fuel Hs;
    [reflexivity|].
  rewrite splits_at_spaces_eq in Hs.
  destruct (Z.ltb_spec CHUNK_SIZE (len remaining)) as [_|]; [|lia].
  destruct fuel as [|fuel]; [discriminate|].
  apply andb_prop in Hs as [Hf Hs].
  apply negb_true_iff in Hf. apply Z.eqb_neq in Hf.
  destruct (rfind_window remaining Hlen) as [E | (Hr & Hl & Hn)]; [contradiction|].
  assert (Esp : split_point remaining
                = rfind remaining SPACE (CHUNK_SIZE - 300) (CHUNK_SIZE + 300)).
  { unfold split_point. cbv zeta.
    destruct (Z.eqb_spec (rfind remaining SPACE (CHUNK_SIZE - 300)
                            (CHUNK_SIZE + 300)) (-1)); [contradiction|reflexivity]. }
  simpl map. simpl concat. rewrite <- app_assoc. rewrite <- (IH fuel Hs).
  unfold next_remaining. rewrite split_lstrip.
  rewrite <- split_app.
  - now rewrite slice_split.
  - unfold slice_from. rewrite Esp.
    rewrite adjust_index_inside by (unfold CHUNK_SIZE in *; lia).
    apply boundary_at_space; [unfold len, CHUNK_SIZE in *; lia | exact Hn].
Qed.

(** The chunks of a transcript whose splits all fall on spaces. *)
Lemma chunk_transcript_words (transcript : str) :
  CHUNK_SIZE < len transcript ->
  splits_at_spaces (length transcript) transcript = true ->
  exists chunks,
    _chunk_transcript transcript = Some chunks /\
    split (join_space chunks) = split transcript.
Proof.
  intros Hl Hs.
  destruct (chunk_transcript_long transcript Hl) as (cut & final & R & _ & E).
  exists (if truthy final then cut ++ [final] else cut).
  split; [exact E|].
  rewrite split_join_space. rewrite (loop_run_words _ _ _ R _ Hs).
  destruct final as [|x final]; simpl truthy; cbv iota.
  - simpl split. now rewrite app_nil_r.
  - rewrite map_app, concat_app. simpl concat. now rewrite app_nil_r.
Qed.

(** Spaced texts: the property passes to the suffixes of a text, and a
    spaced text of more than 300 characters has a space among its first
    301. *)
Lemma spaced_tail (c : char) (s : str) : spaced (c :: s) -> spaced s.
Proof.
  intros (cur & Hc & H). simpl in H.
  destruct (c =? SPACE)%N; [now exists 300%nat|].
  destruct cur as [|cur]; [discriminate|]. exists cur. split; [lia|exact H].
Qed.

Lemma spaced_skipn (n : nat) : forall s, spaced s -> spaced (skipn n s).
Proof.
  induction n as [|n IH]; intros [|c s] H; simpl; try exact H.
  apply IH. now apply spaced_tail in H.
Qed.

Lemma spaced_lstrip (s : str) : spaced s -> spaced (lstrip s).
Proof.
  induction s as [|c s IH]; intros H; simpl; [exact H|].
  destruct (isspace c); [|exact H]. apply IH. now apply spaced_tail in H.
Qed.

Lemma runs_within_space (limit : nat) (s : str) :
  forall cur,
    runs_within limit cur s = true -> (cur < length s)%nat ->
    exists j, (j <= cur)%nat /\ nth j s 0%N = SPACE.
Proof.
  induction s as [|c s IH]; intros cur H Hlen; simpl in Hlen; [lia|].
  simpl in H. destruct (N.eqb_spec c SPACE) as [->|_].
  - exists O. split; [lia|reflexivity].
  - destruct cur as [|cur]; [discriminate|].
    destruct (IH cur H) as (j & Hj & Hn); [lia|].
    exists (S j). split; [lia|exact Hn].
Qed.

Lemma spaced_window (remaining : str) :
  spaced remaining -> CHUNK_SIZE < len remaining ->
  rfind remaining SPACE (CHUNK_SIZE - 300) (CHUNK_SIZE + 300) <> -1.
Proof.
  intros Hs Hlen.
  destruct (spaced_skipn (Z.to_nat (CHUNK_SIZE - 300)) remaining Hs)
    as (cur & Hc & H).
  destruct (runs_within_space 300 _ cur H) as (j & Hj & Hn).
  { rewrite length_skipn. unfold len, CHUNK_SIZE in *. lia. }
  rewrite nth_skipn in Hn.
  pose proof (rfind_window_found remaining
                (Z.of_nat (Z.to_nat (CHUNK_SIZE - 300) + j)) Hlen) as Hf.
  rewrite Nat2Z.id in Hf. unfold len, CHUNK_SIZE in *.
  specialize (Hf ltac:(lia) ltac:(lia) Hn). lia.
Qed.

Lemma spaced_splits (fuel : nat) :
  forall remaining,
    spaced remaining ->
    len remaining <= CHUNK_SIZE + Z.of_nat fuel * (CHUNK_SIZE - 300) ->
    splits_at_spaces fuel remaining = true.
Proof.
  induction fuel as [|fuel IH]; intros remaining Hs Hb;
    rewrite splits_at_spaces_eq;
    destruct (Z.ltb_spec CHUNK_SIZE (len remaining)) as [Hlt|Hge];
    try reflexivity.
  - simpl in Hb. lia.
  - apply andb_true_intro. split.
    + apply negb_true_iff, Z.eqb_neq. now apply spaced_window.
    + apply IH.
      * unfold next_remaining. apply spaced_lstrip.
        unfold slice_from. now apply spaced_skipn.
      * pose proof (next_remaining_shrinks remaining Hlt).
        unfold CHUNK_SIZE in *. lia.
Qed.

End ChunkerFacts.

(** ** Results by evaluation *)

Section Evaluation.
Import PyStr Samples.

Lemma list_eqb_eq {A : Type} (eqb : A -> A -> bool) :
  (forall a b, eqb a b = true -> a = b) ->
  forall l l', list_eqb eqb l l' = true -> l = l'.
Proof.
  intros Hs. induction l as [|x l IH]; intros [|x' l'] H; simpl in H;
    try discriminate; [reflexivity|].
  apply andb_prop in H as [H1 H2]. f_equal; [now apply Hs | now apply IH].
Qed.

Lemma str_eqb_eq (s t : str) : str_eqb s t = true -> s = t.
Proof. apply list_eqb_eq. intros a b H. now apply N.eqb_eq. Qed.

Lemma strs_eqb_eq (l l' : list str) : strs_eqb l l' = true -> l = l'.
Proof. apply list_eqb_eq. exact str_eqb_eq. Qed.

Lemma returns_chunks (o : option (list str)) (v : list str) :
  returns strs_eqb o v = true -> o = Some v.
Proof.
  destruct o as [r|]; simpl; [|discriminate].
  intros H. f_equal. now apply strs_eqb_eq.
Qed.

Lemma returns_state (o : option (list str * str)) (v : list str * str) :
  returns (fun a b => strs_eqb (fst a) (fst b) && str_eqb (snd a) (snd b)) o v
  = true ->
  o = Some v.
Proof.
  destruct o as [[c r]|]; simpl; [|discriminate]. destruct v as [c' r']. simpl.
  intros H. apply andb_prop in H as [H1 H2].
  apply strs_eqb_eq in H1. apply str_eqb_eq in H2. now subst.
Qed.

End Evaluation.

(** ** The chunker: the claims *)

Section ChunkerClaims.
Import PyStr Chunker Samples.

(** C7. A transcript of at most [CHUNK_SIZE] characters comes back as
    exactly one chunk, the transcript itself. *)
Theorem short_transcript_one_chunk (transcript : str) :
  len transcript <= CHUNK_SIZE ->
  _chunk_transcript transcript = Some [transcript].
Proof. exact (chunk_transcript_short transcript). Qed.

Lemma short_transcript_one_chunk_witness :
  len (letters 40000) <= CHUNK_SIZE /\
  _chunk_transcript (letters 40000) = Some [letters 40000].
Proof.
  assert (H : len (letters 40000) <= CHUNK_SIZE)
    by (apply Z.leb_le; vm_compute; reflexivity).
  split; [exact H | exact (short_transcript_one_chunk (letters 40000) H)].
Defined.

(** C5, as stated, fails on the empty transcript: its only chunk is the
    empty string. *)
Lemma empty_transcript_empty_chunk :
  exists chunks, _chunk_transcript [] = Some chunks /\ In [] chunks.
Proof. exists [[]]. split; [reflexivity | now left]. Qed.

(** C5, amended.  The chunker returns, and every chunk of a non-empty
    transcript is a non-empty string; the empty transcript comes back as the
    single chunk [""]. *)
Theorem chunks_nonempty (transcript : str) :
  exists chunks,
    _chunk_transcript transcript = Some chunks /\
    (transcript <> [] -> Forall (fun c => c <> []) chunks) /\
    (transcript = [] -> chunks = [[]]).
Proof.
  destruct (Z.le_gt_cases (len transcript) CHUNK_SIZE) as [Hs|Hl].
  - exists [transcript]. split; [now apply chunk_transcript_short|].
    split; [intros Hne; now repeat constructor | now intros ->].
  - destruct (chunk_transcript_long transcript Hl) as (chunks & final & R & _ & E).
    exists (if truthy final then chunks ++ [final] else chunks).
    split; [exact E|]. split.
    + intros _.
      assert (Hc : Forall (fun c : str => c <> []) chunks).
      { eapply Forall_impl; [|exact (loop_run_chunks _ _ _ R)].
        intros c Hc ->. unfold len, CHUNK_SIZE in Hc. simpl in Hc. lia. }
      destruct final as [|x final]; simpl; [exact Hc|].
      apply Forall_app. split; [exact Hc|]. now repeat constructor.
    + intros ->. unfold len, CHUNK_SIZE in Hl. simpl in Hl. lia.
Qed.

Lemma chunks_nonempty_witness :
  exists chunks,
    _chunk_transcript (words_ab 14000) = Some chunks /\
    Forall (fun c => c <> []) chunks.
Proof.
  destruct (chunks_nonempty (words_ab 14000)) as (chunks & E & H & _).
  exists chunks. split; [exact E|]. apply H.
  intros C. apply (f_equal len) in C. vm_compute in C. discriminate.
Defined.

(** C10, as stated, fails on a transcript that ends in the space of its
    only split: the remainder is empty and is dropped, and the last chunk is
    the one the loop cut, longer than [CHUNK_SIZE]. *)
Lemma last_chunk_over_target :
  _chunk_transcript (letters 40100 ++ [SPACE]) = Some [letters 40100] /\
  CHUNK_SIZE < len (last [letters 40100] []).
Proof.
  split.
  - apply returns_chunks. vm_compute. reflexivity.
  - apply Z.ltb_lt. vm_compute. reflexivity.
Qed.

(** C10, amended.  The chunker returns, and every chunk has at most
    [CHUNK_SIZE + 300] characters.  A transcript within [CHUNK_SIZE] is its
    own chunk; otherwise the chunks are those the loop cut, each of
    [CHUNK_SIZE - 300] to [CHUNK_SIZE + 299] characters, followed by the
    final remainder, of at most [CHUNK_SIZE] characters, when it is not
    empty.  A chunk the loop cuts ends at the index of a space inside the
    window, or at [CHUNK_SIZE] exactly when the window has no space. *)
Theorem chunk_lengths (transcript : str) :
  exists chunks,
    _chunk_transcript transcript = Some chunks /\
    Forall (fun c => len c <= CHUNK_SIZE + 300) chunks /\
    ((len transcript <= CHUNK_SIZE /\ chunks = [transcript]) \/
     (exists cut final,
         loop_run transcript cut final /\
         chunks = cut ++ (if truthy final then [final] else []) /\
         Forall (fun c => CHUNK_SIZE - 300 <= len c < CHUNK_SIZE + 300) cut /\
         len final <= CHUNK_SIZE)) /\
    (forall remaining,
        CHUNK_SIZE < len remaining ->
        let c := slice_to remaining (split_point remaining) in
        (CHUNK_SIZE - 300 <= len c < CHUNK_SIZE + 300 /\
         len c < len remaining /\
         nth (Z.to_nat (len c)) remaining 0%N = SPACE) \/
        (len c = CHUNK_SIZE /\
         forall j, CHUNK_SIZE - 300 <= j < CHUNK_SIZE + 300 ->
                   j < len remaining ->
                   nth (Z.to_nat j) remaining 0%N <> SPACE)).
Proof.
  assert (Hcut : forall remaining,
             CHUNK_SIZE < len remaining ->
             let c := slice_to remaining (split_point remaining) in
             (CHUNK_SIZE - 300 <= len c < CHUNK_SIZE + 300 /\
              len c < len remaining /\
              nth (Z.to_nat (len c)) remaining 0%N = SPACE) \/
             (len c = CHUNK_SIZE /\
              forall j, CHUNK_SIZE - 300 <= j < CHUNK_SIZE + 300 ->
                        j < len remaining ->
                        nth (Z.to_nat j) remaining 0%N <> SPACE)).
  { intros remaining Hlen c. subst c. rewrite len_chunk by assumption.
    unfold split_point. cbv zeta.
    destruct (rfind_window remaining Hlen) as [E | (Hr & Hl & Hn)].
    - right. rewrite E. simpl. split; [reflexivity|].
      intros j Hj Hjl Hc.
      pose proof (rfind_window_found remaining j Hlen Hj Hjl Hc) as H.
      unfold CHUNK_SIZE in *. lia.
    - left.
      destruct (Z.eqb_spec (rfind remaining SPACE (CHUNK_SIZE - 300)
                              (CHUNK_SIZE + 300)) (-1)) as [E|_];
        [unfold CHUNK_SIZE in *; lia|].
      repeat split; lia. }
  destruct (Z.le_gt_cases (len transcript) CHUNK_SIZE) as [Hs|Hl].
  - exists [transcript]. split; [now apply chunk_transcript_short|].
    split; [repeat constructor; lia|]. split; [now left | exact Hcut].
  - destruct (chunk_transcript_long transcript Hl) as (cut & final & R & _ & E).
    pose proof (loop_run_chunks _ _ _ R) as Hc.
    pose proof (loop_run_final _ _ _ R) as Hf.
    exists (cut ++ (if truthy final then [final] else [])).
    split; [|split; [|split; [|exact Hcut]]].
    + rewrite E. destruct (truthy final); [reflexivity | now rewrite app_nil_r].
    + apply Forall_app. split.
      * eapply Forall_impl; [|exact Hc]. intros c H. cbv beta in H. lia.
      * destruct (truthy final); repeat constructor. lia.
    + right. exists cut, final. repeat split; assumption.
Qed.

(** C9, as stated, fails on a transcript that ends in the space of its only
    split: the loop exits with an empty remainder, which is no chunk of the
    result. *)
Lemma empty_remainder_dropped :
  chunk_loop (length (letters 40000 ++ [SPACE])) [] (letters 40000 ++ [SPACE])
  = Some ([letters 40000], []) /\
  _chunk_transcript (letters 40000 ++ [SPACE]) = Some [letters 40000] /\
  last [letters 40000] [] <> [].
Proof.
  split; [|split].
  - apply returns_state. vm_compute. reflexivity.
  - apply returns_chunks. vm_compute. reflexivity.
  - intros C. apply (f_equal len) in C. vm_compute in C. discriminate.
Qed.

(** C9, amended.  The splitting loop terminates on every transcript: an
    iteration takes at least [CHUNK_SIZE - 300] characters off the remaining
    text, so the loop exits within any fuel that covers the transcript at
    that rate, and within the fuel [_chunk_transcript] gives it; it exits
    with a remainder of at most [CHUNK_SIZE] characters; and for a
    transcript over [CHUNK_SIZE] the remainder becomes the last chunk when
    it is not empty, and is dropped when it is. *)
Theorem chunk_loop_terminates (transcript : str) :
  (forall remaining,
      CHUNK_SIZE < len remaining ->
      len (next_remaining remaining) + (CHUNK_SIZE - 300) <= len remaining) /\
  exists chunks final,
    (forall fuel,
        len transcript <= CHUNK_SIZE + Z.of_nat fuel * (CHUNK_SIZE - 300) ->
        chunk_loop fuel [] transcript = Some (chunks, final)) /\
    chunk_loop (length transcript) [] transcript = Some (chunks, final) /\
    len final <= CHUNK_SIZE /\
    len final + Z.of_nat (length chunks) * (CHUNK_SIZE - 300)
    <= len transcript /\
    (CHUNK_SIZE < len transcript ->
     _chunk_transcript transcript =
     Some (if truthy final then chunks ++ [final] else chunks)).
Proof.
  split; [exact next_remaining_shrinks|].
  destruct (chunk_loop_run (length transcript) [] transcript
              (fuel_of_length transcript)) as (chunks & final & E & R).
  simpl in E. exists chunks, final. repeat split.
  - intros fuel Hf.
    destruct (chunk_loop_run fuel [] transcript Hf) as (chunks' & final' & E' & R').
    simpl in E'. rewrite E'.
    destruct (loop_run_deterministic _ _ _ R _ _ R') as [-> ->]. reflexivity.
  - exact E.
  - exact (loop_run_final _ _ _ R).
  - exact (loop_run_consumed _ _ _ R).
  - intros Hl.
    destruct (chunk_transcript_long transcript Hl) as (chunks' & final' & _ & E' & Et).
    rewrite E in E'. injection E' as <- <-. exact Et.
Qed.

(** C3, as stated, fails on a transcript of 40001 letters and no space: the
    transcript is one word, and its two chunks joined by a space are two. *)
Lemma split_inside_word :
  CHUNK_SIZE < len (letters 40001) /\
  _chunk_transcript (letters 40001) = Some [letters 40000; letters 1] /\
  split (join_space [letters 40000; letters 1]) <> split (letters 40001).
Proof.
  split; [|split].
  - apply Z.ltb_lt. vm_compute. reflexivity.
  - apply returns_chunks. vm_compute. reflexivity.
  - intros C. apply (f_equal (fun l => Z.of_nat (length l))) in C.
    vm_compute in C. discriminate.
Qed.

(** C3, amended.  For a transcript over [CHUNK_SIZE] whose splits are all
    found at a space of their window (none falls back to the boundary), the
    chunker returns, and the chunks joined by single spaces have the words
    of the transcript, in order. *)
Theorem chunks_keep_words (transcript : str) :
  CHUNK_SIZE < len transcript ->
  splits_at_spaces (length transcript) transcript = true ->
  exists chunks,
    _chunk_transcript transcript = Some chunks /\
    split (join_space chunks) = split transcript.
Proof. exact (chunk_transcript_words transcript). Qed.

Lemma chunks_keep_words_witness :
  exists chunks,
    _chunk_transcript (words_ab 14000) = Some chunks /\
    split (join_space chunks) = split (words_ab 14000).
Proof.
  apply (chunks_keep_words (words_ab 14000)).
  - apply Z.ltb_lt. vm_compute. reflexivity.
  - vm_compute. reflexivity.
Defined.

(** The condition of C3, amended, holds of every transcript that has a space
    in every 301 consecutive characters: no word, and no run of other
    whitespace, is longer than 300 characters. *)
Corollary spaced_chunks_keep_words (transcript : str) :
  CHUNK_SIZE < len transcript ->
  runs_within 300 300 transcript = true ->
  exists chunks,
    _chunk_transcript transcript = Some chunks /\
    split (join_space chunks) = split transcript.
Proof.
  intros Hl Hr. apply chunk_transcript_words; [exact Hl|].
  apply spaced_splits; [|apply fuel_of_length].
  exists 300%nat. split; [lia|exact Hr].
Qed.

End ChunkerClaims.

(** ** The summarisation engine *)

Section EngineFacts.
Import PyStr Chunker Summarizer.

Variable number : Type.
Variable is_zero : number -> bool.
Variable Service : Type.
Variable create : Service -> call -> Service * option str.
Variable _extract_json : str -> option (json number).
Variable repr : json number -> str.

Local Abbreviation _format_previous_context :=
  (_format_previous_context number is_zero repr).
Local Abbreviation attempt := (attempt number Service create _extract_json).
Local Abbreviation rolling_chunks :=
  (rolling_chunks number is_zero Service create _extract_json repr).
Local Abbreviation summarize_episode :=
  (summarize_episode number is_zero Service create _extract_json repr).
Local Abbreviation answered := (answered number Service create _extract_json).

(** One attempt is one request, logged with what it yielded. *)
Lemma attempt_log (p : prompt) (m : model) (max_tokens : Z)
  (st : state number Service) :
  log (snd (attempt p m max_tokens st)) =
  log st ++ [{| ev_call := {| call_prompt := p; call_model := m;
                              call_max_tokens := max_tokens |};
                ev_result := fst (attempt p m max_tokens st) |}].
Proof.
  unfold Summarizer.attempt, _call.
  destruct (create (service st) _) as [s' response]. reflexivity.
Qed.

Lemma attempt_answered (p : prompt) (m : model) (max_tokens : Z)
  (st : state number Service) :
  answered {| ev_call := {| call_prompt := p; call_model := m;
                            call_max_tokens := max_tokens |};
              ev_result := fst (attempt p m max_tokens st) |}.
Proof.
  exists (service st). unfold Summarizer.attempt, _call.
  cbn [ev_call ev_result].
  destruct (create (service st) _) as [s' response]. reflexivity.
Qed.

Lemma tier_calls_app (m : model) (evs evs' : list (event number)) :
  tier_calls m (evs ++ evs') = tier_calls m evs ++ tier_calls m evs'.
Proof. apply filter_app. Qed.

Lemma tier_calls_same (m : model) (evs : list (event number)) :
  Forall (fun e => call_model (ev_call e) = m) evs -> tier_calls m evs = evs.
Proof.
  induction 1 as [|e evs He _ IH]; [reflexivity|].
  simpl. rewrite He. destruct m; simpl; now rewrite IH.
Qed.

Lemma tier_calls_other (m m' : model) (evs : list (event number)) :
  m <> m' ->
  Forall (fun e => call_model (ev_call e) = m) evs -> tier_calls m' evs = [].
Proof.
  intros Hne. induction 1 as [|e evs He _ IH]; [reflexivity|].
  simpl. rewrite He. destruct m, m'; simpl; try exact IH; congruence.
Qed.

Lemma successes_none (evs : list (event number)) :
  Forall (fun e => ev_result e = None) evs -> successes evs = [].
Proof.
  induction 1 as [|e evs He _ IH]; [reflexivity|].
  simpl. rewrite He. exact IH.
Qed.

(** The rendering of no summary is the empty string: lines 173-174. *)
Lemma format_no_context : _format_previous_context [] = Some [].
Proof. reflexivity. Qed.

(** The loop over the chunks makes one request per chunk, in order, all to
    the chunk model, and accumulates the summaries that came back, until
    the rendering of the summaries accumulated so far raises. *)
Lemma rolling_chunks_log (channel_name episode_title : str) (n : Z)
  (chunks : list str) :
  forall (i : Z) (partial_summaries : list (json number))
         (st : state number Service),
  exists evs,
    log (snd (rolling_chunks channel_name episode_title n i chunks
                partial_summaries st)) = log st ++ evs /\
    Forall (fun e => call_model (ev_call e) = ChunkModel) evs /\
    Forall answered evs /\
    map chunk_of evs = numbered i (firstn (length evs) chunks) /\
    match fst (rolling_chunks channel_name episode_title n i chunks
                 partial_summaries st) with
    | Returns summaries =>
        summaries = partial_summaries ++ successes evs /\
        length evs = length chunks
    | Raises =>
        (length evs < length chunks)%nat /\
        _format_previous_context (partial_summaries ++ successes evs) = None
    end.
Proof.
  induction chunks as [|chunk rest IH]; intros i partial_summaries st.
  - exists []. cbn [Summarizer.rolling_chunks ret fst snd].
    rewrite !app_nil_r. repeat split; constructor.
  - cbn [Summarizer.rolling_chunks].
    destruct (_format_previous_context partial_summaries)
      as [previous_context|] eqn:R.
    + unfold bind.
      pose proof (attempt_log
                    (ChunkPrompt (i + 1) n channel_name episode_title
                       previous_context chunk) ChunkModel 1000 st) as Hlog.
      pose proof (attempt_answered
                    (ChunkPrompt (i + 1) n channel_name episode_title
                       previous_context chunk) ChunkModel 1000 st) as Hans.
      destruct (attempt _ ChunkModel 1000 st) as [r st1].
      cbn [fst snd] in Hlog, Hans.
      destruct (IH (i + 1)
                  (match r with
                   | Some summary => partial_summaries ++ [summary]
                   | None => partial_summaries
                   end) st1) as (evs & Hl & Hm & Ha & Hc & Hout).
      eexists (_ :: evs). rewrite Hl, Hlog, <- app_assoc.
      split; [reflexivity|]. split; [|split; [|split]].
      * constructor; [reflexivity | exact Hm].
      * constructor; [exact Hans | exact Ha].
      * cbn [map length firstn numbered chunk_of ev_call call_prompt].
        now rewrite Hc.
      * assert (Hs : forall l,
                  (match r with
                   | Some summary => partial_summaries ++ [summary]
                   | None => partial_summaries
                   end) ++ l
                  = partial_summaries ++
                    successes
                      ({| ev_call := {| call_prompt :=
                                          ChunkPrompt (i + 1) n channel_name
                                            episode_title previous_context
                                            chunk;
                                        call_model := ChunkModel;
                                        call_max_tokens := 1000 |};
                          ev_result := r |} :: []) ++ l).
        { intros l. destruct r; cbn; [now rewrite <- app_assoc | reflexivity]. }
        destruct (fst (rolling_chunks channel_name episode_title n (i + 1)
                         rest _ st1)) as [summaries|].
        -- destruct Hout as [-> Hn]. split.
           ++ rewrite Hs. f_equal. unfold successes. cbn [flat_map].
              now rewrite <- app_assoc.
           ++ cbn [length]. now rewrite Hn.
        -- destruct Hout as [Hn Hr]. split; [cbn [length]; lia|].
           rewrite Hs in Hr. rewrite <- Hr. f_equal. f_equal.
           unfold successes. cbn [flat_map]. now rewrite <- app_assoc.
    + exists []. cbn [ret fst snd length]. rewrite !app_nil_r.
      split; [reflexivity|]. split; [constructor|]. split; [constructor|].
      split; [reflexivity|]. split; [lia | exact R].
Qed.

(** The runs of [summarize_episode] on a transcript of given chunks. *)
Lemma summarize_single (channel_name episode_title transcript chunk : str)
  (st : state number Service) :
  _chunk_transcript transcript = Some [chunk] ->
  exists run,
    summarize_episode channel_name episode_title transcript = Some run /\
    exists e,
      log (snd (run st)) = log st ++ [e] /\
      call_model (ev_call e) = SynthesisModel /\
      answered e /\
      fst (run st) = Returns (value_or_none (ev_result e)).
Proof.
  intros E. unfold Summarizer.summarize_episode. rewrite E.
  cbn [length Z.of_nat Pos.of_succ_nat Z.eqb Pos.eqb].
  eexists. split; [reflexivity|]. unfold bind.
  pose proof (attempt_log
                (SinglePassPrompt channel_name episode_title transcript)
                SynthesisModel 1500 st) as Hlog.
  pose proof (attempt_answered
                (SinglePassPrompt channel_name episode_title transcript)
                SynthesisModel 1500 st) as Hans.
  destruct (attempt _ SynthesisModel 1500 st) as [r st1].
  cbn [fst snd] in Hlog, Hans. eexists. cbn [ret fst snd]. rewrite Hlog.
  now repeat split.
Qed.

Lemma summarize_rolling (channel_name episode_title transcript : str)
  (chunks : list str) (st : state number Service) :
  _chunk_transcript transcript = Some chunks ->
  length chunks <> 1%nat ->
  exists run,
    summarize_episode channel_name episode_title transcript = Some run /\
    exists chunk_evs rest,
      log (snd (run st)) = log st ++ chunk_evs ++ rest /\
      (length chunk_evs <= length chunks)%nat /\
      Forall (fun e => call_model (ev_call e) = ChunkModel) chunk_evs /\
      Forall answered (chunk_evs ++ rest) /\
      map chunk_of chunk_evs = numbered 0 (firstn (length chunk_evs) chunks) /\
      match _format_previous_context (successes chunk_evs) with
      | None => rest = [] /\ fst (run st) = Raises
      | Some _ =>
          length chunk_evs = length chunks /\
          match successes chunk_evs with
          | [] => rest = [] /\ fst (run st) = Returns JNone
          | _ :: _ =>
              exists e,
                rest = [e] /\ call_model (ev_call e) = SynthesisModel /\
                fst (run st) = Returns (value_or_none (ev_result e))
          end
      end.
Proof.
  intros E Hn. unfold Summarizer.summarize_episode. rewrite E.
  destruct (Z.eqb_spec (Z.of_nat (length chunks)) 1) as [H1|_]; [lia|].
  eexists. split; [reflexivity|].
  destruct (rolling_chunks_log channel_name episode_title
              (Z.of_nat (length chunks)) chunks 0 [] st)
    as (evs & Hl & Hm & Ha & Hc & Hout).
  unfold bind.
  destruct (rolling_chunks channel_name episode_title
              (Z.of_nat (length chunks)) 0 chunks [] st)
    as [looped st1].
  cbn [fst snd app] in Hl, Hout. exists evs.
  destruct looped as [summaries|].
  - destruct Hout as [-> Hlen].
    destruct (successes evs) as [|d ds] eqn:Es.
    + exists []. cbn [ret fst snd]. rewrite !app_nil_r.
      split; [exact Hl|]. split; [lia|]. split; [exact Hm|].
      split; [exact Ha|]. split; [exact Hc|]. now repeat split.
    + destruct (_format_previous_context (d :: ds)) as [all_summaries|] eqn:R.
      * pose proof (attempt_log
                      (SynthesisPrompt channel_name episode_title
                         all_summaries) SynthesisModel 2000 st1) as Hlog.
        pose proof (attempt_answered
                      (SynthesisPrompt channel_name episode_title
                         all_summaries) SynthesisModel 2000 st1) as Hans.
        destruct (attempt _ SynthesisModel 2000 st1) as [r st2].
        cbn [fst snd] in Hlog, Hans. eexists. cbn [ret fst snd].
        rewrite Hlog, Hl, <- app_assoc.
        split; [reflexivity|]. split; [lia|]. split; [exact Hm|].
        split; [apply Forall_app; split; [exact Ha | now constructor]|].
        split; [exact Hc|]. split; [exact Hlen|].
        eexists. now repeat split.
      * exists []. cbn [ret fst snd]. rewrite !app_nil_r.
        split; [exact Hl|]. split; [lia|]. split; [exact Hm|].
        split; [exact Ha|]. split; [exact Hc|]. now split.
  - destruct Hout as [Hlen Hr]. exists []. cbn [ret fst snd].
    rewrite !app_nil_r, Hr.
    split; [exact Hl|]. split; [lia|]. split; [exact Hm|].
    split; [exact Ha|]. split; [exact Hc|]. now split.
Qed.

(** The requests to the chunk model in the log of a run. *)
Lemma chunk_tier_of_run (chunk_evs rest : list (event number)) :
  Forall (fun e => call_model (ev_call e) = ChunkModel) chunk_evs ->
  rest = [] \/
  (exists e, rest = [e] /\ call_model (ev_call e) = SynthesisModel) ->
  tier_calls ChunkModel (chunk_evs ++ rest) = chunk_evs /\
  tier_calls SynthesisModel (chunk_evs ++ rest) = rest.
Proof.
  intros Hm Hrest. rewrite !tier_calls_app, (tier_calls_same _ _ Hm).
  rewrite (tier_calls_other ChunkModel SynthesisModel chunk_evs)
    by (discriminate || exact Hm).
  destruct Hrest as [-> | (e & -> & He)].
  - now rewrite app_nil_r.
  - cbn. rewrite He. cbn. now rewrite app_nil_r.
Qed.

End EngineFacts.

Section EngineClaims.
Import PyStr Chunker Summarizer Samples.

Variable number : Type.
Variable is_zero : number -> bool.
Variable Service : Type.
Variable create : Service -> call -> Service * option str.
Variable _extract_json : str -> option (json number).
Variable repr : json number -> str.

Local Abbreviation summarize_episode :=
  (summarize_episode number is_zero Service create _extract_json repr).

(** C2.  On a transcript of [N > 1] chunks, [summarize_episode] makes at
    most [N] requests to the chunk model, each logged with what the service
    answered; and when every one of them fails it has made all [N] of them,
    returns [None] and has made no request to the synthesis model. *)
Theorem all_chunks_fail (channel_name episode_title transcript : str)
  (chunks : list str) (st : state number Service) :
  _chunk_transcript transcript = Some chunks ->
  (1 < length chunks)%nat ->
  exists run evs,
    summarize_episode channel_name episode_title transcript = Some run /\
    log (snd (run st)) = log st ++ evs /\
    Forall (answered number Service create _extract_json) evs /\
    (length (tier_calls ChunkModel evs) <= length chunks)%nat /\
    (Forall (fun e => ev_result e = None) (tier_calls ChunkModel evs) ->
     length (tier_calls ChunkModel evs) = length chunks /\
     fst (run st) = Returns JNone /\ tier_calls SynthesisModel evs = []).
Proof.
  intros E Hn.
  destruct (summarize_rolling number is_zero Service create _extract_json
              repr channel_name episode_title transcript chunks st E)
    as (run & Erun & chunk_evs & tail & Hl & Hle & Hm & Ha & Hc & Hout);
    [lia|].
  exists run, (chunk_evs ++ tail). split; [exact Erun|]. split; [exact Hl|].
  split; [exact Ha|].
  assert (Htail : tail = [] \/
                  exists e, tail = [e] /\
                            call_model (ev_call e) = SynthesisModel).
  { destruct (_format_previous_context number is_zero repr
                (successes chunk_evs)); [|now left].
    destruct Hout as [_ Hout].
    destruct (successes chunk_evs); [now left|].
    destruct Hout as (e & He & Hs & _). right. now exists e. }
  destruct (chunk_tier_of_run number chunk_evs tail Hm Htail) as [-> Hsyn].
  split; [exact Hle|]. intros Hfail. apply successes_none in Hfail.
  rewrite Hfail in Hout. cbn in Hout. destruct Hout as (Hlen & -> & Hr).
  split; [exact Hlen|]. split; [exact Hr|].
  now rewrite Hsyn.
Qed.

End EngineClaims.

Section EngineRuns.
Import PyStr Chunker Summarizer Samples.

(** The transcript of 40001 letters has two chunks. *)
Lemma two_chunks :
  _chunk_transcript (letters 40001) = Some [letters 40000; letters 1].
Proof. apply returns_chunks. vm_compute. reflexivity. Qed.

(** The service that is down fails every request: the premise of the
    claim holds of its run, and so does the conclusion. *)
Lemma all_chunks_fail_witness :
  exists run evs,
    summarize_sample down (letters 40001) = Some run /\
    log (snd (run fresh)) = log fresh ++ evs /\
    Forall (fun e => ev_result e = None) (tier_calls ChunkModel evs) /\
    length (tier_calls ChunkModel evs) = length [letters 40000; letters 1] /\
    fst (run fresh) = Returns JNone /\ tier_calls SynthesisModel evs = [].
Proof.
  destruct (all_chunks_fail Z (Z.eqb 0) nat down parse_sample repr_sample
              [] [] (letters 40001) [letters 40000; letters 1] fresh
              two_chunks ltac:(simpl; lia))
    as (run & evs & Erun & Hl & Ha & _ & Hfail).
  assert (Hnone : Forall (fun e => ev_result e = None)
                    (tier_calls ChunkModel evs)).
  { apply Forall_forall. intros e He. apply filter_In in He as [He _].
    rewrite Forall_forall in Ha. destruct (Ha e He) as [s Hs].
    exact Hs. }
  exists run, evs. split; [exact Erun|]. split; [exact Hl|].
  split; [exact Hnone|]. exact (Hfail Hnone).
Defined.

(** The runs of the sample services on that transcript.  With the second
    chunk failing, the synthesis request is still made; with both chunks
    failing, it is not. *)
Example flaky_run :
  outline (summarize_sample flaky (letters 40001)) fresh
  = Some ([(ChunkModel, true); (ChunkModel, false); (SynthesisModel, true)],
          Returns true).
Proof. vm_compute. reflexivity. Qed.

Example down_run :
  outline (summarize_sample down (letters 40001)) fresh
  = Some ([(ChunkModel, false); (ChunkModel, false)], Returns false).
Proof. vm_compute. reflexivity. Qed.

(** C1.  On the transcript of 40001 letters, which has two chunks, with a
    service whose response to the first request is the object with the
    number 5 under ["key_points"], [summarize_episode] makes one request,
    to the chunk model, and raises, where the claim has two requests to the
    chunk model and one to the synthesis model: the response parses and is
    kept as a summary, and the rendering of the summaries before the second
    request (line 271) raises on the number, outside every [try]. *)
Theorem summarize_stops_early :
  _chunk_transcript (letters 40001) = Some [letters 40000; letters 1] /\
  _format_previous_context Z (Z.eqb 0) repr_sample
    [JDict [(KEY_POINTS, JNumber 5)]] = None /\
  outline (summarize_sample misshapen (letters 40001)) fresh
  = Some ([(ChunkModel, true)], Raises).
Proof.
  split; [exact two_chunks|]. split; [reflexivity|].
  vm_compute. reflexivity.
Qed.

End EngineRuns.

(** ** The slot allocator *)

Section SchedulerFacts.
Import PyStr Scheduler.

Lemma length_range (count : Z) : length (range count) = Z.to_nat count.
Proof. unfold range. now rewrite length_map, length_seq. Qed.

Lemma nth_range (count i : Z) :
  0 <= i < count -> nth (Z.to_nat i) (range count) 0 = i.
Proof.
  intros H. unfold range.
  rewrite (nth_indep _ 0 (Z.of_nat 0)) by (rewrite length_map, length_seq; lia).
  rewrite map_nth, seq_nth by lia. lia.
Qed.

Lemma nth_map_range (f : Z -> Z) (count i : Z) :
  0 <= i < count -> nth (Z.to_nat i) (map f (range count)) 0 = f i.
Proof.
  intros H.
  rewrite (nth_indep _ 0 (f 0)) by (rewrite length_map, length_range; lia).
  rewrite map_nth. now rewrite nth_range.
Qed.

Lemma datetime_valid (day hour minute : Z) :
  valid_window (hour, minute) ->
  datetime day hour minute =
  Some (day * DAY + minute_of_day (hour, minute) * MINUTE).
Proof.
  intros [[H1 H2] [H3 H4]]. unfold datetime. cbn [fst snd] in *.
  apply Z.leb_le in H1, H3. apply Z.ltb_lt in H2, H4.
  rewrite H1, H2, H3, H4. cbn [andb]. f_equal.
  unfold minute_of_day, HOUR. cbn [fst snd]. ring.
Qed.


(** Today's windows that are still to come: the filter of line 36 over the
    datetimes of the windows. *)
Lemma future_windows_valid (now_local today : Z) (windows : list window) :
  Forall valid_window windows ->
  future_windows now_local today windows =
  Some (filter (fun dt => now_local <? dt)
          (map (fun w => today * DAY + minute_of_day w * MINUTE) windows)).
Proof.
  induction 1 as [|[hour minute] rest Hw _ IH]; [reflexivity|].
  simpl future_windows. rewrite (datetime_valid today hour minute Hw).
  rewrite IH. reflexivity.
Qed.

Lemma working_set_nonempty (today : Z) (windows : list window)
  (window_dts : list Z) :
  windows <> [] -> Forall valid_window windows ->
  exists dts, working_set today windows window_dts = Some dts /\ dts <> [].
Proof.
  intros Hne Hv. destruct window_dts as [|dt dts].
  - destruct windows as [|[hour minute] rest]; [contradiction|].
    inversion Hv as [|w l Hw _]. subst. simpl.
    rewrite (datetime_valid (today + 1) hour minute Hw).
    eexists. split; [reflexivity|discriminate].
  - exists (dt :: dts). split; [reflexivity|discriminate].
Qed.

(** The reading of the slot of index [i]: the window [i mod n], moved by
    five minutes per lap. *)
Lemma slot_window_spec (window_dts : list Z) (i : Z) :
  0 <= i -> window_dts <> [] ->
  let n := Z.of_nat (length window_dts) in
  slot_window window_dts i =
  nth (Z.to_nat (i mod n)) window_dts 0 + timedelta_minutes (i / n * 5).
Proof.
  intros Hi Hne n. unfold slot_window. fold n.
  assert (0 < n) by (destruct window_dts; [contradiction|subst n; simpl; lia]).
  pose proof (Z.div_pos i n Hi H).
  destruct (Z.ltb_spec 0 (i / n)); [reflexivity|].
  replace (i / n) with 0 by lia. unfold timedelta_minutes.
  now rewrite Z.add_0_r.
Qed.


Lemma window_instants_valid (now_local today : Z) (windows : list window) :
  Forall valid_window windows ->
  window_instants now_local today windows =
  working_set today windows
    (filter (fun dt => now_local <? dt)
       (map (fun w => today * DAY + minute_of_day w * MINUTE) windows)).
Proof.
  intros Hv. unfold window_instants.
  now rewrite (future_windows_valid _ _ _ Hv).
Qed.

(** With the configured zone and [UTC] in the database, a non-empty list
    of valid windows gives the slots of the indices of [range(count)] over
    a non-empty working set. *)
Lemma schedule_slots_valid (ZoneInfo : str -> option zone) (tz utc : zone)
  (count : Z) (cfg : schedule_config) :
  ZoneInfo (configured_timezone cfg) = Some tz ->
  ZoneInfo UTC = Some utc ->
  configured_windows cfg <> [] ->
  Forall valid_window (configured_windows cfg) ->
  exists window_dts,
    window_dts <> [] /\
    window_instants (clock tz) (date (clock tz)) (configured_windows cfg)
    = Some window_dts /\
    get_schedule_slots ZoneInfo count cfg =
    Some (map (slot (utcoffset tz) window_dts) (range count)).
Proof.
  intros Htz Hutc Hne Hv. unfold get_schedule_slots. cbv zeta.
  rewrite Htz, (window_instants_valid _ _ _ Hv).
  destruct (working_set_nonempty (date (clock tz)) (configured_windows cfg)
              (filter (fun dt => clock tz <? dt)
                 (map (fun w => date (clock tz) * DAY
                                + minute_of_day w * MINUTE)
                    (configured_windows cfg))) Hne Hv) as (dts & E & Hd).
  exists dts. rewrite E, Hutc. now repeat split.
Qed.

(** A zone the database does not hold: line 27 raises. *)
Lemma schedule_slots_unknown_zone (ZoneInfo : str -> option zone)
  (count : Z) (cfg : schedule_config) :
  ZoneInfo (configured_timezone cfg) = None ->
  get_schedule_slots ZoneInfo count cfg = None.
Proof. intros Htz. unfold get_schedule_slots. cbv zeta. now rewrite Htz. Qed.




Lemma range_in (count i : Z) : 0 <= i < count -> In i (range count).
Proof.
  intros H. unfold range. apply in_map_iff. exists (Z.to_nat i).
  split; [lia|]. apply in_seq. lia.
Qed.

(** The slots, index by index. *)
Lemma nth_slots (utcoffset : Z -> Z) (window_dts : list Z) (count i : Z) :
  0 <= i < count ->
  nth (Z.to_nat i) (map (slot utcoffset window_dts) (range count)) 0 =
  astimezone_utc utcoffset (slot_window window_dts i).
Proof. intros Hi. now rewrite nth_map_range. Qed.

Lemma in_slot_windows (window_dts : list Z) (count i : Z) :
  0 <= i < count ->
  In (slot_window window_dts i) (slot_windows window_dts count).
Proof. intros Hi. unfold slot_windows. now apply in_map, range_in. Qed.

(** Sorted lists. *)
Lemma sorted_nth {A : Type} (R : A -> A -> Prop) (d : A) (l : list A) :
  StronglySorted R l ->
  forall i j, (i < j < length l)%nat -> R (nth i l d) (nth j l d).
Proof.
  induction 1 as [|a l Hs IH Ha]; intros i j Hij; simpl in Hij; [lia|].
  destruct j as [|j]; [lia|]. destruct i as [|i]; simpl.
  - rewrite Forall_forall in Ha. apply Ha. apply nth_In. lia.
  - apply IH. lia.
Qed.

Lemma sorted_filter {A : Type} (R : A -> A -> Prop) (f : A -> bool)
  (l : list A) :
  StronglySorted R l -> StronglySorted R (filter f l).
Proof.
  induction 1 as [|a l Hs IH Ha]; simpl; [constructor|].
  destruct (f a); [|exact IH]. constructor; [exact IH|].
  rewrite Forall_forall in *. intros x Hx. apply Ha.
  now apply filter_In in Hx.
Qed.

Lemma sorted_map {A B : Type} (R : B -> B -> Prop) (g : A -> B) (l : list A) :
  StronglySorted (fun a b => R (g a) (g b)) l -> StronglySorted R (map g l).
Proof.
  induction 1 as [|a l Hs IH Ha]; simpl; constructor; [exact IH|].
  rewrite Forall_forall in *. intros x Hx.
  apply in_map_iff in Hx as (y & <- & Hy). now apply Ha.
Qed.

Lemma sorted_weaken {A : Type} (R R' : A -> A -> Prop) (l : list A) :
  (forall a b, R a b -> R' a b) -> StronglySorted R l -> StronglySorted R' l.
Proof.
  intros HR. induction 1 as [|a l Hs IH Ha]; constructor; [exact IH|].
  eapply Forall_impl; [|exact Ha]. intros b. apply HR.
Qed.

(** The working set of windows in order is in order. *)
Lemma working_set_sorted (R : Z -> Z -> Prop) (now_local today : Z)
  (windows : list window) (window_dts : list Z) :
  StronglySorted
    (fun a b => R (today * DAY + minute_of_day a * MINUTE)
                  (today * DAY + minute_of_day b * MINUTE)) windows ->
  working_set today windows
    (filter (fun dt => now_local <? dt)
       (map (fun w => today * DAY + minute_of_day w * MINUTE) windows))
  = Some window_dts ->
  StronglySorted R window_dts.
Proof.
  intros Hs E.
  pose proof (sorted_filter R (fun dt => now_local <? dt) _
                (sorted_map R _ _ Hs)) as Hf.
  unfold working_set in E.
  destruct (filter _ _) as [|dt dts].
  - destruct windows as [|[hour minute] rest]; [discriminate|].
    destruct (datetime (today + 1) hour minute); [|discriminate].
    injection E as <-. repeat constructor.
  - injection E as <-. exact Hf.
Qed.

(** A conversion that keeps the order of the readings of a list keeps
    equal readings equal. *)
Lemma keeps_order_le (utcoffset : Z -> Z) (readings : list Z) (a b : Z) :
  keeps_order utcoffset readings ->
  In a readings -> In b readings -> a <= b ->
  astimezone_utc utcoffset a <= astimezone_utc utcoffset b.
Proof.
  intros Ho Ha Hb Hab. destruct (Z.eq_dec a b) as [->|Hne]; [lia|].
  apply Z.lt_le_incl, Ho; [assumption..|lia].
Qed.

(** A zone of fixed offset keeps the order of every list of readings. *)
Lemma fixed_offset_keeps_order (offset : Z) (readings : list Z) :
  keeps_order (fun _ => offset) readings.
Proof. intros a b _ _ H. unfold astimezone_utc. lia. Qed.

End SchedulerFacts.

(** ** The slot allocator: the claims *)

Section SchedulerClaims.
Import PyStr Scheduler Samples.

(** The sample zone [UTC] keeps the order of every list of readings. *)
Lemma utc_keeps_order (instant : Z) (readings : list Z) :
  keeps_order (utcoffset (utc_at instant)) readings.
Proof. apply (fixed_offset_keeps_order 0). Qed.



(** The run of the witness: at 20:00 of day 0 in UTC, three slots at 09:00,
    09:05 and 09:10 of day 1; and the same call at 01:00 of day 1 in UTC,
    which is 21:00 of day 0 on the clock of the default zone, where 09:00
    of day 1 is 13:00 in UTC. *)
Example evening_run :
  get_schedule_slots (tzdata (20 * HOUR)) 3 utc_config =
  Some [DAY + 9 * HOUR; DAY + 9 * HOUR + 5 * MINUTE;
        DAY + 9 * HOUR + 10 * MINUTE] /\
  get_schedule_slots (tzdata (DAY + 1 * HOUR)) 3 default_config =
  Some [DAY + 13 * HOUR; DAY + 13 * HOUR + 5 * MINUTE;
        DAY + 13 * HOUR + 10 * MINUTE].
Proof. split; reflexivity. Qed.

(** C8, as stated, fails: with an empty list of windows the function
    raises; a negative count gives no slot; two equal windows, which are in
    chronological order, give equal slots within a lap; in a zone whose
    clock is put forward between two windows, windows in chronological order
    give slots that go back; and for a zone the database does not hold, or
    a window of the hour 25, the function raises. *)
Lemma no_window_no_slots :
  get_schedule_slots (tzdata 0) 3 (config_of []) = None /\
  get_schedule_slots (tzdata 0) (-1) utc_config = Some [] /\
  get_schedule_slots (tzdata 0) 4 (config_of [(9, 0); (9, 0)]) =
  Some [9 * HOUR; 9 * HOUR; 9 * HOUR + 5 * MINUTE; 9 * HOUR + 5 * MINUTE] /\
  get_schedule_slots (tzdata (5 * HOUR)) 2
    (new_york_config [(2, 30); (3, 0)]) =
  Some [7 * HOUR + 30 * MINUTE; 7 * HOUR] /\
  get_schedule_slots (tzdata 0) 3 unknown_zone_config = None /\
  get_schedule_slots (tzdata 0) 3 (config_of [(25, 0)]) = None.
Proof. repeat split. Qed.

(** C8, amended.  For a database that holds the configured zone and UTC,
    a non-empty list of valid windows and a count that is not negative,
    [get_schedule_slots] returns exactly [count] slots.  Where the UTC
    conversion keeps the order of the wall-clock readings of these slots:
    when the windows are in chronological order and [count] is at most the
    number of window instants in the working set, the slots are
    non-decreasing in assignment order; and when the windows are in
    chronological order without repeats, the slots of one lap strictly
    increase. *)
Theorem slots_count_and_order (ZoneInfo : str -> option zone)
  (tz utc : zone) (count : Z) (cfg : schedule_config) :
  ZoneInfo (configured_timezone cfg) = Some tz ->
  ZoneInfo UTC = Some utc ->
  configured_windows cfg <> [] ->
  Forall valid_window (configured_windows cfg) ->
  0 <= count ->
  exists window_dts slots,
    window_instants (clock tz) (date (clock tz)) (configured_windows cfg)
    = Some window_dts /\
    get_schedule_slots ZoneInfo count cfg = Some slots /\
    Z.of_nat (length slots) = count /\
    (keeps_order (utcoffset tz) (slot_windows window_dts count) ->
     chronological (configured_windows cfg) ->
     count <= Z.of_nat (length window_dts) ->
     forall i j, 0 <= i <= j -> j < count ->
                 nth (Z.to_nat i) slots 0 <= nth (Z.to_nat j) slots 0) /\
    (keeps_order (utcoffset tz) (slot_windows window_dts count) ->
     strictly_chronological (configured_windows cfg) ->
     forall i j, 0 <= i < j -> j < count ->
                 i / Z.of_nat (length window_dts)
                 = j / Z.of_nat (length window_dts) ->
                 nth (Z.to_nat i) slots 0 < nth (Z.to_nat j) slots 0).
Proof.
  intros Htz Hutc Hne Hv Hcount.
  destruct (schedule_slots_valid ZoneInfo tz utc count cfg Htz Hutc Hne Hv)
    as (window_dts & Hd & Ei & Es).
  exists window_dts. eexists. split; [exact Ei|]. split; [exact Es|].
  split; [rewrite length_map, length_range; lia|].
  rewrite (window_instants_valid _ _ _ Hv) in Ei.
  set (n := Z.of_nat (length window_dts)) in *.
  assert (Hn : 0 < n) by (destruct window_dts; [contradiction|subst n; simpl; lia]).
  split.
  - intros Ho Hc Hle i j Hij Hj.
    assert (Hs : StronglySorted Z.le window_dts).
    { apply (working_set_sorted Z.le (clock tz) (date (clock tz))
               (configured_windows cfg)); [|exact Ei].
      eapply sorted_weaken; [|exact Hc]. intros a b H. cbv beta in H.
      unfold MINUTE. lia. }
    rewrite !nth_slots by lia.
    apply (keeps_order_le _ _ _ _ Ho); [apply in_slot_windows; lia..|].
    rewrite !slot_window_spec by (assumption || lia). cbv zeta. fold n.
    rewrite !Z.mod_small, !Z.div_small by lia.
    unfold timedelta_minutes. rewrite !Z.add_0_r.
    destruct (Z.eq_dec i j) as [->|Hneq]; [lia|].
    apply (sorted_nth Z.le 0 window_dts Hs). lia.
  - intros Ho Hc i j Hij Hj Hlap.
    assert (Hs : StronglySorted Z.lt window_dts).
    { apply (working_set_sorted Z.lt (clock tz) (date (clock tz))
               (configured_windows cfg)); [|exact Ei].
      eapply sorted_weaken; [|exact Hc]. intros a b H. cbv beta in H.
      unfold MINUTE. lia. }
    rewrite !nth_slots by lia.
    apply Ho; [apply in_slot_windows; lia..|].
    rewrite !slot_window_spec by (assumption || lia). cbv zeta. fold n.
    rewrite Hlap.
    pose proof (Z.mod_pos_bound i n Hn). pose proof (Z.mod_pos_bound j n Hn).
    pose proof (Z.div_mod i n ltac:(lia)). pose proof (Z.div_mod j n ltac:(lia)).
    assert (i mod n < j mod n) by (rewrite Hlap in *; lia).
    apply Z.add_lt_mono_r.
    apply (sorted_nth Z.lt 0 window_dts Hs). lia.
Qed.

(** At 00:00 of day 0 in UTC the four default windows are all to come:
    four slots are in order, and six slots are in order within each of
    their two laps. *)
Lemma slots_count_and_order_witness :
  (exists slots,
      get_schedule_slots (tzdata 0) 4 utc_config = Some slots /\
      Z.of_nat (length slots) = 4 /\
      forall i j, 0 <= i <= j -> j < 4 ->
                  nth (Z.to_nat i) slots 0 <= nth (Z.to_nat j) slots 0) /\
  (exists slots,
      get_schedule_slots (tzdata 0) 6 utc_config = Some slots /\
      Z.of_nat (length slots) = 6 /\
      forall i j, 0 <= i < j -> j < 6 -> i / 4 = j / 4 ->
                  nth (Z.to_nat i) slots 0 < nth (Z.to_nat j) slots 0).
Proof.
  assert (Hne : configured_windows utc_config <> []) by discriminate.
  assert (Hv : Forall valid_window (configured_windows utc_config)).
  { repeat (apply Forall_cons; [unfold valid_window; simpl; lia|]).
    constructor. }
  assert (Hs : strictly_chronological (configured_windows utc_config)).
  { repeat (constructor; [|repeat (constructor; [vm_compute; reflexivity|]);
                           constructor]). constructor. }
  assert (Hc : chronological (configured_windows utc_config)).
  { repeat (constructor; [|repeat (constructor; [vm_compute; discriminate|]);
                           constructor]). constructor. }
  split.
  - destruct (slots_count_and_order (tzdata 0) (utc_at 0) (utc_at 0) 4
                utc_config eq_refl eq_refl Hne Hv ltac:(lia))
      as (window_dts & slots & Ei & Es & Hl & Hle & _).
    injection Ei as <-. exists slots. split; [exact Es|]. split; [exact Hl|].
    apply Hle; [|exact Hc|simpl; lia].
    apply utc_keeps_order.
  - destruct (slots_count_and_order (tzdata 0) (utc_at 0) (utc_at 0) 6
                utc_config eq_refl eq_refl Hne Hv ltac:(lia))
      as (window_dts & slots & Ei & Es & Hl & _ & Hlt).
    injection Ei as <-. exists slots. split; [exact Es|]. split; [exact Hl|].
    apply Hlt; [|exact Hs].
    apply utc_keeps_order.
Defined.




End SchedulerClaims.

(** * Properties of the rest of the code *)

(** ** More of Python's strings *)

Section TextFacts.
Import PyStr PyText.

Lemma eqb_eq (s t : str) : eqb s t = true <-> s = t.
Proof.
  revert t. induction s as [|c s IH]; intros [|d t]; simpl;
    try (split; [discriminate|discriminate]); [tauto|].
  rewrite andb_true_iff, N.eqb_eq, IH. split.
  - intros [-> ->]. reflexivity.
  - intros E. injection E as -> ->. now split.
Qed.

Lemma mem_In (s : str) (keys : list str) : mem s keys = true <-> In s keys.
Proof.
  unfold mem. rewrite existsb_exists. split.
  - intros (k & Hk & E). apply eqb_eq in E. now subst.
  - intros H. exists s. split; [exact H|]. now apply eqb_eq.
Qed.

Lemma startswith_app (prefix s : str) : startswith (prefix ++ s) prefix = true.
Proof.
  induction prefix as [|d prefix IH]; simpl; [now destruct s|].
  now rewrite N.eqb_refl, IH.
Qed.

(** What is left of [lstrip(chars)] does not begin with a character of
    [chars]. *)
Lemma lstrip_chars_head (chars s : str) (c : char) (rest : str) :
  lstrip_chars chars s = c :: rest -> existsb (N.eqb c) chars = false.
Proof.
  induction s as [|x s IH]; simpl; [discriminate|].
  destruct (existsb (N.eqb x) chars) eqn:E; [exact IH|].
  intros H. injection H as -> _. exact E.
Qed.

Lemma contains_cons (c : char) (s sub : str) :
  contains (c :: s) sub = false ->
  startswith (c :: s) sub = false /\ contains s sub = false.
Proof. simpl contains. intros H. now apply orb_false_elim in H. Qed.

(** A string in which [old] does not occur is left as it is. *)
Lemma replace_absent (s old new : str) :
  contains s old = false -> replace s old new = s.
Proof.
  unfold replace. induction s as [|c s IH]; intros H; [reflexivity|].
  apply contains_cons in H as [H1 H2].
  change (replace_from 0 (c :: s) old new)
    with (if startswith (c :: s) old
          then new ++ replace_from (length old - 1) s old new
          else c :: replace_from 0 s old new).
  rewrite H1. now rewrite IH.
Qed.

End TextFacts.

(** ** The subreddit filter *)

Section RedditFacts.
Import PyStr PyText RedditPoster.

Variable lower : str -> str.

Local Abbreviation clean := (clean lower).
Local Abbreviation select := (select lower).
Local Abbreviation _allowed_subreddits := (_allowed_subreddits lower).

Lemma allow_subs_spec (tag_subs : list subreddit) :
  forall allowed,
    match allow_subs lower tag_subs allowed with
    | None => Exists (fun sub => name sub = None) (filter promo tag_subs)
    | Some allowed' =>
        Forall (fun sub => name sub <> None) (filter promo tag_subs) /\
        allowed' = allowed ++ map clean (named (filter promo tag_subs))
    end.
Proof.
  induction tag_subs as [|sub rest IH]; intros allowed; simpl.
  - split; [constructor | now rewrite app_nil_r].
  - destruct (promo sub) eqn:P; [|apply IH].
    destruct (name sub) as [n|] eqn:N; [|now left].
    specialize (IH (allowed ++ [clean n])).
    destruct (allow_subs lower rest (allowed ++ [clean n])) as [allowed'|].
    + destruct IH as [Hall ->]. split.
      * constructor; [congruence|exact Hall].
      * unfold named. simpl. rewrite N. simpl. now rewrite <- app_assoc.
    + now right.
Qed.

Lemma allow_tags_spec (tags : list (str * list subreddit)) :
  forall allowed,
    match allow_tags lower tags allowed with
    | None =>
        Exists (fun sub => name sub = None) (filter promo (flat_map snd tags))
    | Some allowed' =>
        Forall (fun sub => name sub <> None)
          (filter promo (flat_map snd tags)) /\
        allowed' =
        allowed ++ map clean (named (filter promo (flat_map snd tags)))
    end.
Proof.
  induction tags as [|[tag tag_subs] rest IH]; intros allowed; simpl.
  - split; [constructor | now rewrite app_nil_r].
  - rewrite filter_app. pose proof (allow_subs_spec tag_subs allowed) as Hs.
    destruct (allow_subs lower tag_subs allowed) as [allowed1|].
    + destruct Hs as [H1 ->].
      specialize (IH (allowed ++ map clean (named (filter promo tag_subs)))).
      destruct (allow_tags lower rest _) as [allowed2|].
      * destruct IH as [H2 ->]. split; [now apply Forall_app|].
        unfold named. rewrite flat_map_app, map_app. now rewrite <- app_assoc.
      * apply Exists_app. now right.
    + apply Exists_app. now left.
Qed.

(** The loop over the suggested names keeps the names that match, under
    their prefix, until [cap] names are kept. *)
Lemma select_spec (allowed : list str) (cap : Z) (suggested : list str) :
  forall result,
    select allowed cap suggested result =
    result ++
    firstn (Z.to_nat (cap - Z.of_nat (length result)))
      (map with_prefix
         (filter (fun name => mem (clean name) allowed) suggested)).
Proof.
  induction suggested as [|name rest IH]; intros result; simpl.
  - now rewrite firstn_nil, app_nil_r.
  - rewrite IH. destruct (mem (clean name) allowed); simpl; [|reflexivity].
    destruct (Z.ltb_spec (Z.of_nat (length result)) cap) as [Hlt|Hge].
    + rewrite length_app. simpl length.
      replace (Z.to_nat (cap - Z.of_nat (length result)))
        with (S (Z.to_nat (cap - Z.of_nat (length result + 1)))) by lia.
      simpl. now rewrite <- app_assoc.
    + replace (Z.to_nat (cap - Z.of_nat (length result))) with O by lia.
      reflexivity.
Qed.

Lemma allowed_subreddits_spec (suggested : list str) (cfg : subreddits_config)
  (cap : Z) :
  match _allowed_subreddits suggested cfg cap with
  | None => Exists (fun sub => name sub = None) (promoted cfg)
  | Some result =>
      Forall (fun sub => name sub <> None) (promoted cfg) /\
      result =
      firstn (Z.to_nat cap)
        (map with_prefix
           (filter (fun name =>
                      mem (clean name) (map clean (named (promoted cfg))))
              suggested))
  end.
Proof.
  unfold RedditPoster._allowed_subreddits, promoted.
  pose proof (allow_tags_spec
                (match topic_tags cfg with Some t => t | None => [] end) [])
    as H.
  destruct (allow_tags lower _ []) as [allowed|]; [|exact H].
  destruct H as [Hall ->]. split; [exact Hall|].
  rewrite select_spec. simpl. now rewrite Z.sub_0_r.
Qed.

Lemma with_prefix_startswith (name : str) :
  startswith (with_prefix name) R_SLASH = true.
Proof.
  unfold with_prefix. destruct (startswith name R_SLASH) eqn:E; [exact E|].
  apply startswith_app.
Qed.

Lemma In_firstn {A : Type} (n : nat) (l : list A) (x : A) :
  In x (firstn n l) -> In x l.
Proof.
  intros H. rewrite <- (firstn_skipn n l). apply in_or_app. now left.
Qed.

(** X1.  [_allowed_subreddits] returns the first [cap] of the suggested names,
    in their order, whose cleaned form is the cleaned form of the name of an
    entry that may be promoted, each under the prefix [r/]. *)
Theorem allowed_subreddits_filter_take (suggested : list str)
  (cfg : subreddits_config) (cap : Z) (result : list str) :
  _allowed_subreddits suggested cfg cap = Some result ->
  result =
  firstn (Z.to_nat cap)
    (map with_prefix
       (filter (fun name => mem (clean name) (map clean (named (promoted cfg))))
          suggested)).
Proof.
  intros E. pose proof (allowed_subreddits_spec suggested cfg cap) as H.
  rewrite E in H. apply H.
Qed.

(** X2.  [_allowed_subreddits] raises exactly when an entry whose
    ["promo_allowed"] is absent or true has no ["name"]; the entries whose
    ["promo_allowed"] is false are not read. *)
Theorem allowed_subreddits_raises (suggested : list str)
  (cfg : subreddits_config) (cap : Z) :
  _allowed_subreddits suggested cfg cap = None <->
  Exists (fun sub => name sub = None) (promoted cfg).
Proof.
  pose proof (allowed_subreddits_spec suggested cfg cap) as H.
  destruct (_allowed_subreddits suggested cfg cap) as [result|]; split.
  - discriminate.
  - intros Hex. destruct H as [Hall _]. exfalso.
    apply Exists_exists in Hex as (sub & Hin & Hn).
    rewrite Forall_forall in Hall. now apply (Hall sub Hin).
  - intros _. exact H.
  - reflexivity.
Qed.

(** X3.  [_allowed_subreddits] returns at most [cap] names, none when [cap]
    is not positive, and every name it returns starts with [r/]. *)
Theorem allowed_subreddits_capped (suggested : list str)
  (cfg : subreddits_config) (cap : Z) (result : list str) :
  _allowed_subreddits suggested cfg cap = Some result ->
  Z.of_nat (length result) <= Z.max 0 cap /\
  Forall (fun name => startswith name R_SLASH = true) result.
Proof.
  intros E. pose proof (allowed_subreddits_spec suggested cfg cap) as H.
  rewrite E in H. destruct H as [_ ->]. split.
  - rewrite length_firstn. lia.
  - apply Forall_forall. intros r Hr. apply In_firstn in Hr.
    apply in_map_iff in Hr as (name & <- & _). apply with_prefix_startswith.
Qed.

(** X4.  Every name [_allowed_subreddits] returns is a suggested name, under
    the prefix [r/], whose cleaned form is that of the name of an entry of the
    configuration whose ["promo_allowed"] is absent or true. *)
Theorem allowed_subreddits_sound (suggested : list str)
  (cfg : subreddits_config) (cap : Z) (result : list str) (r : str) :
  _allowed_subreddits suggested cfg cap = Some result ->
  In r result ->
  exists suggestion sub n,
    In suggestion suggested /\ r = with_prefix suggestion /\
    In sub (promoted cfg) /\ promo sub = true /\
    name sub = Some n /\ clean n = clean suggestion.
Proof.
  intros E Hr. pose proof (allowed_subreddits_spec suggested cfg cap) as H.
  rewrite E in H. destruct H as [_ ->]. apply In_firstn in Hr.
  apply in_map_iff in Hr as (suggestion & <- & Hs).
  apply filter_In in Hs as [Hin Hm]. apply mem_In in Hm.
  apply in_map_iff in Hm as (n & En & Hn).
  unfold named in Hn. apply in_flat_map in Hn as (sub & Hsub & Hname).
  exists suggestion, sub, n. split; [exact Hin|]. split; [reflexivity|].
  split; [exact Hsub|]. split.
  - unfold promoted in Hsub. now apply filter_In in Hsub.
  - destruct (name sub) as [m|]; [|contradiction].
    destruct Hname as [->|[]]. now split.
Qed.

End RedditFacts.

(** ** The Reddit poster *)

Section RedditPosting.
Import PyStr PyText RedditPoster.

Variable lower : str -> str.
Variable Service : Type.
Variable submit : Service -> str -> str -> str -> Service * option str.

Local Abbreviation submit_all := (submit_all Service submit).
Local Abbreviation post_to_subreddits :=
  (post_to_subreddits lower Service submit).

(** The submission made for a target. *)
Local Abbreviation submission_of title body :=
  (fun target => {| to_subreddit := lstrip_chars R_SLASH target;
                    with_title := title; with_body := body |}).

Lemma submit_all_spec (title body : str) (targets : list str) :
  forall urls st,
    submitted Service (snd (submit_all title body targets urls st)) =
    submitted Service st ++ map (submission_of title body) targets /\
    exists new,
      fst (submit_all title body targets urls st) = urls ++ new /\
      (length new <= length targets)%nat.
Proof.
  induction targets as [|target rest IH]; intros urls st; simpl.
  - rewrite app_nil_r. split; [reflexivity|]. exists []. now rewrite app_nil_r.
  - destruct (submit (service Service st) (lstrip_chars R_SLASH target)
                title body) as [s' permalink].
    match goal with
    | |- context [submit_all title body rest ?u ?s] =>
        destruct (IH u s) as (Hs & new & Hu & Hn)
    end.
    rewrite Hs, Hu. simpl. rewrite <- app_assoc. split; [reflexivity|].
    destruct permalink as [p|].
    + exists ((REDDIT_COM ++ p) :: new). rewrite <- app_assoc.
      split; [reflexivity|simpl; lia].
    + exists new. split; [reflexivity|lia].
Qed.

Lemma post_to_subreddits_spec (credentials : bool) (title body : str)
  (suggested : list str) (cfg : subreddits_config) (st st' : state Service)
  (urls : list str) :
  post_to_subreddits credentials title body suggested cfg st = (Some urls, st') ->
  exists targets,
    _allowed_subreddits lower suggested cfg 3 = Some targets /\
    (length targets <= 3)%nat /\
    submitted Service st' =
    submitted Service st ++ map (submission_of title body) targets /\
    (length urls <= length targets)%nat.
Proof.
  unfold RedditPoster.post_to_subreddits.
  destruct credentials; simpl; [|discriminate].
  pose proof (allowed_subreddits_spec lower suggested cfg 3) as Hspec.
  destruct (_allowed_subreddits lower suggested cfg 3) as [targets|];
    [|discriminate].
  assert (Hcap : (length targets <= 3)%nat).
  { destruct Hspec as [_ ->]. rewrite length_firstn. lia. }
  intros H. exists targets. split; [reflexivity|]. split; [exact Hcap|].
  destruct targets as [|target rest].
  - injection H as <- <-. simpl. rewrite app_nil_r. now split.
  - destruct (submit_all_spec title body (target :: rest) [] st)
      as (Hs & new & Hu & Hn).
    destruct (submit_all title body (target :: rest) [] st) as [urls' st''].
    injection H as <- <-. simpl in Hs, Hu. subst urls'. now split.
Qed.

Lemma submission_stripped (title body : str) (targets : list str) :
  Forall (fun s => startswith (to_subreddit s) (lit "r") = false /\
                   startswith (to_subreddit s) (lit "/") = false)
    (map (submission_of title body) targets).
Proof.
  apply Forall_forall. intros s Hs.
  apply in_map_iff in Hs as (target & <- & _). simpl.
  destruct (lstrip_chars R_SLASH target) as [|c rest] eqn:E; [now split|].
  apply lstrip_chars_head in E. simpl in E.
  apply orb_false_elim in E as [E1 E2]. apply orb_false_elim in E2 as [E2 _].
  simpl. rewrite E1, E2. now split.
Qed.

(** X5.  A call of [post_to_subreddits] that returns has made one submission
    for each name [_allowed_subreddits] allows, in order and three at most,
    whether or not the submissions before it failed; it returns one URL at
    most per submission. *)
Theorem post_to_subreddits_submissions (credentials : bool) (title body : str)
  (suggested : list str) (cfg : subreddits_config) (st st' : state Service)
  (urls : list str) :
  post_to_subreddits credentials title body suggested cfg st = (Some urls, st') ->
  exists targets,
    _allowed_subreddits lower suggested cfg 3 = Some targets /\
    (length targets <= 3)%nat /\
    submitted Service st' =
    submitted Service st ++ map (submission_of title body) targets /\
    (length urls <= length targets)%nat.
Proof. apply post_to_subreddits_spec. Qed.

(** X6.  The name a submission goes to is its target without any of its
    leading characters [r] and [/], not only without the prefix [r/]: it
    never begins with [r] or with [/]. *)
Theorem submissions_stripped (credentials : bool) (title body : str)
  (suggested : list str) (cfg : subreddits_config) (st st' : state Service)
  (result : option (list str)) :
  post_to_subreddits credentials title body suggested cfg st = (result, st') ->
  exists new,
    submitted Service st' = submitted Service st ++ new /\
    Forall (fun s => startswith (to_subreddit s) (lit "r") = false /\
                     startswith (to_subreddit s) (lit "/") = false) new.
Proof.
  intros H. destruct result as [urls|].
  - destruct (post_to_subreddits_spec _ _ _ _ _ _ _ _ H)
      as (targets & _ & _ & Hs & _).
    eexists. split; [exact Hs|apply submission_stripped].
  - exists []. split; [|constructor]. rewrite app_nil_r.
    unfold RedditPoster.post_to_subreddits in H.
    destruct credentials; simpl in H; [|now injection H as <-].
    destruct (_allowed_subreddits lower suggested cfg 3) as [[|t r]|].
    + discriminate.
    + destruct (submit_all title body (t :: r) [] st). discriminate.
    + now injection H as <-.
Qed.

End RedditPosting.

Section RedditRuns.
Import PyStr PyText RedditPoster Cases.

Lemma suggestions_allowed :
  _allowed_subreddits lower_ascii suggestions allow_list 3 =
  Some [lit "r/Stoicism"; lit "r/getdisciplined"].
Proof. reflexivity. Qed.

Lemma allowed_subreddits_filter_take_witness :
  [lit "r/Stoicism"; lit "r/getdisciplined"] =
  firstn (Z.to_nat 3)
    (map with_prefix
       (filter (fun name =>
                  mem (clean lower_ascii name)
                    (map (clean lower_ascii) (named (promoted allow_list))))
          suggestions)).
Proof.
  exact (allowed_subreddits_filter_take lower_ascii suggestions allow_list 3
           _ suggestions_allowed).
Defined.

Lemma allowed_subreddits_capped_witness :
  Z.of_nat (length [lit "r/Stoicism"; lit "r/getdisciplined"]) <= Z.max 0 3 /\
  Forall (fun name => startswith name R_SLASH = true)
    [lit "r/Stoicism"; lit "r/getdisciplined"].
Proof.
  exact (allowed_subreddits_capped lower_ascii suggestions allow_list 3
           _ suggestions_allowed).
Defined.

Lemma allowed_subreddits_sound_witness :
  exists suggestion sub n,
    In suggestion suggestions /\
    lit "r/getdisciplined" = with_prefix suggestion /\
    In sub (promoted allow_list) /\ promo sub = true /\
    name sub = Some n /\ clean lower_ascii n = clean lower_ascii suggestion.
Proof.
  apply (allowed_subreddits_sound lower_ascii suggestions allow_list 3
           _ (lit "r/getdisciplined") suggestions_allowed).
  right. now left.
Defined.

Lemma refused_run :
  post_to_subreddits lower_ascii nat refusing true (lit "t") (lit "b")
    suggestions allow_list reddit_start =
  (Some [],
   {| service := 2%nat;
      submitted := [{| to_subreddit := lit "Stoicism"; with_title := lit "t";
                       with_body := lit "b" |};
                    {| to_subreddit := lit "getdisciplined";
                       with_title := lit "t"; with_body := lit "b" |}] |}).
Proof. reflexivity. Qed.

Lemma post_to_subreddits_submissions_witness :
  exists targets,
    _allowed_subreddits lower_ascii suggestions allow_list 3 = Some targets /\
    (length targets <= 3)%nat /\
    submitted nat
      {| service := 2%nat;
         submitted := [{| to_subreddit := lit "Stoicism"; with_title := lit "t";
                          with_body := lit "b" |};
                       {| to_subreddit := lit "getdisciplined";
                          with_title := lit "t"; with_body := lit "b" |}] |} =
    submitted nat reddit_start ++
    map (fun target => {| to_subreddit := lstrip_chars R_SLASH target;
                          with_title := lit "t"; with_body := lit "b" |})
      targets /\
    (length (@nil str) <= length targets)%nat.
Proof.
  exact (post_to_subreddits_submissions lower_ascii nat refusing true
           (lit "t") (lit "b") suggestions allow_list reddit_start _ _
           refused_run).
Defined.

(** With [r/rust] the one name of the allow-list, the suggestion [rust] is
    allowed as [r/rust], and the submission goes to [ust]. *)
Lemma rust_run :
  post_to_subreddits lower_ascii nat accepting true (lit "t") (lit "b")
    [lit "rust"] rust_only reddit_start =
  (Some [lit "https://reddit.com/r/ust"],
   {| service := 1%nat;
      submitted := [{| to_subreddit := lit "ust"; with_title := lit "t";
                       with_body := lit "b" |}] |}).
Proof. reflexivity. Qed.

Lemma submissions_stripped_witness :
  exists new,
    submitted nat
      {| service := 1%nat;
         submitted := [{| to_subreddit := lit "ust"; with_title := lit "t";
                          with_body := lit "b" |}] |} =
    submitted nat reddit_start ++ new /\
    Forall (fun s => startswith (to_subreddit s) (lit "r") = false /\
                     startswith (to_subreddit s) (lit "/") = false) new.
Proof.
  exact (submissions_stripped lower_ascii nat accepting true (lit "t")
           (lit "b") [lit "rust"] rust_only reddit_start _ _ rust_run).
Defined.

End RedditRuns.

(** ** The choice of a topic and an angle *)

Section GeneratorFacts.
Import PyStr PyText Generator.

Variable randbelow : nat -> nat.
Hypothesis randbelow_lt : forall n, (0 < n)%nat -> (randbelow n < n)%nat.

Local Abbreviation choice := (@choice randbelow).
Local Abbreviation pick_combo := (pick_combo randbelow).

Lemma combo_eqb_eq (c d : combo) : combo_eqb c d = true <-> c = d.
Proof.
  destruct c as [c1 c2], d as [d1 d2]. unfold combo_eqb. simpl.
  rewrite andb_true_iff, !eqb_eq. split.
  - now intros [-> ->].
  - intros E. injection E as -> ->. now split.
Qed.

Lemma in_set_In (c : combo) (s : list combo) : in_set c s = true <-> In c s.
Proof.
  unfold in_set. rewrite existsb_exists. split.
  - intros (d & Hd & E). apply combo_eqb_eq in E. now subst.
  - intros H. exists c. split; [exact H|]. now apply combo_eqb_eq.
Qed.

Lemma in_available (pillars angles : list entry) (avoid : list combo)
  (p a : entry) :
  In (p, a) (available_combos pillars angles avoid) <->
  In p pillars /\ In a angles /\ ~ In (id p, id a) avoid.
Proof.
  unfold available_combos. rewrite in_flat_map. split.
  - intros (p' & Hp & H). apply in_map_iff in H as (a' & E & Ha).
    injection E as -> ->. apply filter_In in Ha as [Ha Hn].
    apply negb_true_iff in Hn. repeat split; try assumption.
    intros C. apply in_set_In in C. congruence.
  - intros (Hp & Ha & Hn). exists p. split; [exact Hp|].
    apply in_map. apply filter_In. split; [exact Ha|].
    apply negb_true_iff. destruct (in_set (id p, id a) avoid) eqn:E;
      [|reflexivity].
    apply in_set_In in E. contradiction.
Qed.

(** A choice from a sequence that is not empty is one of its elements. *)
Lemma choice_In {A : Type} (seq : list A) :
  seq <> [] -> exists x, choice seq = Some x /\ In x seq.
Proof.
  destruct seq as [|y seq]; [contradiction|]. intros _. unfold Generator.choice.
  destruct (nth_error (y :: seq) (randbelow (length (y :: seq)))) as [x|] eqn:E.
  - exists x. split; [reflexivity|]. eapply nth_error_In. exact E.
  - apply nth_error_None in E.
    pose proof (randbelow_lt (length (y :: seq)) ltac:(simpl; lia)). lia.
Qed.

Lemma pick_combo_spec (pillars angles : list entry) (recent : list combo) :
  let first := available_combos pillars angles recent in
  let second := available_combos pillars angles (firstn 12 recent) in
  (first <> [] /\ exists c, pick_combo pillars angles recent = Some c /\
                            In c first) \/
  (first = [] /\ second <> [] /\
   exists c, pick_combo pillars angles recent = Some c /\ In c second) \/
  (first = [] /\ second = [] /\ pick_combo pillars angles recent = None).
Proof.
  intros first second. unfold Generator.pick_combo. fold first. fold second.
  destruct first as [|c0 first0] eqn:E1.
  - destruct second as [|c1 second0] eqn:E2.
    + right. right. now repeat split.
    + right. left. split; [reflexivity|]. split; [discriminate|].
      apply choice_In. discriminate.
  - left. split; [discriminate|]. apply choice_In. discriminate.
Qed.

Lemma NoDup_pairs {A B : Type} (x : A) (l : list B) :
  NoDup l -> NoDup (map (pair x) l).
Proof.
  induction 1 as [|b l Hb _ IH]; simpl; constructor; [|exact IH].
  intros C. apply in_map_iff in C as (b' & E & Hb'). injection E as ->.
  contradiction.
Qed.

Lemma NoDup_list_prod {A B : Type} (l : list A) (l' : list B) :
  NoDup l -> NoDup l' -> NoDup (list_prod l l').
Proof.
  intros Hl Hl'. induction Hl as [|x l Hx _ IH]; simpl; [constructor|].
  apply NoDup_app; [now apply NoDup_pairs | exact IH |].
  intros [a b] H1 H2. apply in_map_iff in H1 as (b' & E & _).
  injection E as -> ->. apply in_prod_iff in H2 as [H2 _]. contradiction.
Qed.

(** With no pair left, every pair of identifiers is in the set avoided. *)
Lemma none_available (pillars angles : list entry) (avoid : list combo) :
  available_combos pillars angles avoid = [] <->
  forall p a, In p pillars -> In a angles -> In (id p, id a) avoid.
Proof.
  split.
  - intros E p a Hp Ha.
    destruct (in_set (id p, id a) avoid) eqn:S; [now apply in_set_In|].
    exfalso. assert (H : In (p, a) (available_combos pillars angles avoid)).
    { apply in_available. repeat split; try assumption.
      intros C. apply in_set_In in C. congruence. }
    rewrite E in H. contradiction.
  - intros H. destruct (available_combos pillars angles avoid) as [|[p a] l] eqn:E;
      [reflexivity|].
    exfalso. assert (Hin : In (p, a) (available_combos pillars angles avoid))
      by (rewrite E; now left).
    apply in_available in Hin as (Hp & Ha & Hn). apply Hn. now apply H.
Qed.

(** X7.  When some pair of a pillar and an angle is not among the recent
    pairs, [pick_combo] returns a pair of a pillar and an angle of the two
    files that is not among the recent pairs. *)
Theorem pick_combo_unused (pillars angles : list entry) (recent : list combo) :
  (exists p a, In p pillars /\ In a angles /\ ~ In (id p, id a) recent) ->
  exists p a,
    pick_combo pillars angles recent = Some (p, a) /\
    In p pillars /\ In a angles /\ ~ In (id p, id a) recent.
Proof.
  intros (p0 & a0 & H0).
  destruct (pick_combo_spec pillars angles recent)
    as [(_ & [p a] & E & Hin) | [(E0 & _) | (E0 & _)]].
  - exists p, a. split; [exact E|]. now apply in_available in Hin.
  - apply in_available in H0. rewrite E0 in H0. contradiction.
  - apply in_available in H0. rewrite E0 in H0. contradiction.
Qed.

(** X8.  With pillars of distinct identifiers, angles of distinct identifiers
    and fewer recent pairs than there are pairs of a pillar and an angle,
    [pick_combo] never raises and never repeats a recent pair. *)
Theorem pick_combo_pigeonhole (pillars angles : list entry)
  (recent : list combo) :
  NoDup (map id pillars) -> NoDup (map id angles) ->
  (length recent < length pillars * length angles)%nat ->
  exists p a,
    pick_combo pillars angles recent = Some (p, a) /\
    In p pillars /\ In a angles /\ ~ In (id p, id a) recent.
Proof.
  intros Hp Ha Hlen.
  destruct (pick_combo_spec pillars angles recent)
    as [(_ & [p a] & E & Hin) | [(E0 & _) | (E0 & _)]].
  - exists p, a. split; [exact E|]. now apply in_available in Hin.
  - exfalso. pose proof (proj1 (none_available _ _ _) E0) as E0'.
    assert (Hincl : incl (list_prod (map id pillars) (map id angles)) recent).
    { intros [i j] Hij. apply in_prod_iff in Hij as [Hi Hj].
      apply in_map_iff in Hi as (p & <- & Hi).
      apply in_map_iff in Hj as (a & <- & Hj). now apply E0'. }
    apply NoDup_incl_length in Hincl; [|now apply NoDup_list_prod].
    rewrite length_prod, !length_map in Hincl.
    exact (Nat.lt_irrefl _ (Nat.lt_le_trans _ _ _ Hlen Hincl)).
  - exfalso. pose proof (proj1 (none_available _ _ _) E0) as E0'.
    assert (Hincl : incl (list_prod (map id pillars) (map id angles)) recent).
    { intros [i j] Hij. apply in_prod_iff in Hij as [Hi Hj].
      apply in_map_iff in Hi as (p & <- & Hi).
      apply in_map_iff in Hj as (a & <- & Hj). now apply E0'. }
    apply NoDup_incl_length in Hincl; [|now apply NoDup_list_prod].
    rewrite length_prod, !length_map in Hincl.
    exact (Nat.lt_irrefl _ (Nat.lt_le_trans _ _ _ Hlen Hincl)).
Qed.

(** X9.  When every pair is among the recent pairs, [pick_combo] avoids the
    first twelve of them only: it returns a pair that is not among those
    twelve, and it raises exactly when every pair is among them. *)
Theorem pick_combo_exhausted (pillars angles : list entry)
  (recent : list combo) :
  (forall p a, In p pillars -> In a angles -> In (id p, id a) recent) ->
  (pick_combo pillars angles recent = None <->
   forall p a, In p pillars -> In a angles ->
               In (id p, id a) (firstn 12 recent)) /\
  (forall p a,
      pick_combo pillars angles recent = Some (p, a) ->
      In p pillars /\ In a angles /\ ~ In (id p, id a) (firstn 12 recent)).
Proof.
  intros Hall. apply (proj2 (none_available _ _ _)) in Hall.
  destruct (pick_combo_spec pillars angles recent)
    as [(Hne & _) | [(_ & Hne & [p a] & E & Hin) | (_ & E2 & E)]];
    [contradiction| |].
  - split.
    + split; [congruence|]. intros H.
      apply (proj2 (none_available _ _ _)) in H. contradiction.
    + intros p' a' E'. rewrite E in E'. injection E' as <- <-.
      now apply in_available in Hin.
  - split.
    + split; [|intros _; exact E]. intros _.
      now apply (proj1 (none_available _ _ _)).
    + intros p a E'. congruence.
Qed.

End GeneratorFacts.

Section GeneratorRuns.
Import PyStr PyText Generator Cases.

Lemma draw_first_lt (n : nat) : (0 < n)%nat -> (draw_first n < n)%nat.
Proof. intros H. exact H. Qed.

Lemma pick_combo_unused_witness :
  exists p a,
    pick_combo draw_first pillars angles one_recent = Some (p, a) /\
    In p pillars /\ In a angles /\ ~ In (id p, id a) one_recent.
Proof.
  apply (pick_combo_unused draw_first draw_first_lt pillars angles one_recent).
  exists (entry_of (lit "focus")), (entry_of (lit "story")).
  split; [right; now left|]. split; [now left|].
  intros [C|[]]. discriminate C.
Defined.

Lemma pick_combo_pigeonhole_witness :
  exists p a,
    pick_combo draw_first pillars angles one_recent = Some (p, a) /\
    In p pillars /\ In a angles /\ ~ In (id p, id a) one_recent.
Proof.
  apply (pick_combo_pigeonhole draw_first draw_first_lt pillars angles
           one_recent).
  - repeat constructor; simpl; intros C; repeat destruct C as [C|C];
      try discriminate C; exact C.
  - repeat constructor; simpl; intros C; repeat destruct C as [C|C];
      try discriminate C; exact C.
  - simpl. lia.
Defined.

Lemma pick_combo_exhausted_witness :
  (pick_combo draw_first pillars angles all_recent = None <->
   forall p a, In p pillars -> In a angles ->
               In (id p, id a) (firstn 12 all_recent)) /\
  (forall p a,
      pick_combo draw_first pillars angles all_recent = Some (p, a) ->
      In p pillars /\ In a angles /\ ~ In (id p, id a) (firstn 12 all_recent)).
Proof.
  apply (pick_combo_exhausted draw_first draw_first_lt pillars angles
           all_recent).
  intros p a Hp Ha. simpl in Hp, Ha.
  destruct Hp as [<-|[<-|[]]], Ha as [<-|[<-|[]]]; simpl; tauto.
Defined.

(** With all four pairs used within the last twelve, no pair is left and
    [random.choice] raises. *)
Example exhausted_run :
  pick_combo draw_first pillars angles all_recent = None.
Proof. reflexivity. Qed.

End GeneratorRuns.

(** ** The posters *)

Section TwitterFacts.
Import PyStr PyText Twitter.

Variable World : Type.
Variable create_tweet : World -> tweet -> World * option str.
Variable get_me : World -> World * option str.
Variable media_upload : World -> str -> World * option str.
Variable path_exists : World -> str -> bool.
Variable download_thumbnail : World -> str -> str -> World * option str.

Local Abbreviation state := (state World).
Local Abbreviation events := (events World).
Local Abbreviation do_create := (do_create World create_tweet).
Local Abbreviation do_get_me := (do_get_me World get_me).
Local Abbreviation thread_loop := (thread_loop World create_tweet get_me).
Local Abbreviation post := (post World create_tweet get_me).
Local Abbreviation post_thread :=
  (post_thread World create_tweet get_me media_upload path_exists
     download_thumbnail).

Lemma created_app (l l' : list event) : created (l ++ l') = created l ++ created l'.
Proof. unfold created. apply flat_map_app. Qed.

Lemma do_create_events (t : tweet) (st : state) :
  events (snd (do_create t st)) =
  events st ++ [Created t (fst (do_create t st))].
Proof.
  unfold Twitter.do_create. destruct (create_tweet (world World st) t).
  reflexivity.
Qed.

Lemma do_get_me_events (st : state) :
  events (snd (do_get_me st)) = events st ++ [AskedMe (fst (do_get_me st))].
Proof.
  unfold Twitter.do_get_me. destruct (get_me (world World st)). reflexivity.
Qed.

(** The loop after its first iteration: the tweets it creates are the first
    tweets of its list, each a reply to the one before, none with media; it
    asks for no user name; and when it returns, it has created them all and
    returns the URL it was given. *)
Lemma thread_loop_rest (tweets : list str) :
  forall (media_id previous url : option str) (st : state),
  exists new,
    events (snd (thread_loop false media_id previous url tweets st)) =
    events st ++ new /\
    (exists k, map (fun p => text (fst p)) (created new) = firstn k tweets) /\
    thread previous (created new) /\
    Forall (fun p => media_ids (fst p) = None) (created new) /\
    Forall (fun e => forall u, e <> AskedMe u) new /\
    (forall u,
        fst (thread_loop false media_id previous url tweets st) = Some u ->
        u = url /\ map (fun p => text (fst p)) (created new) = tweets).
Proof.
  induction tweets as [|t rest IH]; intros media_id previous url st.
  - exists []. simpl. rewrite app_nil_r. split; [reflexivity|].
    split; [now exists O|]. split; [exact I|]. split; [constructor|].
    split; [constructor|]. intros u E. injection E as <-. now split.
  - simpl Twitter.thread_loop.
    set (kwargs := {| text := t; media_ids := None;
                      in_reply_to_tweet_id :=
                        if truthy_opt previous then previous else None |}).
    pose proof (do_create_events kwargs st) as Hc.
    destruct (do_create kwargs st) as [[tweet_id|] st1]; simpl in Hc.
    + destruct (IH media_id (Some tweet_id) url st1)
        as (new & Hev & (k & Hk) & Ht & Hm & Ha & Hr).
      exists (Created kwargs (Some tweet_id) :: new).
      rewrite Hev, Hc, <- app_assoc. split; [reflexivity|].
      split; [exists (S k); simpl; now rewrite Hk|].
      split; [simpl; now split|]. split; [now constructor|].
      split; [constructor; [discriminate|exact Ha]|].
      intros u E. destruct (Hr u E) as [-> Hall]. split; [reflexivity|].
      simpl. now rewrite Hall.
    + exists [Created kwargs None]. split; [exact Hc|].
      split; [now exists O|]. split; [exact I|]. split; [constructor|].
      split; [repeat constructor; discriminate|]. discriminate.
Qed.

(** The whole loop. *)
Lemma thread_loop_first (tweets : list str) (media_id : option str)
  (st : state) :
  exists new,
    events (snd (thread_loop true media_id None None tweets st)) =
    events st ++ new /\
    (exists k, map (fun p => text (fst p)) (created new) = firstn k tweets) /\
    thread None (created new) /\
    Forall (fun p => media_ids (fst p) = None) (tl (created new)) /\
    Forall (fun p => media_ids (fst p) =
                     if truthy_opt media_id
                     then option_map (fun m => [m]) media_id else None)
      (firstn 1 (created new)) /\
    (forall u,
        fst (thread_loop true media_id None None tweets st) = Some u ->
        map (fun p => text (fst p)) (created new) = tweets /\
        match created new with
        | [] => u = None
        | (t, i) :: _ =>
            exists username,
              u = Some (status_url username i) /\
              In (AskedMe (Some username)) new
        end).
Proof.
  destruct tweets as [|t rest].
  - exists []. simpl. rewrite app_nil_r. split; [reflexivity|].
    split; [now exists O|]. split; [exact I|]. split; [constructor|].
    split; [constructor|]. intros u E. injection E as <-. now split.
  - simpl Twitter.thread_loop.
    set (kwargs := {| text := t;
                      media_ids := if truthy_opt media_id
                                   then option_map (fun m => [m]) media_id
                                   else None;
                      in_reply_to_tweet_id := None |}).
    pose proof (do_create_events kwargs st) as Hc.
    destruct (do_create kwargs st) as [[tweet_id|] st1]; simpl in Hc.
    + pose proof (do_get_me_events st1) as Hg.
      destruct (do_get_me st1) as [[username|] st2]; simpl in Hg.
      * destruct (thread_loop_rest rest media_id (Some tweet_id)
                    (Some (status_url username tweet_id)) st2)
          as (new & Hev & (k & Hk) & Ht & Hm & Ha & Hr).
        exists (Created kwargs (Some tweet_id) :: AskedMe (Some username) :: new).
        rewrite Hev, Hg, Hc, <- !app_assoc. split; [reflexivity|].
        simpl created. split; [exists (S k); simpl; now rewrite Hk|].
        split; [simpl; now split|]. split; [exact Hm|].
        split; [now repeat constructor|].
        intros u E. destruct (Hr u E) as [-> Hall]. simpl.
        split; [now rewrite Hall|]. exists username.
        split; [reflexivity|]. right. now left.
      * exists [Created kwargs (Some tweet_id); AskedMe None].
        cbn [snd fst]. rewrite Hg, Hc, <- app_assoc. split; [reflexivity|].
        split; [now exists 1%nat|]. split; [simpl; now split|].
        split; [constructor|]. split; [now repeat constructor|]. discriminate.
    + exists [Created kwargs None]. split; [exact Hc|].
      split; [now exists O|]. split; [exact I|]. split; [constructor|].
      split; [constructor|]. discriminate.
Qed.

(** Before the loop: a download and an upload at most, and no tweet. *)
Lemma refresh_thumbnail_events (thumbnail_path video_id : option str)
  (st : state) :
  exists pre,
    events (snd (refresh_thumbnail World path_exists download_thumbnail
                   thumbnail_path video_id st)) = events st ++ pre /\
    created pre = [] /\ (length pre <= 1)%nat.
Proof.
  assert (Hsame : exists pre, events st = events st ++ pre /\
                              created pre = [] /\ (length pre <= 1)%nat).
  { exists []. rewrite app_nil_r. repeat split. simpl. lia. }
  unfold refresh_thumbnail.
  destruct thumbnail_path as [[|c p]|]; try exact Hsame.
  destruct video_id as [[|d v]|]; try exact Hsame.
  destruct (path_exists (world World st) (c :: p)); simpl; [exact Hsame|].
  unfold do_download.
  destruct (download_thumbnail (world World st) (d :: v) (d :: v)) as [w [f|]];
    eexists; simpl; (split; [reflexivity|]); split; try reflexivity;
    simpl; lia.
Qed.

Lemma upload_media_events (image_path : option str) (st : state) :
  exists pre,
    events (snd (_upload_media World media_upload path_exists image_path st))
    = events st ++ pre /\
    created pre = [] /\ (length pre <= 1)%nat /\
    (forall m,
        fst (_upload_media World media_upload path_exists image_path st)
        = Some m ->
        exists filename, pre = [Uploaded filename (Some m)]).
Proof.
  assert (Hsame : exists pre,
             events (snd (@None str, st)) = events st ++ pre /\
             created pre = [] /\ (length pre <= 1)%nat /\
             (forall m, fst (@None str, st) = Some m ->
                        exists filename, pre = [Uploaded filename (Some m)])).
  { exists []. simpl. rewrite app_nil_r. repeat split; [lia|discriminate]. }
  unfold _upload_media.
  destruct image_path as [[|c p]|]; try exact Hsame.
  destruct (path_exists (world World st) (c :: p)); [|exact Hsame].
  unfold do_upload.
  destruct (media_upload (world World st) (c :: p)) as [w [m|]];
    eexists; simpl; (split; [reflexivity|]); split; try reflexivity;
    (split; [simpl; lia|]).
  - intros m' E. injection E as <-. now exists (c :: p).
  - discriminate.
Qed.

(** Every run of [post_thread] on tweets that are not none. *)
Lemma post_thread_spec (credentials : bool) (t0 : str) (ts : list str)
  (thumbnail_path video_id : option str) (st : state) :
  let tweets := map (fun t => replace t LINK (youtube_url video_id)) (t0 :: ts) in
  exists pre new media_id,
    events (snd (post_thread credentials (t0 :: ts) thumbnail_path video_id st))
    = events st ++ pre ++ new /\
    created pre = [] /\
    (forall m, media_id = Some m ->
               exists filename, In (Uploaded filename (Some m)) pre) /\
    (exists k, map (fun p => text (fst p)) (created new) = firstn k tweets) /\
    thread None (created new) /\
    Forall (fun p => media_ids (fst p) = None) (tl (created new)) /\
    Forall (fun p => media_ids (fst p) =
                     if truthy_opt media_id
                     then option_map (fun m => [m]) media_id else None)
      (firstn 1 (created new)) /\
    (forall u,
        fst (post_thread credentials (t0 :: ts) thumbnail_path video_id st)
        = Some u ->
        map (fun p => text (fst p)) (created new) = tweets /\
        match created new with
        | [] => u = None
        | (t, i) :: _ =>
            exists username,
              u = Some (status_url username i) /\
              In (AskedMe (Some username)) new
        end).
Proof.
  intros tweets. unfold Twitter.post_thread. fold tweets.
  destruct (refresh_thumbnail_events thumbnail_path video_id st)
    as (pre1 & H1 & C1 & _).
  destruct (refresh_thumbnail World path_exists download_thumbnail
              thumbnail_path video_id st) as [thumbnail_path' st1].
  simpl in H1. destruct credentials; cbn [negb].
  - destruct (upload_media_events thumbnail_path' st1)
      as (pre2 & H2 & C2 & _ & Hm).
    destruct (_upload_media World media_upload path_exists thumbnail_path' st1)
      as [media_id st2].
    simpl in H2, Hm.
    destruct (thread_loop_first tweets media_id st2)
      as (new & Hev & Hk & Ht & Hrest & Hfirst & Hr).
    exists (pre1 ++ pre2), new, media_id.
    rewrite Hev, H2, H1, <- !app_assoc. split; [reflexivity|].
    split; [rewrite created_app, C1, C2; reflexivity|].
    split.
    { intros m E. destruct (Hm m E) as (filename & ->). exists filename.
      apply in_or_app. right. now left. }
    split; [exact Hk|]. split; [exact Ht|]. split; [exact Hrest|].
    split; [exact Hfirst|exact Hr].
  - exists pre1, [], None. rewrite app_nil_r. split; [exact H1|].
    split; [exact C1|]. split; [discriminate|]. split; [now exists O|].
    split; [exact I|]. split; [constructor|]. split; [constructor|].
    discriminate.
Qed.

(** X10.  A call of [post_thread] that returns a URL has created one tweet
    per text, in order, each text with its placeholder replaced; the first
    tweet replies to nothing and every other tweet replies to the tweet
    before it; only the first tweet carries media, the one identifier of an
    upload that succeeded; and the URL is that of the first tweet, under the
    user name the service gave. *)
Theorem post_thread_posts_thread (credentials : bool) (tweets : list str)
  (thumbnail_path video_id : option str) (st st' : state) (url : str) :
  post_thread credentials tweets thumbnail_path video_id st
  = (Some (Some url), st') ->
  exists new t i rest username,
    events st' = events st ++ new /\
    created new = (t, i) :: rest /\
    map (fun p => text (fst p)) (created new) =
    map (fun t => replace t LINK (youtube_url video_id)) tweets /\
    thread None (created new) /\
    Forall (fun p => media_ids (fst p) = None) rest /\
    (media_ids t = None \/
     exists m filename,
       media_ids t = Some [m] /\ In (Uploaded filename (Some m)) new) /\
    url = status_url username i /\
    In (AskedMe (Some username)) new.
Proof.
  destruct tweets as [|t0 ts]; [discriminate|]. intros H.
  destruct (post_thread_spec credentials t0 ts thumbnail_path video_id st)
    as (pre & new & media_id & Hev & Hpre & Hm & _ & Ht & Hrest & Hfirst & Hr).
  rewrite H in Hev, Hr. simpl in Hev.
  destruct (Hr (Some url) eq_refl) as [Htexts Hu].
  destruct (created new) as [|[t i] rest] eqn:Ec; [discriminate|].
  destruct Hu as (username & Eu & Hin). injection Eu as ->.
  exists (pre ++ new), t, i, rest, username.
  rewrite created_app, Hpre, Ec. simpl app.
  split; [exact Hev|]. split; [reflexivity|]. split; [exact Htexts|].
  split; [exact Ht|]. split; [exact Hrest|]. split.
  - simpl in Hfirst. inversion Hfirst as [|x l Hx _]; subst. simpl in Hx.
    destruct media_id as [[|c m]|]; simpl in Hx; try (now left).
    right. destruct (Hm (c :: m) eq_refl) as (filename & Hf).
    exists (c :: m), filename. split; [exact Hx|]. apply in_or_app. now left.
  - split; [reflexivity|]. apply in_or_app. now right.
Qed.

(** X11.  Whatever a call of [post_thread] comes to, the tweets it has
    created are the first of its texts, in order and as one thread: when a
    request raises, the tweets created before it stay posted. *)
Theorem post_thread_partial (credentials : bool) (tweets : list str)
  (thumbnail_path video_id : option str) (st : state) :
  exists new k,
    events (snd (post_thread credentials tweets thumbnail_path video_id st))
    = events st ++ new /\
    map (fun p => text (fst p)) (created new) =
    firstn k (map (fun t => replace t LINK (youtube_url video_id)) tweets) /\
    thread None (created new).
Proof.
  destruct tweets as [|t0 ts].
  - exists [], O. simpl. rewrite app_nil_r. now repeat split.
  - destruct (post_thread_spec credentials t0 ts thumbnail_path video_id st)
      as (pre & new & media_id & Hev & Hpre & _ & (k & Hk) & Ht & _).
    exists (pre ++ new), k. rewrite created_app, Hpre. simpl app.
    split; [exact Hev|]. split; [exact Hk|exact Ht].
Qed.

(** X12.  When no text holds the placeholder, a call of [post_thread] that
    returns a URL has posted the texts as they are. *)
Theorem post_thread_plain_texts (credentials : bool) (tweets : list str)
  (thumbnail_path video_id : option str) (st st' : state) (url : str) :
  Forall (fun t => contains t LINK = false) tweets ->
  post_thread credentials tweets thumbnail_path video_id st
  = (Some (Some url), st') ->
  exists new,
    events st' = events st ++ new /\
    map (fun p => text (fst p)) (created new) = tweets.
Proof.
  intros Hplain H. destruct tweets as [|t0 ts]; [discriminate|].
  destruct (post_thread_spec credentials t0 ts thumbnail_path video_id st)
    as (pre & new & media_id & Hev & Hpre & _ & _ & _ & _ & _ & Hr).
  rewrite H in Hev, Hr. simpl in Hev.
  destruct (Hr (Some url) eq_refl) as [Htexts _].
  exists (pre ++ new). rewrite created_app, Hpre. simpl app.
  split; [exact Hev|]. rewrite Htexts.
  rewrite <- (map_id (t0 :: ts)) at 2. apply map_ext_in.
  intros t Hin. rewrite Forall_forall in Hplain.
  apply replace_absent. now apply Hplain.
Qed.

(** X13.  A call of [post] that returns has created the tweet, asked for the
    user name and, when there is a reply text, created the reply as a reply
    to the tweet, in that order and nothing else; the URL is that of the
    tweet. *)
Theorem post_returns (credentials : bool) (tweet_text : str)
  (reply_text : option str) (st st' : state) (url : str) :
  post credentials tweet_text reply_text st = (Some url, st') ->
  exists i username tail,
    url = status_url username i /\
    events st' =
    events st ++
    [Created {| text := tweet_text; media_ids := None;
                in_reply_to_tweet_id := None |} (Some i);
     AskedMe (Some username)] ++ tail /\
    (if truthy_opt reply_text
     then exists r i',
         reply_text = Some r /\
         tail = [Created {| text := r; media_ids := None;
                            in_reply_to_tweet_id := Some i |} (Some i')]
     else tail = []).
Proof.
  unfold Twitter.post. destruct credentials; cbn [negb]; [|discriminate].
  set (main := {| text := tweet_text; media_ids := None;
                  in_reply_to_tweet_id := None |}).
  pose proof (do_create_events main st) as Hc.
  destruct (do_create main st) as [[i|] st1]; [|discriminate]. simpl in Hc.
  pose proof (do_get_me_events st1) as Hg.
  destruct (do_get_me st1) as [[username|] st2]; [|discriminate]. simpl in Hg.
  destruct reply_text as [[|c r]|].
  - intros H. injection H as <- <-. exists i, username, [].
    rewrite Hg, Hc, <- app_assoc. now repeat split.
  - set (reply := {| text := c :: r; media_ids := None;
                     in_reply_to_tweet_id := Some i |}).
    pose proof (do_create_events reply st2) as Hc2.
    destruct (do_create reply st2) as [[i'|] st3]; [|discriminate].
    simpl in Hc2. intros H. injection H as <- <-.
    exists i, username, [Created reply (Some i')].
    rewrite Hc2, Hg, Hc, <- !app_assoc. split; [reflexivity|].
    split; [reflexivity|]. simpl. now exists (c :: r), i'.
  - intros H. injection H as <- <-. exists i, username, [].
    rewrite Hg, Hc, <- app_assoc. now repeat split.
Qed.

(** X14.  A call of [post] that raises has created the tweet at most, and no
    reply: either nothing is published, or the tweet is published and the
    request that raised is the one for the user name or the one for the
    reply. *)
Theorem post_raises (credentials : bool) (tweet_text : str)
  (reply_text : option str) (st st' : state) :
  post credentials tweet_text reply_text st = (None, st') ->
  exists new,
    events st' = events st ++ new /\
    (created new = [] \/
     exists i,
       created new =
       [({| text := tweet_text; media_ids := None;
            in_reply_to_tweet_id := None |}, i)] /\
       (In (AskedMe None) new \/ exists reply, In (Created reply None) new)).
Proof.
  unfold Twitter.post. destruct credentials; cbn [negb].
  - set (main := {| text := tweet_text; media_ids := None;
                    in_reply_to_tweet_id := None |}).
    pose proof (do_create_events main st) as Hc.
    destruct (do_create main st) as [[i|] st1]; simpl in Hc.
    + pose proof (do_get_me_events st1) as Hg.
      destruct (do_get_me st1) as [[username|] st2]; simpl in Hg.
      * destruct reply_text as [[|c r]|]; try discriminate.
        set (reply := {| text := c :: r; media_ids := None;
                         in_reply_to_tweet_id := Some i |}).
        pose proof (do_create_events reply st2) as Hc2.
        destruct (do_create reply st2) as [[i'|] st3]; [discriminate|].
        simpl in Hc2. intros H. injection H as <-.
        exists [Created main (Some i); AskedMe (Some username);
                Created reply None].
        rewrite Hc2, Hg, Hc, <- !app_assoc. split; [reflexivity|].
        right. exists i. split; [reflexivity|]. right. exists reply.
        right. right. now left.
      * intros H. injection H as <-.
        exists [Created main (Some i); AskedMe None].
        rewrite Hg, Hc, <- app_assoc. split; [reflexivity|].
        right. exists i. split; [reflexivity|]. left. right. now left.
    + intros H. injection H as <-. exists [Created main None].
      split; [exact Hc|]. now left.
  - intros H. injection H as <-. exists []. rewrite app_nil_r.
    split; [reflexivity|]. now left.
Qed.

End TwitterFacts.

Section TwitterRuns.
Import PyStr PyText Twitter Cases.

Local Abbreviation sample_thread tweets :=
  (post_thread nat tw_create tw_me tw_upload tw_exists tw_download true
     tweets (Some (lit "thumb.jpg")) (Some (lit "abc")) tw_start).

(** A thread of two tweets with a thumbnail: the upload, the first tweet with
    the media and the link, the user name, the second tweet as a reply. *)
Example thread_run :
  sample_thread [lit "one [LINK]"; lit "two"] =
  (Some (Some (lit "https://twitter.com/host/status/t0")),
   {| world := 2%nat;
      events :=
        [Uploaded (lit "thumb.jpg") (Some (lit "m1"));
         Created {| text := lit "one https://youtu.be/abc";
                    media_ids := Some [lit "m1"];
                    in_reply_to_tweet_id := None |} (Some (lit "t0"));
         AskedMe (Some (lit "host"));
         Created {| text := lit "two"; media_ids := None;
                    in_reply_to_tweet_id := Some (lit "t0") |}
           (Some (lit "t1"))] |}).
Proof. reflexivity. Qed.

Lemma post_thread_posts_thread_witness :
  exists new t i rest username,
    events nat (snd (sample_thread [lit "one [LINK]"; lit "two"])) =
    events nat tw_start ++ new /\
    created new = (t, i) :: rest /\
    map (fun p => text (fst p)) (created new) =
    map (fun t => replace t LINK (youtube_url (Some (lit "abc"))))
      [lit "one [LINK]"; lit "two"] /\
    thread None (created new) /\
    Forall (fun p => media_ids (fst p) = None) rest /\
    (media_ids t = None \/
     exists m filename,
       media_ids t = Some [m] /\ In (Uploaded filename (Some m)) new) /\
    lit "https://twitter.com/host/status/t0" = status_url username i /\
    In (AskedMe (Some username)) new.
Proof.
  apply (post_thread_posts_thread nat tw_create tw_me tw_upload tw_exists
           tw_download true [lit "one [LINK]"; lit "two"]
           (Some (lit "thumb.jpg")) (Some (lit "abc")) tw_start).
  reflexivity.
Defined.

Lemma post_thread_plain_texts_witness :
  exists new,
    events nat (snd (sample_thread [lit "one"; lit "two"])) =
    events nat tw_start ++ new /\
    map (fun p => text (fst p)) (created new) = [lit "one"; lit "two"].
Proof.
  apply (post_thread_plain_texts nat tw_create tw_me tw_upload tw_exists
           tw_download true [lit "one"; lit "two"]
           (Some (lit "thumb.jpg")) (Some (lit "abc")) tw_start
           _ (lit "https://twitter.com/host/status/t0")).
  - repeat constructor.
  - reflexivity.
Defined.

Lemma post_returns_witness :
  exists i username tail,
    lit "https://twitter.com/host/status/t0" = status_url username i /\
    events nat (snd (post nat tw_create tw_me true (lit "hello")
                       (Some (lit "more")) tw_start)) =
    events nat tw_start ++
    [Created {| text := lit "hello"; media_ids := None;
                in_reply_to_tweet_id := None |} (Some i);
     AskedMe (Some username)] ++ tail /\
    (if truthy_opt (Some (lit "more"))
     then exists r i',
         Some (lit "more") = Some r /\
         tail = [Created {| text := r; media_ids := None;
                            in_reply_to_tweet_id := Some i |} (Some i')]
     else tail = []).
Proof.
  apply (post_returns nat tw_create tw_me true (lit "hello")
           (Some (lit "more")) tw_start).
  reflexivity.
Defined.

Lemma post_raises_witness :
  exists new,
    events nat (snd (post nat tw_create_once tw_me true (lit "hello")
                       (Some (lit "more")) tw_start)) =
    events nat tw_start ++ new /\
    (created new = [] \/
     exists i,
       created new =
       [({| text := lit "hello"; media_ids := None;
            in_reply_to_tweet_id := None |}, i)] /\
       (In (AskedMe None) new \/ exists reply, In (Created reply None) new)).
Proof.
  apply (post_raises nat tw_create_once tw_me true (lit "hello")
           (Some (lit "more")) tw_start).
  reflexivity.
Defined.

End TwitterRuns.

(** ** The playlist monitor *)

Section MonitorFacts.
Import PyStr PyText YoutubeMonitor.

Variable Service : Type.
Variable playlistItems_list :
  Service -> str -> option str -> Service * result response.
Variable channels_list : Service -> str -> Service * result (list lookup).

Local Abbreviation state := (state Service).
Local Abbreviation events := (events Service).
Local Abbreviation poll_loop := (poll_loop Service playlistItems_list).
Local Abbreviation _poll_playlist := (_poll_playlist Service playlistItems_list).
Local Abbreviation poll_or_empty := (poll_or_empty Service playlistItems_list).
Local Abbreviation get_recent_videos :=
  (get_recent_videos Service playlistItems_list channels_list).

Lemma until_all {A : Type} (p : A -> bool) (l l' : list A) :
  Forall (fun x => p x = false) l -> until p (l ++ l') = l ++ until p l'.
Proof.
  induction 1 as [|x l Hx _ IH]; [reflexivity|].
  simpl. now rewrite Hx, IH.
Qed.

Lemma until_In {A : Type} (p : A -> bool) (l : list A) (x : A) :
  In x (until p l) -> p x = false /\ In x l.
Proof.
  induction l as [|y l IH]; simpl; [contradiction|].
  destruct (p y) eqn:E; [contradiction|].
  intros [->|H]; [now split; [|left]|].
  destruct (IH H) as [H1 H2]. split; [exact H1 | now right].
Qed.

(** The loop over the items of one page. *)
Lemma scan_items_spec (cutoff_iso channel_name : str) (page_items : list item) :
  forall videos,
    match scan_items cutoff_iso channel_name page_items videos with
    | Continue vs =>
        Forall (fun it => old cutoff_iso it = false /\
                          came_back (video_of channel_name it) = true)
          page_items /\
        map Ok vs
        = map Ok videos ++ map (video_of channel_name) page_items
    | Return vs =>
        existsb (old cutoff_iso) page_items = true /\
        map Ok vs
        = map Ok videos ++
          map (video_of channel_name) (until (old cutoff_iso) page_items)
    | Raised e =>
        exists it, In it (until (old cutoff_iso) page_items) /\
                   video_of channel_name it = Raise e
    end.
Proof.
  induction page_items as [|it rest IH]; intros videos.
  - simpl. split; [constructor | now rewrite app_nil_r].
  - destruct it as [sn|].
    + cbn [scan_items until existsb old].
      destruct (published sn) as [published_at|e] eqn:P.
      * destruct (ltb published_at cutoff_iso) eqn:E.
        -- split; [reflexivity | now rewrite app_nil_r].
        -- destruct (video_of channel_name (Some sn)) as [v|e] eqn:V.
           ++ specialize (IH (videos ++ [v])).
              destruct (scan_items cutoff_iso channel_name rest
                          (videos ++ [v])) as [vs|vs|e].
              ** destruct IH as [Hall Hvs]. split.
                 --- constructor; [|exact Hall]. cbn [old]. rewrite P, V.
                     now split.
                 --- rewrite Hvs, map_app. cbn [map]. rewrite V.
                     now rewrite <- app_assoc.
              ** destruct IH as [Hex Hvs]. split; [exact Hex|].
                 rewrite Hvs, map_app. cbn [map]. rewrite V.
                 now rewrite <- app_assoc.
              ** destruct IH as (it & Hin & Hit). exists it.
                 split; [now right | exact Hit].
           ++ exists (Some sn). split; [now left | exact V].
      * exists (Some sn). split; [now left|]. cbn [video_of]. now rewrite P.
    + cbn [scan_items until old]. exists None. split; [now left | reflexivity].
Qed.

Lemma ends_with_cons (p : option str * result response)
  (pages : list (option str * result response))
  (P : result response -> Prop) :
  ends_with pages P -> ends_with (p :: pages) P.
Proof.
  intros (front & t & page & -> & H). now exists (p :: front), t, page.
Qed.

Lemma ends_with_one (token : option str) (page : result response)
  (P : result response -> Prop) :
  P page -> ends_with [(token, page)] P.
Proof. intros H. now exists [], token, page. Qed.

(** The loop over the pages: its requests follow one another, and its end
    tells how the last of them came back. *)
Lemma poll_loop_spec (playlist_id channel_name cutoff_iso : str) (fuel : nat) :
  forall token videos (st : state),
  exists pages,
    events (snd (poll_loop fuel playlist_id channel_name cutoff_iso
                   token videos st))
    = events st ++ map (page_event playlist_id) pages /\
    chained cutoff_iso channel_name token pages /\
    match fst (poll_loop fuel playlist_id channel_name cutoff_iso
                 token videos st) with
    | None =>
        length pages = fuel /\
        Forall (fun p => goes_on cutoff_iso channel_name (snd p)) pages
    | Some (Ok vs) =>
        map Ok vs
        = map Ok videos ++
          map (video_of channel_name)
            (until (old cutoff_iso) (fetched pages)) /\
        ends_with pages (fun page => came_back page = true)
    | Some (Raise e) =>
        ends_with pages (fun page => page = Raise e) \/
        (ends_with pages (fun page => came_back page = true) /\
         exists it, In it (until (old cutoff_iso) (fetched pages)) /\
                    video_of channel_name it = Raise e)
    end.
Proof.
  induction fuel as [|fuel IH]; intros token videos st.
  - exists []. simpl. rewrite app_nil_r. repeat split; constructor.
  - cbn [poll_loop]. unfold do_list_items.
    destruct (playlistItems_list (service Service st) playlist_id token)
      as [s [page|e]] eqn:E.
    + pose proof (scan_items_spec cutoff_iso channel_name (items_of page)
                    videos) as Hscan.
      destruct (scan_items cutoff_iso channel_name (items_of page) videos)
        as [vs|vs|e].
      * destruct Hscan as [Hall Hvs].
        assert (Hfresh : Forall (fun it => old cutoff_iso it = false)
                           (items_of page)).
        { eapply Forall_impl; [|exact Hall]. now intros it [H _]. }
        destruct (truthy_opt (nextPageToken page)) eqn:T.
        -- match goal with
           | |- context [poll_loop fuel _ _ _ _ _ ?st1] =>
               destruct (IH (nextPageToken page) vs st1)
                 as (pages & Hev & Hch & Hout);
               destruct (poll_loop fuel playlist_id channel_name cutoff_iso
                           (nextPageToken page) vs st1) as [out st2]
           end.
           cbn [fst snd events] in *.
           exists ((token, Ok page) :: pages). split; [|split].
           ++ rewrite Hev. cbn [map]. now rewrite <- app_assoc.
           ++ cbn [chained]. split; [reflexivity|].
              destruct pages as [|p pages]; [exact I|].
              split; [|exact Hch]. cbn [goes_on]. now split.
           ++ assert (Hf : fetched ((token, Ok page) :: pages)
                           = items_of page ++ fetched pages) by reflexivity.
              destruct out as [[vs'|e]|].
              ** destruct Hout as [Hvs' Hend]. split.
                 --- rewrite Hvs', Hvs, Hf, until_all by exact Hfresh.
                     now rewrite map_app, app_assoc.
                 --- now apply ends_with_cons.
              ** destruct Hout as [Hend | (Hend & it & Hin & Hit)].
                 --- left. now apply ends_with_cons.
                 --- right. split; [now apply ends_with_cons|].
                     exists it. split; [|exact Hit].
                     rewrite Hf, until_all by exact Hfresh.
                     apply in_or_app. now right.
              ** destruct Hout as [Hlen Hgo]. split.
                 --- cbn [length]. now rewrite Hlen.
                 --- constructor; [|exact Hgo]. cbn [snd goes_on]. now split.
        -- cbn [fst snd events]. exists [(token, Ok page)].
           split; [reflexivity|]. split; [now split|]. split.
           ++ cbn [fetched flat_map snd]. rewrite app_nil_r.
              rewrite <- (app_nil_r (items_of page)) at 1.
              rewrite until_all by exact Hfresh. cbn [until].
              now rewrite app_nil_r.
           ++ now apply ends_with_one.
      * destruct Hscan as [Hex Hvs]. cbn [fst snd events].
        exists [(token, Ok page)].
        split; [reflexivity|]. split; [now split|]. split.
        -- cbn [fetched flat_map snd]. now rewrite app_nil_r.
        -- now apply ends_with_one.
      * destruct Hscan as (it & Hin & Hit). cbn [fst snd events].
        exists [(token, Ok page)].
        split; [reflexivity|]. split; [now split|]. right. split.
        -- now apply ends_with_one.
        -- exists it. cbn [fetched flat_map snd]. rewrite app_nil_r.
           now split.
    + cbn [fst snd events]. exists [(token, Raise e)].
      split; [reflexivity|]. split; [now split|].
      left. now apply ends_with_one.
Qed.

Lemma poll_playlist_spec (fuel : nat)
  (playlist_id channel_name cutoff_iso : str) (st : state) :
  exists pages,
    events (snd (_poll_playlist fuel playlist_id channel_name cutoff_iso st))
    = events st ++ map (page_event playlist_id) pages /\
    chained cutoff_iso channel_name None pages /\
    match fst (_poll_playlist fuel playlist_id channel_name cutoff_iso st) with
    | None =>
        length pages = fuel /\
        Forall (fun p => goes_on cutoff_iso channel_name (snd p)) pages
    | Some (Ok vs) =>
        map Ok vs
        = map (video_of channel_name)
            (until (old cutoff_iso) (fetched pages)) /\
        ends_with pages (fun page => came_back page = true)
    | Some (Raise e) =>
        ends_with pages (fun page => page = Raise e) \/
        (ends_with pages (fun page => came_back page = true) /\
         exists it, In it (until (old cutoff_iso) (fetched pages)) /\
                    video_of channel_name it = Raise e)
    end.
Proof.
  exact (poll_loop_spec playlist_id channel_name cutoff_iso fuel None [] st).
Qed.

Lemma video_of_fresh (cutoff_iso name : str) (it : item) (v : video) :
  old cutoff_iso it = false ->
  video_of name it = Ok v ->
  ltb (published_at v) cutoff_iso = false /\ channel_name v = name.
Proof.
  destruct it as [sn|]; [|discriminate]. cbn [old video_of].
  destruct (published sn); [|discriminate].
  destruct (videoId sn); try discriminate.
  destruct (snippetTitle sn); [|discriminate].
  intros E H. injection H as <-. now split.
Qed.

Lemma map_Ok_Forall {A B : Type} (f : A -> result B) (P : B -> Prop)
  (vs : list B) :
  forall l,
    map Ok vs = map f l ->
    (forall x v, In x l -> f x = Ok v -> P v) ->
    Forall P vs.
Proof.
  induction vs as [|v vs IH]; intros [|x l] H HP; try discriminate;
    [constructor|].
  cbn [map] in H. injection H as Hv Hvs. constructor.
  - apply (HP x); [now left | now symmetry].
  - apply (IH l Hvs). intros y w Hy. apply HP. now right.
Qed.

Lemma page_events_inj (playlist_id : str)
  (l l' : list (option str * result response)) :
  map (page_event playlist_id) l = map (page_event playlist_id) l' -> l = l'.
Proof.
  revert l'. induction l as [|[t p] l IH]; intros [|[t' p'] l'] H;
    try discriminate; [reflexivity|].
  cbn [map] in H. unfold page_event in H at 1 3. cbn [fst snd] in H.
  injection H as -> -> H. f_equal. now apply IH.
Qed.

(** X15 ([_poll_playlist], lines 70-84): every video [_poll_playlist]
    returns carries the name of the channel and a date that is not before
    the cutoff, in the order of strings. *)
Theorem poll_playlist_fresh (fuel : nat)
  (playlist_id channel_name cutoff_iso : str) (st st' : state)
  (videos : list video) :
  _poll_playlist fuel playlist_id channel_name cutoff_iso st
  = (Some (Ok videos), st') ->
  Forall (fun v => ltb (published_at v) cutoff_iso = false /\
                   YoutubeMonitor.channel_name v = channel_name) videos.
Proof.
  intros Hrun.
  destruct (poll_playlist_spec fuel playlist_id channel_name cutoff_iso st)
    as (pages & _ & _ & Hout).
  rewrite Hrun in Hout. cbn [fst] in Hout. destruct Hout as [Hvs _].
  apply (map_Ok_Forall _ _ _ _ Hvs). intros it v Hin Hv.
  apply until_In in Hin as [Hold _].
  exact (video_of_fresh cutoff_iso channel_name it v Hold Hv).
Qed.

(** X16 ([_poll_playlist], lines 59-90): the videos returned are the items of
    the pages requested, in their order, up to the first item older than the
    cutoff, each with all of its keys. *)
Theorem poll_playlist_prefix (fuel : nat)
  (playlist_id channel_name cutoff_iso : str) (st st' : state)
  (videos : list video) :
  _poll_playlist fuel playlist_id channel_name cutoff_iso st
  = (Some (Ok videos), st') ->
  exists pages,
    events st' = events st ++ map (page_event playlist_id) pages /\
    map Ok videos
    = map (video_of channel_name) (until (old cutoff_iso) (fetched pages)).
Proof.
  intros Hrun.
  destruct (poll_playlist_spec fuel playlist_id channel_name cutoff_iso st)
    as (pages & Hev & _ & Hout).
  rewrite Hrun in Hev, Hout. cbn [fst snd] in Hev, Hout.
  exists pages. split; [exact Hev | exact (proj1 Hout)].
Qed.

(** X17 ([_poll_playlist], lines 60-88): the requests follow one another.
    The first asks for the first page; a further page is requested only
    after a page that came back, holds no item older than the cutoff and no
    item the code raises on, and names a next page, and it is that page. *)
Theorem poll_playlist_requests (fuel : nat)
  (playlist_id channel_name cutoff_iso : str) (st : state) :
  exists pages,
    events (snd (_poll_playlist fuel playlist_id channel_name cutoff_iso st))
    = events st ++ map (page_event playlist_id) pages /\
    chained cutoff_iso channel_name None pages.
Proof.
  destruct (poll_playlist_spec fuel playlist_id channel_name cutoff_iso st)
    as (pages & Hev & Hch & _).
  exists pages. now split.
Qed.

(** X18 ([_poll_playlist], lines 62-90): the loop ends at the first page that
    does not let it go on.  When one of the pages requested failed, held an
    old item or an item the code raises on, or named no next page, the call
    has come to its end. *)
Theorem poll_playlist_ends (fuel : nat)
  (playlist_id channel_name cutoff_iso : str) (st : state)
  (pages : list (option str * result response)) :
  events (snd (_poll_playlist fuel playlist_id channel_name cutoff_iso st))
  = events st ++ map (page_event playlist_id) pages ->
  Exists (fun p => ~ goes_on cutoff_iso channel_name (snd p)) pages ->
  exists r,
    fst (_poll_playlist fuel playlist_id channel_name cutoff_iso st) = Some r.
Proof.
  intros Hlog Hex.
  destruct (poll_playlist_spec fuel playlist_id channel_name cutoff_iso st)
    as (pages' & Hev & _ & Hout).
  rewrite Hlog in Hev. apply app_inv_head, page_events_inj in Hev.
  subst pages'.
  destruct (fst (_poll_playlist fuel playlist_id channel_name cutoff_iso st))
    as [r|]; [now exists r|].
  destruct Hout as [_ Hall]. apply Exists_exists in Hex as (p & Hin & Hp).
  rewrite Forall_forall in Hall. now destruct (Hp (Hall p Hin)).
Qed.

(** The [try] around [_poll_playlist]: an [HttpError] becomes the empty
    list, whichever line raised it. *)
Lemma poll_or_empty_spec (fuel : nat) (playlist_id name cutoff_iso : str)
  (st : state) :
  exists pages,
    events (snd (poll_or_empty fuel playlist_id name cutoff_iso st))
    = events st ++ map (page_event playlist_id) pages /\
    (fst (poll_or_empty fuel playlist_id name cutoff_iso st) = Some (Ok []) \/
     pages = [] \/
     ends_with pages (fun page => page <> Raise HttpError)) /\
    forall e,
      fst (poll_or_empty fuel playlist_id name cutoff_iso st) = Some (Raise e) ->
      e <> HttpError.
Proof.
  unfold poll_or_empty.
  destruct (poll_playlist_spec fuel playlist_id name cutoff_iso st)
    as (pages & Hev & _ & Hout).
  destruct (_poll_playlist fuel playlist_id name cutoff_iso st) as [out st1].
  cbn [fst snd] in Hev, Hout. exists pages.
  assert (Hback : ends_with pages (fun page => came_back page = true) ->
                  ends_with pages (fun page => page <> Raise HttpError)).
  { intros (front & t & page & E & Hp). exists front, t, page.
    split; [exact E|]. now intros ->. }
  assert (Hother : forall e, e <> HttpError ->
            ends_with pages (fun page => page = Raise e) ->
            ends_with pages (fun page => page <> Raise HttpError)).
  { intros e He (front & t & page & E & ->). exists front, t, (Raise e).
    split; [exact E|]. congruence. }
  destruct out as [[vs|e]|]; cbn [fst snd].
  - split; [exact Hev|]. split; [right; right; exact (Hback (proj2 Hout))|].
    discriminate.
  - assert (Hlast : e <> HttpError ->
                     ends_with pages (fun page => page <> Raise HttpError)).
    { intros He. destruct Hout as [Hout | [Hout _]];
        [exact (Hother e He Hout) | exact (Hback Hout)]. }
    destruct e; cbn [fst snd]; (split; [exact Hev|]);
      [split; [now left | discriminate] | ..];
      (split; [right; right; apply Hlast; discriminate|]);
      intros e H; injection H as <-; discriminate.
  - split; [exact Hev|]. split; [|discriminate]. right.
    destruct Hout as [_ Hall].
    destruct pages as [|p ps]; [now left | right].
    destruct (exists_last (l := p :: ps)) as (front & [t page] & E);
      [discriminate|].
    rewrite E in Hall |- *. apply Forall_app in Hall as [_ Hall].
    apply Forall_inv in Hall. exists front, t, page. split; [reflexivity|].
    intros ->. exact Hall.
Qed.

Lemma poll_or_empty_failed (fuel : nat) (playlist_id name cutoff_iso : str)
  (st : state) (pre : list event) (failed : str) (token : option str) :
  events (snd (poll_or_empty fuel playlist_id name cutoff_iso st))
  = pre ++ [ListedItems failed token (Raise HttpError)] ->
  events st <> pre ++ [ListedItems failed token (Raise HttpError)] ->
  fst (poll_or_empty fuel playlist_id name cutoff_iso st) = Some (Ok []).
Proof.
  intros Hlast Hbefore.
  destruct (poll_or_empty_spec fuel playlist_id name cutoff_iso st)
    as (pages & Hev & [H | [-> | (front & t & page & -> & Hpage)]] & _).
  - exact H.
  - cbn [map] in Hev. rewrite app_nil_r in Hev. congruence.
  - rewrite Hlast, map_app, app_assoc in Hev. cbn [map] in Hev.
    apply app_inj_tail in Hev as [_ Hev]. unfold page_event in Hev.
    cbn [fst snd] in Hev. injection Hev as _ _ Hev. now subst page.
Qed.

Lemma not_own_tail {A : Type} (l l' : list A) (x : A) : l <> (l ++ l') ++ [x].
Proof.
  intros E. apply (f_equal (@length A)) in E.
  rewrite !length_app in E. cbn [length] in E. lia.
Qed.

(** The branch of [get_recent_videos] for an entry without a playlist. *)
Lemma uploads_branch_failed (fuel : nat) (ch : channel) (n cutoff_iso : str)
  (st : state) (evs : list event) (failed : str) (token : option str) :
  let branch :=
    match id ch with
    | Some (c :: channel_id) =>
        match _get_uploads_playlist_id Service channels_list
                (c :: channel_id) st with
        | (Ok playlist_id, st1) =>
            poll_or_empty fuel playlist_id n cutoff_iso st1
        | (Raise ValueError, st1) | (Raise HttpError, st1) =>
            (Some (Ok []), st1)
        | (Raise e, st1) => (Some (Raise e), st1)
        end
    | _ => (Some (Ok []), st)
    end in
  events (snd branch)
  = (events st ++ evs) ++ [ListedItems failed token (Raise HttpError)] ->
  fst branch = Some (Ok []).
Proof.
  cbv zeta. destruct (id ch) as [[|c channel_id]|]; try reflexivity.
  unfold _get_uploads_playlist_id, do_list_channels.
  destruct (channels_list (service Service st) (c :: channel_id))
    as [s [[|[uploads| |] rest]|[| | | |]]]; try reflexivity;
    try (cbn [snd events]; rewrite <- app_assoc; intros E;
         apply app_inv_head in E; apply (app_inj_tail []) in E as [_ E];
         discriminate E).
  intros H. apply (poll_or_empty_failed _ _ _ _ _ _ _ _ H).
  cbn [events]. rewrite <- app_assoc. intros E.
  apply app_inv_head in E. apply (app_inj_tail []) in E as [_ E].
  discriminate E.
Qed.

Lemma uploads_branch_raises (fuel : nat) (ch : channel) (n cutoff_iso : str)
  (st : state) (e : exn) :
  fst
    match id ch with
    | Some (c :: channel_id) =>
        match _get_uploads_playlist_id Service channels_list
                (c :: channel_id) st with
        | (Ok playlist_id, st1) =>
            poll_or_empty fuel playlist_id n cutoff_iso st1
        | (Raise ValueError, st1) | (Raise HttpError, st1) =>
            (Some (Ok []), st1)
        | (Raise e, st1) => (Some (Raise e), st1)
        end
    | _ => (Some (Ok []), st)
    end
  = Some (Raise e) -> e <> HttpError.
Proof.
  destruct (id ch) as [[|c channel_id]|]; try discriminate.
  destruct (_get_uploads_playlist_id Service channels_list
              (c :: channel_id) st) as [[p|[| | | |]] st1];
    try discriminate;
    try (cbn [fst]; intros H; injection H as <-; discriminate).
  destruct (poll_or_empty_spec fuel p n cutoff_iso st1)
    as (pages & _ & _ & H). apply H.
Qed.

(** X19 ([get_recent_videos], lines 118-122): when the last request of the
    call is a page request that raised [HttpError], the call returns the
    empty list; the videos of the pages before it are dropped. *)
Theorem get_recent_videos_api_error (fuel : nat) (ch : channel)
  (cutoff_iso : str) (st : state) (evs : list event) (failed : str)
  (token : option str) :
  events (snd (get_recent_videos fuel ch cutoff_iso st))
  = events st ++ evs ++ [ListedItems failed token (Raise HttpError)] ->
  fst (get_recent_videos fuel ch cutoff_iso st) = Some (Ok []).
Proof.
  unfold get_recent_videos. rewrite app_assoc.
  destruct (name ch) as [n|].
  - destruct (playlist_id ch) as [[|c p]|];
      [apply uploads_branch_failed | | apply uploads_branch_failed].
    intros H. apply (poll_or_empty_failed _ _ _ _ _ _ _ _ H).
    apply not_own_tail.
  - cbn [snd]. intros E. now apply not_own_tail in E.
Qed.

(** X20 ([get_recent_videos], lines 102-122): an [HttpError] never leaves
    [get_recent_videos].  Whether the lookup of the channel or the polling
    of the playlist raised it, the [except] clauses of lines 114 and 120
    catch it; an exception the call raises is of another class. *)
Theorem get_recent_videos_raises (fuel : nat) (ch : channel)
  (cutoff_iso : str) (st : state) (e : exn) :
  fst (get_recent_videos fuel ch cutoff_iso st) = Some (Raise e) ->
  e <> HttpError.
Proof.
  unfold get_recent_videos.
  destruct (name ch) as [n|].
  - destruct (playlist_id ch) as [[|c p]|];
      [apply uploads_branch_raises | | apply uploads_branch_raises].
    destruct (poll_or_empty_spec fuel (c :: p) n cutoff_iso st)
      as (pages & _ & _ & H). apply H.
  - cbn [fst]. intros H. injection H as <-. discriminate.
Qed.

End MonitorFacts.

Section MonitorRuns.
Import PyStr PyText YoutubeMonitor Cases.

Local Abbreviation poll service :=
  (_poll_playlist nat service 5 (lit "PL1") (lit "Show") cutoff yt_start).

Lemma pages_run :
  poll yt_pages
  = (Some (Ok [{| video_id := lit "a";
                  channel_name := lit "Show";
                  title := lit "a";
                  published_at := lit "2024-05-03T10:00:00Z";
                  description := [] |};
               {| video_id := lit "b";
                  channel_name := lit "Show";
                  title := lit "b";
                  published_at := lit "2024-05-02T18:30:00Z";
                  description := [] |};
               {| video_id := lit "c";
                  channel_name := lit "Show";
                  title := lit "c";
                  published_at := lit "2024-05-02T09:00:00Z";
                  description := [] |}]),
     {| service := 2%nat;
        events := map (page_event (lit "PL1"))
                    [(None, Ok first_page);
                     (Some (lit "p2"), Ok second_page)] |}).
Proof. vm_compute. reflexivity. Qed.

(** The exceptions that leave the calls: a failure of the connection, which
    is no [HttpError], and the [TypeError] of a date that is [null]. *)
Example offline_run :
  fst (poll yt_offline) = Some (Raise OtherError) /\
  fst (get_recent_videos nat yt_offline yt_channels 5 with_id cutoff yt_start)
  = Some (Raise OtherError).
Proof. split; vm_compute; reflexivity. Qed.

Example undated_run :
  fst (poll yt_undated) = Some (Raise TypeError).
Proof. vm_compute. reflexivity. Qed.

Lemma poll_playlist_fresh_witness :
  Forall (fun v => ltb (published_at v) cutoff = false /\
                   channel_name v = lit "Show")
    (match fst (poll yt_pages) with
     | Some (Ok videos) => videos
     | _ => []
     end) /\
  length (match fst (poll yt_pages) with
          | Some (Ok videos) => videos
          | _ => []
          end) = 3%nat.
Proof.
  rewrite pages_run. cbn [fst]. split; [|reflexivity].
  exact (poll_playlist_fresh nat yt_pages _ _ _ _ _ _ _ pages_run).
Defined.

Lemma poll_playlist_prefix_witness :
  exists pages,
    events nat (snd (poll yt_pages))
    = events nat yt_start ++ map (page_event (lit "PL1")) pages /\
    map Ok (match fst (poll yt_pages) with
            | Some (Ok videos) => videos
            | _ => []
            end)
    = map (video_of (lit "Show")) (until (old cutoff) (fetched pages)).
Proof.
  rewrite pages_run. cbn [fst snd].
  exact (poll_playlist_prefix nat yt_pages _ _ _ _ _ _ _ pages_run).
Defined.

Lemma poll_playlist_ends_witness :
  exists r, fst (poll yt_failing) = Some r.
Proof.
  apply (poll_playlist_ends nat yt_failing 5 _ _ _ _
           [(None, Ok first_page); (Some (lit "p2"), Raise HttpError)]).
  - vm_compute. reflexivity.
  - apply Exists_cons_tl, Exists_cons_hd. cbn [snd goes_on]. tauto.
Defined.

Lemma get_recent_videos_api_error_witness :
  fst (get_recent_videos nat yt_failing yt_channels 5 with_id cutoff yt_start)
  = Some (Ok []).
Proof.
  apply (get_recent_videos_api_error nat yt_failing yt_channels 5 with_id
           cutoff yt_start
           [ListedChannels (lit "UC1") (Ok [Found (lit "UU1")]);
            ListedItems (lit "UU1") None (Ok first_page)]
           (lit "UU1") (Some (lit "p2"))).
  vm_compute. reflexivity.
Defined.

Lemma get_recent_videos_raises_witness :
  fst (get_recent_videos nat yt_undated yt_channels 5 with_id cutoff yt_start)
  = Some (Raise TypeError) /\ TypeError <> HttpError.
Proof.
  split; [vm_compute; reflexivity|].
  apply (get_recent_videos_raises nat yt_undated yt_channels 5 with_id cutoff
           yt_start TypeError).
  vm_compute. reflexivity.
Defined.

End MonitorRuns.

(** ** The prompts *)

Section PromptFacts.
Import PyStr PyText Prompts.

Lemma startswith_shorter (s p q : str) :
  startswith s (p ++ q) = true -> startswith s p = true.
Proof.
  revert s. induction p as [|d p IH]; intros s; [now destruct s|].
  destruct s as [|c s]; [discriminate|]. cbn [startswith app].
  rewrite !andb_true_iff. intros [H1 H2]. split; [exact H1 | now apply IH].
Qed.

(** A string without [p] holds no string that begins with [p]. *)
Lemma contains_longer (s p q : str) :
  contains s p = false -> contains s (p ++ q) = false.
Proof.
  induction s as [|c s IH].
  - cbn [contains]. rewrite !orb_false_r. intros H.
    destruct (startswith [] (p ++ q)) eqn:E; [|reflexivity].
    apply startswith_shorter in E. congruence.
  - intros H. apply contains_cons in H as [H1 H2].
    cbn [contains]. rewrite (IH H2), orb_false_r.
    destruct (startswith (c :: s) (p ++ q)) eqn:E; [|reflexivity].
    apply startswith_shorter in E. congruence.
Qed.

Lemma replace_from_skip (l s old new : str) :
  replace_from (length l) (l ++ s) old new = replace_from 0 s old new.
Proof. induction l as [|c l IH]; [reflexivity | exact IH]. Qed.

(** An occurrence at the head is replaced, and the search goes on after
    it. *)
Lemma replace_head (d : char) (old s new : str) :
  replace ((d :: old) ++ s) (d :: old) new = new ++ replace s (d :: old) new.
Proof.
  unfold replace.
  change (replace_from 0 ((d :: old) ++ s) (d :: old) new)
    with (if startswith ((d :: old) ++ s) (d :: old)
          then new ++ replace_from (length (d :: old) - 1) (old ++ s)
                        (d :: old) new
          else d :: replace_from 0 (old ++ s) (d :: old) new).
  rewrite startswith_app. cbn [length]. rewrite Nat.sub_1_r. cbn [Nat.pred].
  now rewrite replace_from_skip.
Qed.

(** No occurrence of a string that begins with a brace begins in a text
    without braces. *)
Lemma replace_brace_free (pre s old new : str) :
  brace_free pre = true ->
  replace (pre ++ s) (BRACE :: old) new = pre ++ replace s (BRACE :: old) new.
Proof.
  unfold replace. induction pre as [|c pre IH]; [reflexivity|].
  cbn [brace_free forallb]. rewrite andb_true_iff. intros [Hc Hpre].
  change (replace_from 0 ((c :: pre) ++ s) (BRACE :: old) new)
    with (if startswith (c :: pre ++ s) (BRACE :: old)
          then new ++ replace_from (length (BRACE :: old) - 1) (pre ++ s)
                        (BRACE :: old) new
          else c :: replace_from 0 (pre ++ s) (BRACE :: old) new).
  cbn [startswith]. apply negb_true_iff in Hc. rewrite Hc. cbn [andb].
  now rewrite (IH Hpre).
Qed.

Lemma placeholder_brace (key : str) :
  placeholder key = BRACE :: (BRACE :: key ++ CLOSE).
Proof. reflexivity. Qed.

Lemma replace_no_placeholder (template key value : str) :
  contains template OPEN = false ->
  replace template (placeholder key) value = template.
Proof.
  intros H. apply replace_absent. unfold placeholder.
  now apply contains_longer.
Qed.

Lemma replace_placeholder (pre key value post : str) :
  brace_free pre = true ->
  replace (pre ++ placeholder key ++ post) (placeholder key) value
  = pre ++ value ++ replace post (placeholder key) value.
Proof.
  intros H. rewrite placeholder_brace.
  rewrite (replace_brace_free pre _ _ _ H). f_equal.
  exact (replace_head BRACE (BRACE :: key ++ CLOSE) post value).
Qed.

(** X21 ([_fill], lines 318-321): a template without two opening braces in
    a row comes back as it is, whatever the arguments. *)
Theorem fill_without_placeholder (template : str) (kwargs : list (str * str)) :
  contains template OPEN = false -> _fill template kwargs = template.
Proof.
  intros H. induction kwargs as [|[key value] rest IH]; [reflexivity|].
  cbn [_fill]. now rewrite (replace_no_placeholder _ _ _ H).
Qed.

(** X22 ([_fill], lines 318-321): a placeholder after a text without braces
    is replaced by the value of its key, the text before it is kept, and
    the rest of the template is filled in the same way. *)
Theorem fill_placeholder (pre key value post : str) :
  brace_free pre = true ->
  _fill (pre ++ placeholder key ++ post) [(key, value)]
  = pre ++ value ++ _fill post [(key, value)].
Proof. intros H. cbn [_fill]. exact (replace_placeholder _ _ _ _ H). Qed.

(** X23 ([_fill], lines 318-321): the arguments are filled one after the
    other into the text filled so far, so a value that holds the placeholder
    of a later argument is filled as well: the later value stands where the
    earlier one was put. *)
Theorem fill_refills_value (pre key later value post : str) :
  brace_free pre = true ->
  contains post OPEN = false ->
  _fill (pre ++ placeholder key ++ post)
    [(key, placeholder later); (later, value)]
  = pre ++ value ++ post.
Proof.
  intros Hpre Hpost. cbn [_fill].
  rewrite (replace_placeholder _ _ _ _ Hpre).
  rewrite (replace_no_placeholder _ _ _ Hpost).
  rewrite (replace_placeholder _ _ _ _ Hpre).
  now rewrite (replace_no_placeholder _ _ _ Hpost).
Qed.

End PromptFacts.

Section PromptRuns.
Import PyStr PyText Prompts.

Lemma fill_without_placeholder_witness :
  _fill (lit "Summarise {this} episode.")
    [(lit "episode_title", lit "On habits")]
  = lit "Summarise {this} episode.".
Proof. apply fill_without_placeholder. vm_compute. reflexivity. Defined.

Lemma fill_placeholder_witness :
  _fill (lit "Episode: " ++ placeholder (lit "episode_title")
         ++ lit " by " ++ placeholder (lit "episode_title"))
    [(lit "episode_title", lit "On habits")]
  = lit "Episode: On habits by On habits".
Proof.
  rewrite (fill_placeholder (lit "Episode: ") (lit "episode_title")
             (lit "On habits")
             (lit " by " ++ placeholder (lit "episode_title")));
    [|vm_compute; reflexivity].
  vm_compute. reflexivity.
Defined.

Lemma fill_refills_value_witness :
  _fill (lit "Episode: " ++ placeholder (lit "episode_title") ++ lit ".")
    [(lit "episode_title", placeholder (lit "transcript"));
     (lit "transcript", lit "the summary")]
  = lit "Episode: " ++ lit "the summary" ++ lit ".".
Proof. apply fill_refills_value; vm_compute; reflexivity. Defined.

End PromptRuns.

(** ** The thumbnail download *)

Section ThumbnailFacts.
Import PyStr PyText ThumbnailFetcher.

Variable World : Type.
Variable _sanitize : str -> str.
Variable output_path : str -> str -> str.
Variable path_exists : World -> str -> bool.
Variable get : World -> str -> World * option response.
Variable write_bytes : World -> str -> list N -> World.

Local Abbreviation state := (state World).
Local Abbreviation events := (events World).
Local Abbreviation world := (world World).
Local Abbreviation try_qualities := (try_qualities World get write_bytes).
Local Abbreviation download_thumbnail :=
  (download_thumbnail World _sanitize output_path path_exists get write_bytes).

(** The loop over the qualities: it asks for them in their order, stops at
    the first real thumbnail and writes it. *)
Lemma try_qualities_spec (video_id path : str) (qualities : list str) :
  forall st : state,
    match fst (try_qualities video_id path qualities st) with
    | Some p =>
        p = path /\
        exists front url r,
          events (snd (try_qualities video_id path qualities st))
          = events st ++ map got_event (front ++ [(url, Some r)])
            ++ [Wrote path (content r)] /\
          map fst (front ++ [(url, Some r)])
          = map (thumbnail_url video_id)
              (firstn (S (length front)) qualities) /\
          Forall (fun a => acceptable (snd a) = false) front /\
          acceptable (Some r) = true
    | None =>
        exists asked,
          events (snd (try_qualities video_id path qualities st))
          = events st ++ map got_event asked /\
          map fst asked = map (thumbnail_url video_id) qualities /\
          Forall (fun a => acceptable (snd a) = false) asked
    end.
Proof.
  induction qualities as [|quality rest IH]; intros st.
  - cbn [try_qualities fst snd]. exists []. cbn [map].
    rewrite app_nil_r. repeat split. constructor.
  - cbn [try_qualities]. unfold do_get.
    destruct (get (world st) (thumbnail_url video_id quality)) as [w r] eqn:G.
    set (st1 := {| ThumbnailFetcher.world := w;
                   ThumbnailFetcher.events :=
                     events st ++ [Got (thumbnail_url video_id quality) r] |}).
    assert (Hstep : forall unacceptable : acceptable r = false,
      match fst (try_qualities video_id path rest st1) with
      | Some p =>
          p = path /\
          exists front url r0,
            events (snd (try_qualities video_id path rest st1))
            = events st ++ map got_event (front ++ [(url, Some r0)])
              ++ [Wrote path (content r0)] /\
            map fst (front ++ [(url, Some r0)])
            = map (thumbnail_url video_id)
                (firstn (S (length front)) (quality :: rest)) /\
            Forall (fun a => acceptable (snd a) = false) front /\
            acceptable (Some r0) = true
      | None =>
          exists asked,
            events (snd (try_qualities video_id path rest st1))
            = events st ++ map got_event asked /\
            map fst asked = map (thumbnail_url video_id) (quality :: rest) /\
            Forall (fun a => acceptable (snd a) = false) asked
      end).
    { intros Hr. specialize (IH st1).
      destruct (try_qualities video_id path rest st1) as [[p|] st2];
        cbn [fst snd] in IH |- *.
      - destruct IH as (-> & front & url & r0 & Hev & Hurls & Hfront & Hr0).
        split; [reflexivity|].
        exists ((thumbnail_url video_id quality, r) :: front), url, r0.
        split; [|split; [|split]].
        + rewrite Hev. unfold st1. cbn [ThumbnailFetcher.events].
          now rewrite <- app_assoc.
        + cbn [app map fst length firstn]. f_equal. exact Hurls.
        + constructor; [exact Hr | exact Hfront].
        + exact Hr0.
      - destruct IH as (asked & Hev & Hurls & Hall).
        exists ((thumbnail_url video_id quality, r) :: asked).
        split; [|split].
        + rewrite Hev. unfold st1. cbn [ThumbnailFetcher.events].
          now rewrite <- app_assoc.
        + cbn [map fst]. f_equal. exact Hurls.
        + constructor; [exact Hr | exact Hall]. }
    destruct r as [r|]; [|apply Hstep; reflexivity].
    destruct (acceptable (Some r)) eqn:A; [|apply Hstep; reflexivity].
    cbn [fst snd]. split; [reflexivity|].
    exists [], (thumbnail_url video_id quality), r.
    split; [|split; [|split]].
    + unfold do_write, st1. cbn [ThumbnailFetcher.events app map].
      now rewrite <- app_assoc.
    + reflexivity.
    + constructor.
    + exact A.
Qed.

(** X24 ([download_thumbnail], lines 37-52): a thumbnail that is returned
    lies at the output path.  Either its file was there and nothing was
    asked for or written, or the qualities were asked for from the best
    one down, each answer before the last was refused, and the last, with
    status 200 and more than 5000 bytes, was written to the path as the one
    file. *)
Theorem download_thumbnail_saves (video_id title : str) (st : state)
  (p : str) :
  fst (download_thumbnail video_id title st) = Some p ->
  p = output_path video_id (_sanitize title) /\
  (path_exists (world st) p = true /\
   snd (download_thumbnail video_id title st) = st \/
   path_exists (world st) p = false /\
   exists front url r,
     events (snd (download_thumbnail video_id title st))
     = events st ++ map got_event (front ++ [(url, Some r)])
       ++ [Wrote p (content r)] /\
     map fst (front ++ [(url, Some r)])
     = map (thumbnail_url video_id)
         (firstn (S (length front)) QUALITY_OPTIONS) /\
     Forall (fun a => acceptable (snd a) = false) front /\
     status_code r = 200 /\ 5000 < Z.of_nat (length (content r))).
Proof.
  unfold download_thumbnail. cbv zeta.
  destruct (path_exists (world st) (output_path video_id (_sanitize title)))
    eqn:E.
  - cbn [fst snd]. intros H. injection H as <-. split; [reflexivity|].
    left. now split.
  - pose proof (try_qualities_spec video_id
                  (output_path video_id (_sanitize title)) QUALITY_OPTIONS st)
      as Hspec.
    intros H. rewrite H in Hspec.
    destruct Hspec as (-> & front & url & r & Hev & Hurls & Hfront & Hr).
    split; [reflexivity|]. right. split; [exact E|].
    exists front, url, r. split; [exact Hev|]. split; [exact Hurls|].
    split; [exact Hfront|].
    cbn [acceptable] in Hr. apply andb_true_iff in Hr as [H1 H2].
    split; [now apply Z.eqb_eq | now apply Z.ltb_lt].
Qed.

(** X25 ([download_thumbnail], lines 40-57): the download gives up only
    after it has asked for the five qualities, each once and from the best
    one down, and has refused every answer; it writes no file then. *)
Theorem download_thumbnail_gives_up (video_id title : str) (st : state) :
  fst (download_thumbnail video_id title st) = None ->
  path_exists (world st) (output_path video_id (_sanitize title)) = false /\
  exists asked,
    events (snd (download_thumbnail video_id title st))
    = events st ++ map got_event asked /\
    map fst asked = map (thumbnail_url video_id) QUALITY_OPTIONS /\
    Forall (fun a => acceptable (snd a) = false) asked.
Proof.
  unfold download_thumbnail. cbv zeta.
  destruct (path_exists (world st) (output_path video_id (_sanitize title)));
    [discriminate|].
  pose proof (try_qualities_spec video_id
                (output_path video_id (_sanitize title)) QUALITY_OPTIONS st)
    as Hspec.
  intros H. rewrite H in Hspec. split; [reflexivity | exact Hspec].
Qed.

End ThumbnailFacts.

Section ThumbnailRuns.
Import PyStr PyText ThumbnailFetcher Cases.

Local Abbreviation download get :=
  (download_thumbnail nat th_sanitize th_path th_missing get th_write
     (lit "abc") (lit "Habits") th_start).

Lemma download_thumbnail_saves_witness :
  lit "output/thumbnails/abc_Habits.jpg"
  = th_path (lit "abc") (th_sanitize (lit "Habits")) /\
  length (events nat (snd (download th_get))) = 4%nat.
Proof.
  split; [|vm_compute; reflexivity].
  apply (download_thumbnail_saves nat th_sanitize th_path th_missing th_get
           th_write (lit "abc") (lit "Habits") th_start
           (lit "output/thumbnails/abc_Habits.jpg")).
  vm_compute. reflexivity.
Defined.

Lemma download_thumbnail_gives_up_witness :
  th_missing O (th_path (lit "abc") (th_sanitize (lit "Habits"))) = false /\
  exists asked,
    events nat (snd (download th_placeholder))
    = events nat th_start ++ map got_event asked /\
    map fst asked = map (thumbnail_url (lit "abc")) QUALITY_OPTIONS /\
    Forall (fun a => acceptable (snd a) = false) asked.
Proof.
  apply (download_thumbnail_gives_up nat th_sanitize th_path th_missing
           th_placeholder th_write (lit "abc") (lit "Habits") th_start).
  vm_compute. reflexivity.
Defined.

End ThumbnailRuns.

(** ** The run of the original posts *)

Section RunFacts.
Import PyStr PyText OriginalPosts.

Variable World : Type.
Variable create_tweet : World -> Twitter.tweet -> World * option str.
Variable get_me : World -> World * option str.
Variable generate : World -> list (str * str) -> World * option generated.
Variable get_recent_combos : list row -> Z -> list (str * str).
Variable utcnow : World -> str.
Variable error_text : World -> str.

Local Abbreviation state := (state World).
Local Abbreviation x := (x World).
Local Abbreviation db := (db World).
Local Abbreviation world := (Twitter.world World).
Local Abbreviation events := (Twitter.events World).
Local Abbreviation post := (Twitter.post World create_tweet get_me).
Local Abbreviation run :=
  (run World create_tweet get_me generate get_recent_combos utcnow error_text).

(** The state of the X client after [generate]. *)
Local Abbreviation after_generate w st :=
  {| Twitter.world := w; Twitter.events := events (x st) |}.

(** The tweet [post] creates first. *)
Local Abbreviation main_tweet g :=
  {| Twitter.text := g_tweet_text g;
     Twitter.media_ids := None;
     Twitter.in_reply_to_tweet_id := None |}.

(** An update by an identifier above those of the rows touches none of
    them. *)
Lemma update_status_others (tweet_id : Z) (new_status : str)
  (url err : option str) (now : str) (table : list row) (r : row) (n : Z) :
  Forall (fun r => id r < tweet_id) table ->
  id r = tweet_id ->
  update_status tweet_id new_status url err now
    {| rows := table ++ [r]; next_id := n |}
  = {| rows :=
         table ++
         [{| id := id r;
             topic := topic r;
             angle := angle r;
             tweet_text := tweet_text r;
             reply_text := reply_text r;
             status := new_status;
             posted_at := if eqb new_status POSTED then Some now else None;
             post_url := url;
             error := err;
             created_at := created_at r |}];
       next_id := n |}.
Proof.
  intros Hall Hr. unfold update_status. cbn [rows next_id]. f_equal.
  rewrite map_app. f_equal.
  - rewrite <- (map_id table) at 2. apply map_ext_in. intros r' Hin.
    rewrite Forall_forall in Hall. specialize (Hall r' Hin).
    destruct (id r' =? tweet_id) eqn:E; [|reflexivity].
    apply Z.eqb_eq in E. lia.
  - cbn [map]. apply Z.eqb_eq in Hr. now rewrite Hr.
Qed.

(** A run that is not a dry run, after [generate] has returned: the row it
    saves and settles. *)
Lemma run_saved (credentials : bool) (st : state) (w : World) (g : generated) :
  generate (world (x st)) (get_recent_combos (rows (db st)) 30) = (w, Some g) ->
  Forall (fun r => id r < next_id (db st)) (rows (db st)) ->
  let posted :=
    post credentials (g_tweet_text g) (g_reply_text g) (after_generate w st) in
  run credentials false st
  = (match fst posted with Some _ => Returned | None => Exited 1 end,
     {| OriginalPosts.x := snd posted;
        OriginalPosts.db :=
          {| rows :=
               rows (db st) ++
               [{| id := next_id (db st);
                   topic := g_topic g;
                   angle := g_angle g;
                   tweet_text := g_tweet_text g;
                   reply_text := g_reply_text g;
                   status := match fst posted with
                             | Some _ => POSTED
                             | None => FAILED
                             end;
                   posted_at := match fst posted with
                                | Some _ => Some (utcnow (world (snd posted)))
                                | None => None
                                end;
                   post_url := fst posted;
                   error := match fst posted with
                            | Some _ => None
                            | None => Some (error_text (world (snd posted)))
                            end;
                   created_at := utcnow w |}];
             next_id := next_id (db st) + 1 |} |}).
Proof.
  intros Hg Hall. cbv zeta. unfold OriginalPosts.run, do_generate.
  rewrite Hg. cbn [x db OriginalPosts.x OriginalPosts.db Twitter.world
                   save_tweet].
  destruct (post credentials (g_tweet_text g) (g_reply_text g)
              (after_generate w st)) as [[url|] x2]; cbn [fst snd];
    (rewrite update_status_others; [reflexivity | exact Hall | reflexivity]).
Qed.

(** The tweet [post] creates first is among its events. *)
Lemma post_created (tweet_text : str) (reply_text : option str)
  (st : Twitter.state World) (w : World) (i : str) :
  create_tweet (world st)
    {| Twitter.text := tweet_text; Twitter.media_ids := None;
       Twitter.in_reply_to_tweet_id := None |} = (w, Some i) ->
  exists tail,
    events (snd (post true tweet_text reply_text st))
    = events st ++
      Twitter.Created
        {| Twitter.text := tweet_text; Twitter.media_ids := None;
           Twitter.in_reply_to_tweet_id := None |} (Some i) :: tail.
Proof.
  intros Hc. unfold Twitter.post. cbn [negb].
  unfold Twitter.do_create at 1. rewrite Hc.
  match goal with
  | |- context [Twitter.do_get_me World get_me ?s] =>
      pose proof (do_get_me_events World get_me s) as Hg;
      destruct (Twitter.do_get_me World get_me s) as [[username|] st2]
  end; cbn [fst snd Twitter.events] in Hg.
  - destruct reply_text as [[|c r]|].
    + cbn [snd]. rewrite Hg, <- app_assoc. now eexists.
    + match goal with
      | |- context [Twitter.do_create World create_tweet ?t ?s] =>
          pose proof (do_create_events World create_tweet t s) as Hc2;
          destruct (Twitter.do_create World create_tweet t s) as [[i'|] st3]
      end; cbn [fst snd] in Hc2 |- *;
        rewrite Hc2, Hg, <- !app_assoc; now eexists.
    + cbn [snd]. rewrite Hg, <- app_assoc. now eexists.
  - cbn [snd]. rewrite Hg, <- app_assoc. now eexists.
Qed.

(** X26 ([run], lines 31-50 of [x-original-posts/main.py]): a dry run saves
    no row, changes no row, asks nothing of the X service and does not
    leave through [sys.exit]. *)
Theorem run_dry (credentials : bool) (st : state) :
  db (snd (run credentials true st)) = db st /\
  events (x (snd (run credentials true st))) = events (x st) /\
  forall code, fst (run credentials true st) <> Exited code.
Proof.
  unfold OriginalPosts.run, do_generate.
  destruct (generate (world (x st)) (get_recent_combos (rows (db st)) 30))
    as [w [g|]]; cbn [fst snd OriginalPosts.x OriginalPosts.db Twitter.events];
    repeat split; discriminate.
Qed.

(** X27 ([run], lines 52-66, with [save_tweet] and [update_status] of
    [database.py]): a run that is not a dry run and in which [generate]
    returns adds one row under the next identifier and leaves the rows
    before it as they are.  The row is never left pending: it is posted,
    with the URL and the time and without an error, when the run returns,
    and failed, with the error and without URL or time, when the run leaves
    with the exit code 1. *)
Theorem run_settles_row (credentials : bool) (st : state) :
  Forall (fun r => id r < next_id (db st)) (rows (db st)) ->
  fst (run credentials false st) <> Raised ->
  exists r,
    rows (db (snd (run credentials false st))) = rows (db st) ++ [r] /\
    id r = next_id (db st) /\
    (fst (run credentials false st) = Returned /\
     status r = POSTED /\ post_url r <> None /\ posted_at r <> None /\
     error r = None \/
     fst (run credentials false st) = Exited 1 /\
     status r = FAILED /\ post_url r = None /\ posted_at r = None /\
     error r <> None).
Proof.
  intros Hall Hgen.
  destruct (generate (world (x st)) (get_recent_combos (rows (db st)) 30))
    as [w [g|]] eqn:Hg.
  - rewrite (run_saved credentials st w g Hg Hall) in *.
    cbn [fst snd OriginalPosts.db rows].
    eexists. split; [reflexivity|]. split; [reflexivity|].
    cbn [status post_url posted_at error].
    destruct (fst (post credentials (g_tweet_text g) (g_reply_text g)
                     (after_generate w st))) as [url|].
    + left. repeat split; discriminate.
    + right. repeat split; discriminate.
  - exfalso. apply Hgen. unfold OriginalPosts.run, do_generate.
    now rewrite Hg.
Qed.

(** X28 ([run], lines 59-66, with [post] of [poster.py]): a failed row does
    not mean that nothing was posted.  When the X service has created the
    tweet and the run still leaves with the exit code 1, because the request
    for the user name or the reply raised, the row is marked failed while
    the tweet is among those created. *)
Theorem run_failed_after_posting (st : state) (w w' : World) (g : generated)
  (tweet_id : str) :
  Forall (fun r => id r < next_id (db st)) (rows (db st)) ->
  generate (world (x st)) (get_recent_combos (rows (db st)) 30) = (w, Some g) ->
  create_tweet w (main_tweet g) = (w', Some tweet_id) ->
  fst (run true false st) = Exited 1 ->
  exists r,
    rows (db (snd (run true false st))) = rows (db st) ++ [r] /\
    status r = FAILED /\ post_url r = None /\
    In (main_tweet g, tweet_id)
      (Twitter.created (events (x (snd (run true false st))))).
Proof.
  intros Hall Hg Hc. rewrite (run_saved true st w g Hg Hall).
  cbn [fst snd OriginalPosts.db OriginalPosts.x rows].
  destruct (post_created (g_tweet_text g) (g_reply_text g)
              (after_generate w st) w' tweet_id Hc) as (tail & Hev).
  destruct (post true (g_tweet_text g) (g_reply_text g) (after_generate w st))
    as [[url|] x2]; cbn [fst snd] in Hev |- *; [discriminate|].
  intros _. eexists. split; [reflexivity|].
  cbn [status post_url]. split; [reflexivity|]. split; [reflexivity|].
  rewrite Hev, created_app. apply in_or_app. right. now left.
Qed.

End RunFacts.

Section RunRuns.
Import PyStr PyText OriginalPosts Cases.

Local Abbreviation run_with create :=
  (run nat create tw_me op_generate op_recent op_utcnow op_error_text).

Lemma one_row_below :
  Forall (fun r => id r < next_id (db nat op_start)) (rows (db nat op_start)).
Proof. repeat constructor. Qed.

Lemma run_settles_row_witness :
  exists r,
    rows (db nat (snd (run_with tw_create true false op_start)))
    = rows (db nat op_start) ++ [r] /\
    id r = next_id (db nat op_start) /\
    (fst (run_with tw_create true false op_start) = Returned /\
     status r = POSTED /\ post_url r <> None /\ posted_at r <> None /\
     error r = None \/
     fst (run_with tw_create true false op_start) = Exited 1 /\
     status r = FAILED /\ post_url r = None /\ posted_at r = None /\
     error r <> None).
Proof.
  apply (run_settles_row nat tw_create tw_me op_generate op_recent op_utcnow
           op_error_text true op_start one_row_below).
  vm_compute. discriminate.
Defined.

Lemma run_failed_after_posting_witness :
  exists r,
    rows (db nat (snd (run_with tw_create_once true false op_start)))
    = rows (db nat op_start) ++ [r] /\
    status r = FAILED /\ post_url r = None /\
    In ({| Twitter.text := g_tweet_text op_result;
           Twitter.media_ids := None;
           Twitter.in_reply_to_tweet_id := None |}, lit "t0")
      (Twitter.created
         (Twitter.events nat
            (x nat (snd (run_with tw_create_once true false op_start))))).
Proof.
  refine (run_failed_after_posting nat tw_create_once tw_me op_generate
            op_recent op_utcnow op_error_text op_start O 1%nat op_result
            (lit "t0") one_row_below _ _ _); vm_compute; reflexivity.
Defined.

End RunRuns.

(** ** The posting run *)

Section QueueFacts.
Import PyStr PyText PostQueue.

Variable lower : str -> str.
Variable World : Type.
Variable create_tweet : World -> Twitter.tweet -> World * option str.
Variable get_me : World -> World * option str.
Variable media_upload : World -> str -> World * option str.
Variable path_exists : World -> str -> bool.
Variable download_thumbnail : World -> str -> str -> World * option str.
Variable utcnow : World -> str.
Variable Service : Type.
Variable submit : Service -> str -> str -> str -> Service * option str.
Variable error_text : state World Service -> str.

Local Abbreviation state := (state World Service).
Local Abbreviation table := (table World Service).
Local Abbreviation reddit := (reddit World Service).
Local Abbreviation x := (x World Service).
Local Abbreviation settle := (settle World utcnow Service).
Local Abbreviation fail := (fail World utcnow Service error_text).
Local Abbreviation post_due :=
  (post_due lower World create_tweet get_me media_upload path_exists
     download_thumbnail utcnow Service submit error_text).
Local Abbreviation cmd_post :=
  (cmd_post lower World create_tweet get_me media_upload path_exists
     download_thumbnail utcnow Service submit error_text).

(** The rows of an identifier are all settled. *)
Local Abbreviation all_settled i rows :=
  (forall r, In r rows -> id r = i -> settled r).

Lemma update_post_status_ids (post_id : Z) (new_status : str)
  (url err : option str) (now : str) (rows : list post) :
  map id (update_post_status post_id new_status url err now rows)
  = map id rows.
Proof.
  unfold update_post_status. rewrite map_map. apply map_ext.
  intros r. now destruct (id r =? post_id).
Qed.

Lemma update_post_status_settles (post_id : Z) (new_status : str)
  (url err : option str) (now : str) (rows : list post) (i : Z) :
  new_status = POSTED \/ new_status = FAILED ->
  i = post_id \/ all_settled i rows ->
  all_settled i (update_post_status post_id new_status url err now rows).
Proof.
  intros Hs Hi r Hin Hr. unfold update_post_status in Hin.
  apply in_map_iff in Hin as (r0 & <- & Hin0).
  destruct (id r0 =? post_id) eqn:E.
  - exact Hs.
  - destruct Hi as [-> | Hi]; [|now apply Hi].
    apply Z.eqb_neq in E. contradiction.
Qed.

(** What a step that settles the row of [p] keeps and gives. *)
Lemma settle_spec (p : post) (st st0 : state) (s : str)
  (url err : option str) :
  table st0 = table st ->
  s = POSTED \/ s = FAILED ->
  map id (table (settle (id p) s url err st0)) = map id (table st) /\
  forall i,
    i = id p /\ platform p = X \/ all_settled i (table st) ->
    all_settled i (table (settle (id p) s url err st0)).
Proof.
  intros Ht Hs. unfold PostQueue.settle. cbn [PostQueue.table].
  rewrite Ht. split.
  - apply update_post_status_ids.
  - intros i Hi. apply update_post_status_settles; [exact Hs|].
    destruct Hi as [[-> _] | Hi]; [now left | now right].
Qed.

(** One post that is due: the rows keep their identifiers; a row that was
    settled stays settled, and the row of a thread is settled. *)
Lemma post_due_spec (credentials configured : bool)
  (cfg : RedditPoster.subreddits_config) (p : post) (st : state) :
  map id (table (post_due credentials configured cfg p st))
  = map id (table st) /\
  forall i,
    i = id p /\ platform p = X \/ all_settled i (table st) ->
    all_settled i (table (post_due credentials configured cfg p st)).
Proof.
  unfold PostQueue.post_due, PostQueue.fail.
  destruct (eqb (platform p) X) eqn:EX.
  - destruct (tweets (parsed p)) as [thread|].
    + destruct (Twitter.post_thread World create_tweet get_me media_upload
                  path_exists download_thumbnail credentials thread
                  (thumbnail_path p) (Some (video_id p)) (x st))
        as [[url|] x'].
      * apply settle_spec; [reflexivity | now left].
      * apply settle_spec; [reflexivity | now right].
    + apply settle_spec; [reflexivity | now right].
  - assert (Hkeep : map id (table st) = map id (table st) /\
                    forall i,
                      i = id p /\ platform p = X \/ all_settled i (table st) ->
                      all_settled i (table st)).
    { split; [reflexivity|]. intros i [[_ HX] | Hi]; [|exact Hi].
      rewrite HX in EX. discriminate EX. }
    destruct (eqb (platform p) REDDIT); [|exact Hkeep].
    destruct configured; cbn [negb]; [|exact Hkeep].
    destruct (title (parsed p)) as [t|];
      [|apply settle_spec; [reflexivity | now right]].
    destruct (body (parsed p)) as [b|];
      [|apply settle_spec; [reflexivity | now right]].
    destruct (RedditPoster.post_to_subreddits lower Service submit true t b
                match suggested_subreddits (parsed p) with
                | Some l => l
                | None => []
                end cfg (reddit st)) as [[urls|] reddit'].
    + apply settle_spec; [reflexivity | now left].
    + apply settle_spec; [reflexivity | now right].
Qed.

Lemma cmd_post_spec (credentials configured : bool)
  (cfg : RedditPoster.subreddits_config) (due : list post) :
  forall st : state,
    map id (table (cmd_post credentials configured cfg due st))
    = map id (table st) /\
    forall i,
      (exists p, In p due /\ i = id p /\ platform p = X) \/
      all_settled i (table st) ->
      all_settled i (table (cmd_post credentials configured cfg due st)).
Proof.
  unfold PostQueue.cmd_post.
  induction due as [|p due IH]; intros st; cbn [fold_left].
  - split; [reflexivity|]. intros i [(p & [] & _) | Hi]. exact Hi.
  - destruct (post_due_spec credentials configured cfg p st) as [Hids Hstep].
    destruct (IH (post_due credentials configured cfg p st)) as [Hids' Hrest].
    split; [now rewrite Hids', Hids|].
    intros i Hi. apply Hrest.
    destruct Hi as [(q & [<- | Hq] & Hi & HX) | Hi].
    + right. apply Hstep. left. now split.
    + left. now exists q.
    + right. apply Hstep. now right.
Qed.

(** The submissions of a service that refuses them all. *)
Lemma submit_all_refused (title body : str) (targets : list str) :
  (forall s n t b, snd (submit s n t b) = None) ->
  forall urls (st : RedditPoster.state Service),
    fst (RedditPoster.submit_all Service submit title body targets urls st)
    = urls /\
    length (RedditPoster.submitted Service
              (snd (RedditPoster.submit_all Service submit title body targets
                      urls st)))
    = (length (RedditPoster.submitted Service st) + length targets)%nat.
Proof.
  intros Hrefuse. induction targets as [|target rest IH]; intros urls st.
  - cbn [RedditPoster.submit_all fst snd length]. split; [reflexivity | lia].
  - cbn [RedditPoster.submit_all].
    pose proof (Hrefuse (RedditPoster.service Service st)
                  (lstrip_chars RedditPoster.R_SLASH target) title body)
      as Hr.
    destruct (submit (RedditPoster.service Service st)
                (lstrip_chars RedditPoster.R_SLASH target) title body)
      as [s' permalink].
    cbn [snd] in Hr. subst permalink.
    match goal with
    | |- context [RedditPoster.submit_all _ _ _ _ _ _ ?st1] =>
        destruct (IH urls st1) as [H1 H2]
    end.
    split; [exact H1|]. rewrite H2.
    cbn [RedditPoster.submitted length]. rewrite length_app.
    cbn [length]. lia.
Qed.

(** X29 ([cmd_post], lines 192-238 of [podcast-to-social/main.py], with
    [update_post_status] of [database.py]): the posting run keeps the rows
    of the table in their places and leaves no thread that was due waiting.
    After the run, every row under the identifier of a due post of the
    platform [x] is posted or failed. *)
Theorem cmd_post_settles (credentials configured : bool)
  (cfg : RedditPoster.subreddits_config) (due : list post) (st : state)
  (p : post) :
  In p due ->
  platform p = X ->
  map id (table (cmd_post credentials configured cfg due st))
  = map id (table st) /\
  forall r,
    In r (table (cmd_post credentials configured cfg due st)) ->
    id r = id p ->
    status r = POSTED \/ status r = FAILED.
Proof.
  intros Hin HX.
  destruct (cmd_post_spec credentials configured cfg due st) as [Hids Hall].
  split; [exact Hids|]. apply Hall. left. now exists p.
Qed.

(** X30 ([cmd_post], lines 221-234, with [post_to_subreddits] of
    [reddit_poster.py]): a Reddit post is marked posted although nothing
    was published.  When Reddit is configured and the service refuses every
    submission, or no suggested subreddit is allowed, the row is still set
    to posted, with the empty string as its URL; one submission was tried
    for each allowed subreddit. *)
Theorem post_due_reddit_refused (credentials : bool)
  (cfg : RedditPoster.subreddits_config) (p : post) (st : state)
  (t b : str) (targets : list str) :
  platform p = REDDIT ->
  title (parsed p) = Some t ->
  body (parsed p) = Some b ->
  RedditPoster._allowed_subreddits lower
    match suggested_subreddits (parsed p) with
    | Some l => l
    | None => []
    end cfg 3 = Some targets ->
  (forall s n t b, snd (submit s n t b) = None) ->
  table (post_due credentials true cfg p st)
  = update_post_status (id p) POSTED (Some []) None
      (utcnow (Twitter.world World (x st))) (table st) /\
  length (RedditPoster.submitted Service
            (reddit (post_due credentials true cfg p st)))
  = (length (RedditPoster.submitted Service (reddit st)) + length targets)%nat.
Proof.
  intros HR Ht Hb Hallowed Hrefuse. unfold PostQueue.post_due.
  rewrite HR, Ht, Hb.
  change (eqb REDDIT X) with false. change (eqb REDDIT REDDIT) with true.
  cbn [negb]. unfold RedditPoster.post_to_subreddits. cbn [negb].
  rewrite Hallowed. destruct targets as [|target rest].
  - cbn [PostQueue.settle PostQueue.table PostQueue.reddit PostQueue.x join
         length]. split; [reflexivity | lia].
  - destruct (submit_all_refused t b (target :: rest) Hrefuse [] (reddit st))
      as [H1 H2].
    destruct (RedditPoster.submit_all Service submit t b (target :: rest) []
                (reddit st)) as [urls reddit'].
    cbn [fst snd] in H1, H2. subst urls.
    cbn [PostQueue.settle PostQueue.table PostQueue.reddit PostQueue.x join].
    split; [reflexivity | exact H2].
Qed.

End QueueFacts.

Section QueueRuns.
Import PyStr PyText PostQueue Cases.

Local Abbreviation posting :=
  (cmd_post lower_ascii nat tw_create tw_me tw_upload tw_exists tw_download
     op_utcnow nat refusing pq_error_text true true allow_list queue pq_start).

Lemma cmd_post_settles_witness :
  map status (table nat nat posting) = [POSTED; POSTED; APPROVED] /\
  forall r, In r (table nat nat posting) -> id r = 1 ->
            status r = POSTED \/ status r = FAILED.
Proof.
  split; [vm_compute; reflexivity|].
  apply (cmd_post_settles lower_ascii nat tw_create tw_me tw_upload tw_exists
           tw_download op_utcnow nat refusing pq_error_text true true
           allow_list queue pq_start (queued 1 X)).
  - now left.
  - reflexivity.
Defined.

Lemma post_due_reddit_refused_witness :
  map post_url
    (table nat nat
       (post_due lower_ascii nat tw_create tw_me tw_upload tw_exists
          tw_download op_utcnow nat refusing pq_error_text true true
          allow_list (queued 2 REDDIT) pq_start))
  = [None; Some []; None].
Proof.
  rewrite (proj1 (post_due_reddit_refused lower_ascii nat tw_create tw_me
                    tw_upload tw_exists tw_download op_utcnow nat refusing
                    pq_error_text true allow_list (queued 2 REDDIT) pq_start
                    (lit "On habits") (lit "A summary.")
                    [lit "r/Stoicism"; lit "r/getdisciplined"]
                    eq_refl eq_refl eq_refl eq_refl
                    (fun s n t b => eq_refl))).
  vm_compute. reflexivity.
Defined.

End QueueRuns.
